(** * Symlink comparison engine of [scripts/symlink-comparison.py]

    A shallow embedding of the path normaliser, the normalised path index,
    the symlink chain resolver, the equivalence matcher and the store-path
    mapping analyser, followed by the properties established about them.

    Python [str] values are modelled as [string], a character being a
    byte; the JSON dictionaries read from the two state files keep their
    insertion order and are association lists; the resolver cache is a
    [gmap], the [visited] set a [gset]. A function that can raise returns
    in the type [py]; the resolver returns an [outcome]. *)

From Stdlib Require Import Ascii String.
From stdpp Require Import gmap strings list.
From Equations Require Import Equations.

Set Warnings "-register-all,-clear-no-such-hyp".

(** ** Python string primitives *)

Module PyStr.

Definition sep : ascii := "/"%char.
Definition newline : ascii := "010"%char.

Definition is_sep (c : ascii) : bool := Ascii.eqb c sep.
Definition not_sep (c : ascii) : bool := negb (is_sep c).
Definition not_newline (c : ascii) : bool := negb (Ascii.eqb c newline).

(** [s.lstrip("/")] *)
Fixpoint lstrip (s : string) : string :=
  match s with
  | String c s' => if is_sep c then lstrip s' else s
  | EmptyString => EmptyString
  end.

(** [s.startswith("/")] *)
Definition startswith_sep (s : string) : bool :=
  match s with
  | String c _ => is_sep c
  | EmptyString => false
  end.

(** [s.endswith("/")] *)
Fixpoint endswith_sep (s : string) : bool :=
  match s with
  | EmptyString => false
  | String c EmptyString => is_sep c
  | String _ s' => endswith_sep s'
  end.

(** ["/" in s] *)
Fixpoint has_sep (s : string) : bool :=
  match s with
  | EmptyString => false
  | String c s' => is_sep c || has_sep s'
  end.

(** [s == "/" * len(s)] *)
Fixpoint all_sep (s : string) : bool :=
  match s with
  | EmptyString => true
  | String c s' => is_sep c && all_sep s'
  end.

(** [s.rstrip("/")] *)
Fixpoint rstrip (s : string) : string :=
  match s with
  | EmptyString => EmptyString
  | String c s' => if all_sep s then EmptyString else String c (rstrip s')
  end.

(** [s[:s.rfind("/") + 1]] : everything up to and including the last
    separator, empty when there is none. *)
Fixpoint upto_last_sep (s : string) : string :=
  match s with
  | EmptyString => EmptyString
  | String c s' => if has_sep s then String c (upto_last_sep s') else EmptyString
  end.

(** Longest prefix of [s] whose characters all satisfy [p], and the rest. *)
Fixpoint span (p : ascii → bool) (s : string) : string * string :=
  match s with
  | EmptyString => (EmptyString, EmptyString)
  | String c s' =>
      if p c then let '(a, b) := span p s' in (String c a, b)
      else (EmptyString, s)
  end.

(** [s.split("/")] : never empty, keeps empty components. *)
Fixpoint split (s : string) : list string :=
  match s with
  | EmptyString => [EmptyString]
  | String c s' =>
      if is_sep c then EmptyString :: split s'
      else match split s' with
           | comp :: comps => String c comp :: comps
           | [] => [String c EmptyString]
           end
  end.

(** ["/".join(comps)] *)
Fixpoint join (comps : list string) : string :=
  match comps with
  | [] => EmptyString
  | [comp] => comp
  | comp :: comps' => comp +:+ String sep (join comps')
  end.

(** Truthiness of a [str]: the empty string is false. *)
Definition truthy (s : string) : bool :=
  match s with EmptyString => false | _ => true end.

End PyStr.

(** ** [os.path] (posixpath) on strings *)

Module PosixPath.
Import PyStr.

(** [os.path.dirname] *)
Definition dirname (p : string) : string :=
  let head := upto_last_sep p in
  if truthy head && negb (all_sep head) then rstrip head else head.

(** [os.path.join(a, b)] with two arguments *)
Definition join2 (a b : string) : string :=
  if startswith_sep b then b
  else if negb (truthy a) || endswith_sep a then a +:+ b
  else a +:+ String sep b.

(** The component loop of [os.path.normpath]; [new_comps] is kept in
    reverse, so its head is [new_comps[-1]]. *)
Fixpoint normpath_comps (initial_slashes : nat) (comps : list string)
    (new_comps : list string) : list string :=
  match comps with
  | [] => rev new_comps
  | comp :: comps' =>
      if bool_decide (comp = EmptyString) || bool_decide (comp = ".")
      then normpath_comps initial_slashes comps' new_comps
      else if negb (bool_decide (comp = ".."))
              || (bool_decide (initial_slashes = 0%nat) && bool_decide (new_comps = []))
              || bool_decide (head new_comps = Some "..")
      then normpath_comps initial_slashes comps' (comp :: new_comps)
      else normpath_comps initial_slashes comps' (tail new_comps)
  end.

(** Number of leading slashes [normpath] keeps: 0, 1, or 2 when the path
    starts with exactly two. *)
Definition initial_slashes (path : string) : nat :=
  match path with
  | String c1 rest =>
      if is_sep c1 then
        match rest with
        | String c2 rest2 =>
            if is_sep c2 then
              (if startswith_sep rest2 then 1 else 2)%nat
            else 1%nat
        | EmptyString => 1%nat
        end
      else 0%nat
  | EmptyString => 0%nat
  end.

(** [os.path.normpath] *)
Definition normpath (path : string) : string :=
  if negb (truthy path) then "."
  else
    let n := initial_slashes path in
    let comps := normpath_comps n (split path) [] in
    let joined := PyStr.join comps in
    let path' := String.concat EmptyString (replicate n "/") +:+ joined in
    if truthy path' then path' else ".".

End PosixPath.

(** ** The regular expressions of the script

    All three patterns start with a store root, thirty-two characters of
    [[a-z0-9]] and a dash. Each root spelling has a fixed width, so this
    part is matched as a sequence of character classes, one per position. *)

Module Re.
Import PyStr.

Definition cls := ascii → bool.

(** [[a-z0-9]] *)
Definition lower_alnum (c : ascii) : bool :=
  let n := nat_of_ascii c in
  ((97 <=? n) && (n <=? 122) || (48 <=? n) && (n <=? 57))%nat.

(** A literal, as one singleton class per character. *)
Definition lit (l : string) : list cls := Ascii.eqb <$> list_ascii_of_string l.

(** Match a fixed-width sequence of classes at the start of [s]; gives the
    matched text and the rest. *)
Fixpoint match_seq (pat : list cls) (s : string) : option (string * string) :=
  match pat with
  | [] => Some (EmptyString, s)
  | p :: pat' =>
      match s with
      | String c s' =>
          if p c then
            match match_seq pat' s' with
            | Some (m, r) => Some (String c m, r)
            | None => None
            end
          else None
      | EmptyString => None
      end
  end.

(** [nix/(?:\.r[wo]-)?store/] : the optional group is tried first. The
    three spellings exclude one another, so backtracking into this part
    never finds a second way to match. *)
Definition store_roots : list string :=
  ["nix/.ro-store/"; "nix/.rw-store/"; "nix/store/"].

(** [[a-z0-9]{32}-] *)
Definition hash_dash : list cls := replicate 32 lower_alnum ++ lit "-".

Fixpoint match_alts (alts : list string) (tl : list cls) (s : string)
    : option (string * string * string) :=
  match alts with
  | [] => None
  | r :: alts' =>
      match match_seq (lit r) s with
      | Some (root, s1) =>
          match match_seq tl s1 with
          | Some (m, s2) => Some (root, m, s2)
          | None => match_alts alts' tl s
          end
      | None => match_alts alts' tl s
      end
  end.

(** [nix/(?:\.r[wo]-)?store/[a-z0-9]{32}-] at the start of [s]: the root,
    the hash with its dash, and the rest. *)
Definition match_store_prefix (s : string) : option (string * string * string) :=
  match_alts store_roots hash_dash s.

(** [(nix/(?:\.r[wo]-)?store/)[a-z0-9]{32}-(.+)] at the start of [s]:
    group 1, group 2 and the text after the match. The dot does not match
    a newline and [.+] is greedy, so group 2 runs to the end of the line. *)
Definition match_normalize (s : string) : option (string * string * string) :=
  match match_store_prefix s with
  | Some (root, _, s2) =>
      let '(g2, rest) := span not_newline s2 in
      if truthy g2 then Some (root, g2, rest) else None
  | None => None
  end.

(** [(nix/(?:\.r[wo]-)?store/[a-z0-9]{32}-[^/]+)] at the start of [s]:
    group 1, which is the whole match. *)
Definition match_store_path (s : string) : option string :=
  match match_store_prefix s with
  | Some (root, hd, s2) =>
      let '(name, _) := span not_sep s2 in
      if truthy name then Some (root +:+ hd +:+ name) else None
  | None => None
  end.

(** [nix/(?:\.r[wo]-)?store/[a-z0-9]{32}-([^/]+)] at the start of [s]:
    group 1, the package name. *)
Definition match_package (s : string) : option string :=
  match match_store_prefix s with
  | Some (_, _, s2) =>
      let '(name, _) := span not_sep s2 in
      if truthy name then Some name else None
  | None => None
  end.

(** [re.search]: the match at the leftmost position that has one. *)
Fixpoint search {A} (m : string → option A) (s : string) : option A :=
  match m s with
  | Some x => Some x
  | None =>
      match s with
      | String _ s' => search m s'
      | EmptyString => None
      end
  end.

(** [re.sub(pattern, r"\1HASH-\2", s)]: scan left to right, replace each
    match and go on after it. A match is never empty, so every step
    consumes a character and [fuel = len(s)] steps are enough. *)
Fixpoint sub_normalize_fuel (fuel : nat) (s : string) : string :=
  match fuel with
  | O => s
  | S fuel' =>
      match match_normalize s with
      | Some (g1, g2, rest) => g1 +:+ "HASH-" +:+ g2 +:+ sub_normalize_fuel fuel' rest
      | None =>
          match s with
          | String c s' => String c (sub_normalize_fuel fuel' s')
          | EmptyString => EmptyString
          end
      end
  end.

Definition sub_normalize (s : string) : string :=
  sub_normalize_fuel (String.length s) s.

End Re.

(** ** Path normaliser and index *)

(** [normalize_path] *)
Definition normalize_path (path : string) : string :=
  let path := PyStr.lstrip path in
  Re.sub_normalize path.

(** [fix_path] *)
Definition fix_path (path : string) : string := PyStr.lstrip path.


(** ** Data model *)

(** A dictionary loaded by [json.load]: each key once, in insertion order. *)
Definition pydict (V : Type) : Type := list (string * V).

Module Dict.

(** [d.get(k)] *)
Fixpoint get {V} (k : string) (d : pydict V) : option V :=
  match d with
  | [] => None
  | (k', v) :: d' => if bool_decide (k' = k) then Some v else get k d'
  end.

(** [k in d] *)
Definition contains {V} (k : string) (d : pydict V) : bool :=
  match get k d with Some _ => true | None => false end.

(** [d[k] = v]: an existing key keeps its place, a new one goes last. *)
Fixpoint set {V} (k : string) (v : V) (d : pydict V) : pydict V :=
  match d with
  | [] => [(k, v)]
  | (k', v') :: d' =>
      if bool_decide (k' = k) then (k', v) :: d' else (k', v') :: set k v d'
  end.

(** [list(d.keys())] *)
Definition keys {V} (d : pydict V) : list string := fst <$> d.

End Dict.

(** A value as [json.load] returns it. A float behaves here as an integer
    does: it is false exactly when it is zero and it has no string methods. *)
Inductive json : Type :=
  | JNull
  | JBool (b : bool)
  | JInt (z : Z)
  | JStr (s : string)
  | JList (l : list json)
  | JDict (d : list (string * json)).

(** Truth value of a Python object, as [not target] and [target or ""]
    take it. *)
Definition json_truthy (v : json) : bool :=
  match v with
  | JNull => false
  | JBool b => b
  | JInt z => negb (z =? 0)%Z
  | JStr s => PyStr.truthy s
  | JList l => match l with [] => false | _ => true end
  | JDict d => match d with [] => false | _ => true end
  end.

(** A record of [state["symlinks"]]; [target] is what [.get("target")]
    returns, [JNull] when the key is absent or null. The metadata is never
    read by this script. *)
Record symlink_record : Type := { target : json }.

(** A record of [state["files"]]; [hash] is what [.get("hash")] returns. *)
Record file_record : Type := { hash : option string }.

Record state : Type := {
  symlinks : pydict symlink_record;
  files : pydict file_record
}.

Inductive status : Type := File | Broken | Missing | Cycle | MaxDepth.

(** [(final_path, is_broken, file_hash, status)] *)
Definition resolution : Type := string * bool * option string * status.

Inductive exn : Type :=
  | AttributeError
  | KeyError
  | ZeroDivisionError.

(** A computation that returns a value or raises. *)
Inductive py (A : Type) : Type :=
  | Ok (a : A)
  | Exc (e : exn).
Arguments Ok {A} a.
Arguments Exc {A} e.

Global Instance py_bind : MBind py := λ A B (k : A → py B) (m : py A),
  match m with
  | Ok a => k a
  | Exc e => Exc e
  end.

(** [for x in l: acc = body(acc, x)], stopping at the first exception. *)
Fixpoint py_fold {A S} (body : S → A → py S) (acc : S) (l : list A) : py S :=
  match l with
  | [] => Ok acc
  | x :: l' => acc' ← body acc x; py_fold body acc' l'
  end.

Global Instance status_eq_dec : EqDecision status.
Proof. solve_decision. Defined.

(** ** Chain resolver *)

Definition default_max_depth : nat := 20.

(** The variables of the [while] loop. *)
Record loop_state : Type := {
  visited : gset string;
  current_path : string;
  depth : nat
}.

(** What one iteration does: return, raise, or go round again. *)
Inductive loop_step : Type :=
  | Return (r : resolution)
  | Raise (e : exn)
  | Next (st : loop_state).

(** The target a symlink at [current_path] leads to. *)
Definition next_path (current_path target : string) : string :=
  if negb (PyStr.startswith_sep target) then
    let base_dir := PosixPath.dirname current_path in
    PosixPath.normpath (PosixPath.join2 base_dir target)
  else PyStr.lstrip target.

(** The body of the [while] loop. *)
Definition loop_body (symlinks : pydict symlink_record) (files : pydict file_record)
    (st : loop_state) : loop_step :=
  let current_path := current_path st in
  if bool_decide (current_path ∈ visited st) then
    Return (current_path, true, None, Cycle)
  else
    let visited := {[current_path]} ∪ visited st in
    let depth := S (depth st) in
    match Dict.get current_path symlinks with
    | None =>
        let clean_path := fix_path current_path in
        match Dict.get clean_path files with
        | Some {| hash := Some h |} => Return (current_path, false, Some h, File)
        | _ => Return (current_path, true, None, Missing)
        end
    | Some link =>
        let target := target link in
        if negb (json_truthy target) then
          Return (current_path, true, None, Broken)
        else
          match target with
          | JStr target =>
              Next {| visited := visited;
                      current_path := next_path current_path target;
                      depth := depth |}
          | _ => Raise AttributeError
          end
    end.

(** [while depth < max_depth: ...], then the exit with status [max_depth]. *)
Equations while_loop (symlinks : pydict symlink_record) (files : pydict file_record)
    (max_depth : nat) (st : loop_state) : py resolution
    by wf (max_depth - depth st) lt :=
  while_loop symlinks files max_depth st with Equations.Prop.Logic.inspect (depth st <? max_depth) := {
    | exist _ false _ => Ok (current_path st, true, None, MaxDepth)
    | exist _ true Hlt with Equations.Prop.Logic.inspect (loop_body symlinks files st) := {
        | exist _ (Return r) _ => Ok r
        | exist _ (Raise e) _ => Exc e
        | exist _ (Next st') Hbody => while_loop symlinks files max_depth st'
      }
  }.
Next Obligation.
  apply Nat.ltb_lt in Hlt.
  assert (depth st' = S (depth st)) as ->; [|lia].
  unfold loop_body in Hbody.
  repeat (case_match; simplify_eq/=); done.
Qed.

(** How a call ends: with a result and the cache as the call leaves it, or
    with an exception (the cache is then as it was). *)
Inductive outcome : Type :=
  | Returned (r : resolution) (cache : gmap string resolution)
  | Raised (e : exn).

(** [resolve_symlink_chain]; a call without [cache] passes the empty map. *)
Definition resolve_symlink_chain (path : string) (symlinks : pydict symlink_record)
    (files : pydict file_record) (cache : gmap string resolution)
    (max_depth : nat) : outcome :=
  match cache !! path with
  | Some r => Returned r cache
  | None =>
      let st := {| visited := ∅; current_path := path; depth := 0 |} in
      match while_loop symlinks files max_depth st with
      | Ok result => Returned result (<[path := result]> cache)
      | Exc e => Raised e
      end
  end.

(** [build_normalized_path_index]: a [defaultdict(list)], only ever read
    with [.get(norm_path, [])]. *)
Definition build_normalized_path_index (paths : list string) : gmap string (list string) :=
  foldl (λ index path,
           let norm_path := normalize_path path in
           <[norm_path := default [] (index !! norm_path) ++ [path]]> index)
        ∅ paths.

(** ** Equivalence matcher *)

(** The dictionary [path_match]. It is appended to [matching_paths] (and
    to [different_targets]) before [path_match.update] adds the resolved
    fields; the lists hold the same object, so once the iteration is over
    every list shows the record with all its fields. *)
Record path_match : Type := {
  state1_path : string;
  state2_path : string;
  state1_target : json;
  state2_target : json;
  state1_final_path : string;
  state2_final_path : string;
  state1_broken : bool;
  state2_broken : bool;
  state1_final_hash : option string;
  state2_final_hash : option string;
  state1_status : status;
  state2_status : status
}.

(** [results["stats"]] *)
Record match_stats : Type := {
  total_symlinks_state1 : nat;
  total_symlinks_state2 : nat;
  stat_matching_paths : nat;
  stat_different_targets : nat;
  stat_identical_final_content : nat;
  stat_different_final_content : nat;
  stat_broken_in_both : nat;
  stat_broken_only_in_state1 : nat;
  stat_broken_only_in_state2 : nat;
  store_path_mappings : pydict string
}.

(** [results] *)
Record match_results : Type := {
  matching_paths : list path_match;
  different_targets : list path_match;
  identical_final_content : list path_match;
  different_final_content : list path_match;
  broken_in_both : list path_match;
  broken_only_in_state1 : list path_match;
  broken_only_in_state2 : list path_match;
  stats : match_stats
}.

(** The branch of the final [if]/[elif] chain a pair falls into. *)
Inductive bucket : Type :=
  | BrokenInBoth
  | BrokenOnlyInState1
  | BrokenOnlyInState2
  | IdenticalFinalContent
  | DifferentFinalContent.

Global Instance bucket_eq_dec : EqDecision bucket.
Proof. solve_decision. Defined.

Definition classify (broken1 broken2 : bool) (hash1 hash2 : option string) : bucket :=
  if broken1 && broken2 then BrokenInBoth
  else if broken1 then BrokenOnlyInState1
  else if broken2 then BrokenOnlyInState2
  else if bool_decide (hash1 = hash2) then IdenticalFinalContent
  else DifferentFinalContent.

(** [normalize_path(target or "")]; a true value that is not a [str] has
    no [lstrip]. *)
Definition normalize_target (t : json) : py string :=
  match (if json_truthy t then t else JStr EmptyString) with
  | JStr s => Ok (normalize_path s)
  | _ => Exc AttributeError
  end.

(** What the loop over the symlinks of state 1 carries from one iteration
    to the next. *)
Record matcher_state : Type := {
  results : match_results;
  mappings : pydict string;
  resolve_cache1 : gmap string resolution;
  resolve_cache2 : gmap string resolution
}.

Definition record_match (m : path_match) (differ : bool) (b : bucket)
    (r : match_results) : match_results :=
  let st := stats r in
  let bump (b' : bucket) (n : nat) : nat :=
    if bool_decide (b = b') then S n else n in
  let put (b' : bucket) (l : list path_match) : list path_match :=
    if bool_decide (b = b') then l ++ [m] else l in
  {| matching_paths := matching_paths r ++ [m];
     different_targets :=
       if differ then different_targets r ++ [m] else different_targets r;
     identical_final_content := put IdenticalFinalContent (identical_final_content r);
     different_final_content := put DifferentFinalContent (different_final_content r);
     broken_in_both := put BrokenInBoth (broken_in_both r);
     broken_only_in_state1 := put BrokenOnlyInState1 (broken_only_in_state1 r);
     broken_only_in_state2 := put BrokenOnlyInState2 (broken_only_in_state2 r);
     stats :=
       {| total_symlinks_state1 := total_symlinks_state1 st;
          total_symlinks_state2 := total_symlinks_state2 st;
          stat_matching_paths := S (stat_matching_paths st);
          stat_different_targets :=
            if differ then S (stat_different_targets st) else stat_different_targets st;
          stat_identical_final_content :=
            bump IdenticalFinalContent (stat_identical_final_content st);
          stat_different_final_content :=
            bump DifferentFinalContent (stat_different_final_content st);
          stat_broken_in_both := bump BrokenInBoth (stat_broken_in_both st);
          stat_broken_only_in_state1 :=
            bump BrokenOnlyInState1 (stat_broken_only_in_state1 st);
          stat_broken_only_in_state2 :=
            bump BrokenOnlyInState2 (stat_broken_only_in_state2 st);
          store_path_mappings := store_path_mappings st |} |}.

Definition empty_results (symlinks1 symlinks2 : pydict symlink_record) : match_results :=
  {| matching_paths := [];
     different_targets := [];
     identical_final_content := [];
     different_final_content := [];
     broken_in_both := [];
     broken_only_in_state1 := [];
     broken_only_in_state2 := [];
     stats :=
       {| total_symlinks_state1 := length symlinks1;
          total_symlinks_state2 := length symlinks2;
          stat_matching_paths := 0;
          stat_different_targets := 0;
          stat_identical_final_content := 0;
          stat_different_final_content := 0;
          stat_broken_in_both := 0;
          stat_broken_only_in_state1 := 0;
          stat_broken_only_in_state2 := 0;
          store_path_mappings := [] |} |}.

(** [results["stats"]["store_path_mappings"] = store_path_mappings] *)
Definition with_store_path_mappings (mp : pydict string) (r : match_results)
    : match_results :=
  let st := stats r in
  {| matching_paths := matching_paths r;
     different_targets := different_targets r;
     identical_final_content := identical_final_content r;
     different_final_content := different_final_content r;
     broken_in_both := broken_in_both r;
     broken_only_in_state1 := broken_only_in_state1 r;
     broken_only_in_state2 := broken_only_in_state2 r;
     stats :=
       {| total_symlinks_state1 := total_symlinks_state1 st;
          total_symlinks_state2 := total_symlinks_state2 st;
          stat_matching_paths := stat_matching_paths st;
          stat_different_targets := stat_different_targets st;
          stat_identical_final_content := stat_identical_final_content st;
          stat_different_final_content := stat_different_final_content st;
          stat_broken_in_both := stat_broken_in_both st;
          stat_broken_only_in_state1 := stat_broken_only_in_state1 st;
          stat_broken_only_in_state2 := stat_broken_only_in_state2 st;
          store_path_mappings := mp |} |}.

(** [d[k]] on a dictionary of records *)
Definition subscript {V} (d : pydict V) (k : string) : py V :=
  match Dict.get k d with
  | Some v => Ok v
  | None => Exc KeyError
  end.

(** [resolve_symlink_chain(...)] called with the default [max_depth], as a
    step of the matcher: the result and the cache after the call. *)
Definition resolve_step (path : string) (symlinks : pydict symlink_record)
    (files : pydict file_record) (cache : gmap string resolution)
    : py (resolution * gmap string resolution) :=
  match resolve_symlink_chain path symlinks files cache default_max_depth with
  | Returned r cache' => Ok (r, cache')
  | Raised e => Exc e
  end.

(** The store-path pair a matched pair of paths contributes, when both
    paths show a store path. *)
Definition store_pair (path1 path2 : string) : option (string * string) :=
  match Re.search Re.match_store_path path1, Re.search Re.match_store_path path2 with
  | Some store_path1, Some store_path2 => Some (store_path1, store_path2)
  | _, _ => None
  end.

(** [if store_path1 not in store_path_mappings:
       store_path_mappings[store_path1] = store_path2] *)
Definition record_mapping (obs : option (string * string)) (mp : pydict string)
    : pydict string :=
  match obs with
  | Some (store_path1, store_path2) =>
      if Dict.contains store_path1 mp then mp
      else Dict.set store_path1 store_path2 mp
  | None => mp
  end.

(** The fields of a [(final_path, is_broken, file_hash, status)] tuple. *)
Definition final_path_of (r : resolution) : string := r.1.1.1.
Definition broken_of (r : resolution) : bool := r.1.1.2.
Definition hash_of (r : resolution) : option string := r.1.2.
Definition status_of (r : resolution) : status := r.2.

(** [path_match] once [path_match.update] has added the two resolutions. *)
Definition make_match (path1 path2 : string) (target1 target2 : json)
    (r1 r2 : resolution) : path_match :=
  {| state1_path := path1;
     state2_path := path2;
     state1_target := target1;
     state2_target := target2;
     state1_final_path := final_path_of r1;
     state2_final_path := final_path_of r2;
     state1_broken := broken_of r1;
     state2_broken := broken_of r2;
     state1_final_hash := hash_of r1;
     state2_final_hash := hash_of r2;
     state1_status := status_of r1;
     state2_status := status_of r2 |}.

(** The body of [for path1 in batch]. *)
Definition match_symlink (symlinks1 symlinks2 : pydict symlink_record)
    (files1 files2 : pydict file_record) (path_index2 : gmap string (list string))
    (acc : matcher_state) (path1 : string) : py matcher_state :=
  let norm_path := normalize_path path1 in
  let paths2 := default [] (path_index2 !! norm_path) in
  let paths2 := filter (λ p, Dict.contains p symlinks2) paths2 in
  match paths2 with
  | [] => Ok acc
  | path2 :: _ =>
      link1 ← subscript symlinks1 path1;
      link2 ← subscript symlinks2 path2;
      let target1 := target link1 in
      let target2 := target link2 in
      let mappings' := record_mapping (store_pair path1 path2) (mappings acc) in
      norm_target1 ← normalize_target target1;
      norm_target2 ← normalize_target target2;
      let differ := negb (bool_decide (norm_target1 = norm_target2)) in
      '(r1, cache1) ← resolve_step path1 symlinks1 files1 (resolve_cache1 acc);
      '(r2, cache2) ← resolve_step path2 symlinks2 files2 (resolve_cache2 acc);
      let m := make_match path1 path2 target1 target2 r1 r2 in
      let b := classify (broken_of r1) (broken_of r2) (hash_of r1) (hash_of r2) in
      Ok {| results := record_match m differ b (results acc);
            mappings := mappings';
            resolve_cache1 := cache1;
            resolve_cache2 := cache2 |}
  end.

(** [range(0, stop, step)] for a positive [step] *)
Definition range_step (stop step : nat) : list nat :=
  (λ i, i * step) <$> seq 0 ((stop + step - 1) / step).

(** [l[start : start + size]] *)
Definition slice {A} (l : list A) (start size : nat) : list A :=
  take size (drop start l).

Section Matcher.

(** The order in which Python iterates over [set(l)]: each element of [l]
    once, in an order the language does not fix. *)
Variable set_order : list string → list string.

(** [find_equivalent_symlinks]. [all_paths1] is built by the script but
    never read. *)
Definition find_equivalent_symlinks (state1 state2 : state) (batch_size : nat)
    : py match_results :=
  let symlinks1 := symlinks state1 in
  let symlinks2 := symlinks state2 in
  let files1 := files state1 in
  let files2 := files state2 in
  let all_paths2 := set_order (Dict.keys symlinks2 ++ Dict.keys files2) in
  let path_index2 := build_normalized_path_index all_paths2 in
  let init := {| results := empty_results symlinks1 symlinks2;
                 mappings := [];
                 resolve_cache1 := ∅;
                 resolve_cache2 := ∅ |} in
  let symlinks1_list := Dict.keys symlinks1 in
  if bool_decide (batch_size = 0) then Exc ZeroDivisionError
  else
    final ← py_fold
      (λ acc start_idx,
         let batch := slice symlinks1_list start_idx batch_size in
         py_fold (match_symlink symlinks1 symlinks2 files1 files2 path_index2) acc batch)
      init (range_step (length symlinks1_list) batch_size);
    Ok (with_store_path_mappings (mappings final) (results final)).

End Matcher.

Definition default_batch_size : nat := 5000.

(** ** Store-path mapping analyser *)

Record store_analysis : Type := {
  consistent_package_mappings : pydict string;
  inconsistent_package_mappings : pydict (list string);
  total_store_paths : nat;
  unique_packages_state1 : nat;
  consistent_mappings_count : nat;
  inconsistent_mappings_count : nat
}.

(** The first loop of [analyze_store_paths]: one iteration. *)
Definition add_package_mapping (package_mappings : pydict (gset string))
    (item : string * string) : pydict (gset string) :=
  let '(path1, path2) := item in
  match Re.search Re.match_package path1, Re.search Re.match_package path2 with
  | Some package1, Some package2 =>
      let package_mappings :=
        if Dict.contains package1 package_mappings then package_mappings
        else Dict.set package1 ∅ package_mappings in
      Dict.set package1
        (default ∅ (Dict.get package1 package_mappings) ∪ {[package2]})
        package_mappings
  | _, _ => package_mappings
  end.

(** The second loop: one iteration. [list(pkg2_set)] has the elements in an
    order the language does not fix; [len(pkg2_set) == 1] holds exactly when
    that list has one element, which [next(iter(pkg2_set))] then gives. *)
Definition add_consistency
    (acc : pydict string * pydict (list string)) (item : string * gset string)
    : pydict string * pydict (list string) :=
  let '(consistent_mappings, inconsistent_mappings) := acc in
  let '(pkg1, pkg2_set) := item in
  match elements pkg2_set with
  | [pkg2] => (Dict.set pkg1 pkg2 consistent_mappings, inconsistent_mappings)
  | alternatives =>
      (consistent_mappings, Dict.set pkg1 alternatives inconsistent_mappings)
  end.

(** [analyze_store_paths], on [symlink_results["stats"]["store_path_mappings"]] *)
Definition analyze_store_paths (symlink_results : match_results) : store_analysis :=
  let store_path_mappings := store_path_mappings (stats symlink_results) in
  let package_mappings := foldl add_package_mapping [] store_path_mappings in
  let '(consistent_mappings, inconsistent_mappings) :=
    foldl add_consistency ([], []) package_mappings in
  {| consistent_package_mappings := consistent_mappings;
     inconsistent_package_mappings := inconsistent_mappings;
     total_store_paths := length store_path_mappings;
     unique_packages_state1 := length package_mappings;
     consistent_mappings_count := length consistent_mappings;
     inconsistent_mappings_count := length inconsistent_mappings |}.

(** ** Chains of symlinks, as the resolver walks them *)

(** The hop the loop takes at [p]: defined when [p] is a symlink whose
    target is a non-empty string. *)
Definition hop (symlinks : pydict symlink_record) (p : string) : option string :=
  match Dict.get p symlinks with
  | Some {| target := JStr t |} =>
      if PyStr.truthy t then Some (next_path p t) else None
  | _ => None
  end.

(** The path reached from [p] after [n] hops. *)
Fixpoint follow (symlinks : pydict symlink_record) (n : nat) (p : string)
    : option string :=
  match n with
  | O => Some p
  | S n' => hop symlinks p ≫= follow symlinks n'
  end.

(** One trip round the [while] loop: the guard holds and the body neither
    returns nor raises. *)
Definition iterates (symlinks : pydict symlink_record) (files : pydict file_record)
    (max_depth : nat) (st st' : loop_state) : Prop :=
  depth st < max_depth ∧ loop_body symlinks files st = Next st'.

(** How the loop is left from [st], if it is left there. *)
Definition loop_exit (symlinks : pydict symlink_record) (files : pydict file_record)
    (max_depth : nat) (st : loop_state) : option (py resolution) :=
  if depth st <? max_depth then
    match loop_body symlinks files st with
    | Return r => Some (Ok r)
    | Raise e => Some (Exc e)
    | Next _ => None
    end
  else Some (Ok (current_path st, true, None, MaxDepth)).

Definition initial_state (path : string) : loop_state :=
  {| visited := ∅; current_path := path; depth := 0 |}.


(** Symlink records as the capture script writes them: a target is null or
    a string. More generally, a target that counts as true is a string. *)
Definition targets_well_typed (symlinks : pydict symlink_record) : Prop :=
  ∀ p r, Dict.get p symlinks = Some r →
         json_truthy (target r) = true → ∃ s, target r = JStr s.

(** ** Small snapshots used as examples *)

Definition link (t : string) : symlink_record := {| target := JStr t |}.
Definition hashed (h : string) : file_record := {| hash := Some h |}.

(** [a -> /b], [b -> c], [c -> d/e], and the file [d/e]. *)
Definition chain_symlinks : pydict symlink_record :=
  [("a", link "/b"); ("b", link "c"); ("c", link "d/e")].
Definition chain_files : pydict file_record := [("d/e", hashed "H")].

(** [a -> /b] and [b -> /a]. *)
Definition cycle_symlinks : pydict symlink_record :=
  [("a", link "/b"); ("b", link "/a")].

(** A symlink whose target is the number 5. *)
Definition malformed_symlinks : pydict symlink_record :=
  [("a", {| target := JInt 5 |})].

(** [a -> b] and [b] with a null target. *)
Definition broken_symlinks : pydict symlink_record :=
  [("a", link "b"); ("b", {| target := JNull |})].

(** ** Notions used to state the properties of the normaliser *)

(** Every character of [s] satisfies [p]. *)
Fixpoint string_forall (p : ascii → bool) (s : string) : bool :=
  match s with
  | EmptyString => true
  | String c s' => p c && string_forall p s'
  end.

(** [n] separators in a row. *)
Fixpoint slashes (n : nat) : string :=
  match n with
  | O => EmptyString
  | S n' => String PyStr.sep (slashes n')
  end.

(** [s] begins with a store root, thirty-two characters of [[a-z0-9]] and a
    dash. *)
Definition store_segment_at (s : string) : Prop :=
  ∃ root h rest,
    root ∈ Re.store_roots
    ∧ String.length h = 32
    ∧ string_forall Re.lower_alnum h = true
    ∧ s = root +:+ h +:+ "-" +:+ rest.

(** [p] has such a segment somewhere. *)
Definition contains_store_segment (p : string) : Prop :=
  ∃ pre s, p = pre +:+ s ∧ store_segment_at s.

(** The number of positions of [s] at which the pattern of
    [normalize_path] matches. *)
Fixpoint store_matches (s : string) : nat :=
  (match Re.match_normalize s with Some _ => 1 | None => 0 end)
  + match s with
    | EmptyString => 0
    | String _ s' => store_matches s'
    end.

(** Whether a fixed-width sequence of classes matches at the start of [s]. *)
Fixpoint accepts (pat : list Re.cls) (s : string) : bool :=
  match pat, s with
  | [], _ => true
  | p :: pat', String c s' => p c && accepts pat' s'
  | _ :: _, EmptyString => false
  end.

(** The fixed-width part of the pattern of [normalize_path] for one root
    spelling: the root, the hash, the dash and the first character of
    group 2. *)
Definition normalize_pattern (root : string) : list Re.cls :=
  Re.lit root ++ Re.hash_dash ++ [PyStr.not_newline].

Definition hash_a : string := "aaaaaaaaaaaaaaaaaaaaaaaaaaaaaaaa".
Definition hash_b : string := "bbbbbbbbbbbbbbbbbbbbbbbbbbbbbbbb".
Definition hash_c : string := "cccccccccccccccccccccccccccccccc".

(** A store path inside a store path, on one line. *)
Definition nested_store_path : string :=
  "nix/store/" +:+ hash_a +:+ "-foo/nix/store/" +:+ hash_b +:+ "-bar".

(** A path of the form root/hash-name/rest whose rest holds a newline and,
    after it, another store path. *)
Definition two_line_store_path : string :=
  "nix/store/" +:+ hash_a +:+ "-a/b" +:+ String PyStr.newline ("nix/store/" +:+ hash_b +:+ "-c").

(** Whether the common start of the three patterns matches somewhere in
    [s]. *)
Fixpoint has_store_prefix (s : string) : bool :=
  match Re.match_store_prefix s with
  | Some _ => true
  | None =>
      match s with
      | EmptyString => false
      | String _ s' => has_store_prefix s'
      end
  end.

(** How [re.sub] can change a string up to its first replacement: either not
    at all, or a separator that ends a store root is now followed by the [H]
    of [HASH-]. *)
Definition hash_replaced (s t : string) : Prop :=
  s = t ∨ ∃ w x y, s = w +:+ String "/" x ∧ t = w +:+ String "/" (String "H" y).

(** ** Notions used to state the properties of the mapping analyser *)

(** The observation an entry of [store_path_mappings] gives: the package
    names of its two store paths, when both have one. *)
Definition package_pair (item : string * string) : option (string * string) :=
  match Re.search Re.match_package item.1, Re.search Re.match_package item.2 with
  | Some package1, Some package2 => Some (package1, package2)
  | _, _ => None
  end.

Definition observations (store_path_mappings : pydict string) : list (string * string) :=
  omap package_pair store_path_mappings.

(** The target package names observed for one source package name. *)
Definition observed_targets (obs : list (string * string)) (source : string)
    : gset string :=
  list_to_set (snd <$> filter (λ o, o.1 = source) obs).

(** Three source store paths of package [A]: two matched with a store path
    of [X], one with a store path of [Y]. *)
Definition mappings_X_X_Y : pydict string :=
  [("nix/store/" +:+ hash_a +:+ "-A", "nix/store/" +:+ hash_a +:+ "-X");
   ("nix/store/" +:+ hash_b +:+ "-A", "nix/store/" +:+ hash_b +:+ "-X");
   ("nix/store/" +:+ hash_c +:+ "-A", "nix/store/" +:+ hash_c +:+ "-Y")].

(** The first two of them only. *)
Definition mappings_X_X : pydict string := take 2 mappings_X_X_Y.

(** Results of the matcher that carry the given store-path mappings. *)
Definition results_with (store_path_mappings : pydict string) : match_results :=
  with_store_path_mappings store_path_mappings (empty_results [] []).

(** ** Notions used to state the properties of the matcher *)

(** What the language promises about iterating over [set(l)]: every
    element of [l], once. *)
Definition set_order_ok (set_order : list string → list string) : Prop :=
  ∀ l, NoDup (set_order l) ∧ ∀ x, x ∈ set_order l ↔ x ∈ l.

(** The store-path observations that matched pairs give, in the order in
    which the pairs were matched. *)
Definition pair_observations (ms : list path_match) : list (string * string) :=
  omap (λ m, store_pair (state1_path m) (state2_path m)) ms.

(** The loop over the symlinks of state 1 without its batches. *)
Definition match_all (set_order : list string → list string)
    (state1 state2 : state) : py matcher_state :=
  let all_paths2 :=
    set_order (Dict.keys (symlinks state2) ++ Dict.keys (files state2)) in
  py_fold
    (match_symlink (symlinks state1) (symlinks state2) (files state1) (files state2)
       (build_normalized_path_index all_paths2))
    {| results := empty_results (symlinks state1) (symlinks state2);
       mappings := [];
       resolve_cache1 := ∅;
       resolve_cache2 := ∅ |}
    (Dict.keys (symlinks state1)).

(** Two symlinks under one store path in state 1; in state 2 their
    counterparts lie under two different store paths. *)
Definition one_package_state : state :=
  {| symlinks := [("nix/store/" +:+ hash_a +:+ "-pkg/x", link "t");
                  ("nix/store/" +:+ hash_a +:+ "-pkg/y", link "t")];
     files := [] |}.
Definition two_packages_state : state :=
  {| symlinks := [("nix/store/" +:+ hash_b +:+ "-pkg/x", link "t");
                  ("nix/store/" +:+ hash_c +:+ "-pkg/y", link "t")];
     files := [] |}.

(** A snapshot with two builds of one package: two symlinks with the same
    normalised path, leading to files of different content. *)
Definition two_builds_state : state :=
  {| symlinks := [("nix/store/" +:+ hash_a +:+ "-pkg/x", link "/f1");
                  ("nix/store/" +:+ hash_b +:+ "-pkg/x", link "/f2")];
     files := [("f1", hashed "H1"); ("f2", hashed "H2")] |}.

(** A snapshot with one symlink to a file and one broken symlink. *)
Definition plain_state : state :=
  {| symlinks := [("bin/tool", link ("/nix/store/" +:+ hash_a +:+ "-pkg-1.0/bin/tool"));
                  ("bin/gone", {| target := JNull |})];
     files := [("nix/store/" +:+ hash_a +:+ "-pkg-1.0/bin/tool", hashed "H")] |}.

(** ** Notions used to state further properties *)

(** The number of separators in [s]. *)
Fixpoint count_sep (s : string) : nat :=
  match s with
  | EmptyString => 0
  | String c s' => (if PyStr.is_sep c then 1 else 0) + count_sep s'
  end.

(** A result whose fields agree: it is broken unless its status is [File],
    and it carries a hash exactly when its status is [File]. *)
Definition resolution_consistent (r : resolution) : Prop :=
  broken_of r = negb (bool_decide (status_of r = File))
  ∧ (is_Some (hash_of r) ↔ status_of r = File).

(** A cache in which every entry is what resolving its key afresh gives. *)
Definition cache_sound (symlinks : pydict symlink_record) (files : pydict file_record)
    (max_depth : nat) (cache : gmap string resolution) : Prop :=
  ∀ p r, cache !! p = Some r →
         resolve_symlink_chain p symlinks files ∅ max_depth
         = Returned r (<[p := r]> ∅).

(** [a -> b], [b -> c], [c -> /b]: a cycle that does not pass the start. *)
Definition lasso_symlinks : pydict symlink_record :=
  [("a", link "b"); ("b", link "c"); ("c", link "/b")].

(** What the walk from [path] has done when it stands at [st]: [depth st]
    hops, having visited the paths it passed. *)
Definition on_chain (symlinks : pydict symlink_record) (path : string)
    (st : loop_state) : Prop :=
  follow symlinks (depth st) path = Some (current_path st)
  ∧ ∀ x, x ∈ visited st ↔ ∃ j, j < depth st ∧ follow symlinks j path = Some x.

(** What each status of a result says about where the walk from [path]
    ended, [k] hops down the chain. *)
Definition status_sound (symlinks : pydict symlink_record) (files : pydict file_record)
    (max_depth : nat) (path : string) (k : nat) (r : resolution) : Prop :=
  let p := final_path_of r in
  match status_of r with
  | File =>
      k < max_depth ∧ Dict.get p symlinks = None
      ∧ ∃ h, hash_of r = Some h
             ∧ Dict.get (fix_path p) files = Some {| hash := Some h |}
  | Missing =>
      k < max_depth ∧ Dict.get p symlinks = None
      ∧ ∀ h, Dict.get (fix_path p) files ≠ Some {| hash := Some h |}
  | Broken =>
      k < max_depth
      ∧ ∃ link, Dict.get p symlinks = Some link ∧ json_truthy (target link) = false
  | Cycle => k < max_depth ∧ ∃ j, j < k ∧ follow symlinks j path = Some p
  | MaxDepth => k = max_depth
  end.

(** A cache whose entries all have fields that agree. *)
Definition cache_consistent (cache : gmap string resolution) : Prop :=
  ∀ p r, cache !! p = Some r → resolution_consistent r.

(** A path component that is not empty and does not begin with a
    separator. *)
Definition proper_component (c : string) : Prop :=
  c ≠ EmptyString ∧ PyStr.startswith_sep c = false.

(** ** Notions used to state further properties of the matcher *)

Global Instance exn_eq_dec : EqDecision exn.
Proof. solve_decision. Defined.

Global Instance py_eq_dec {A} `{EqDecision A} : EqDecision (py A).
Proof. solve_decision. Defined.

(** The branch of the final [if]/[elif] chain that the resolved fields of
    a recorded pair select. *)
Definition bucket_of (m : path_match) : bucket :=
  classify (state1_broken m) (state2_broken m)
           (state1_final_hash m) (state2_final_hash m).

(** The two resolutions a recorded pair carries. *)
Definition resolution1 (m : path_match) : resolution :=
  (state1_final_path m, state1_broken m, state1_final_hash m, state1_status m).
Definition resolution2 (m : path_match) : resolution :=
  (state2_final_path m, state2_broken m, state2_final_hash m, state2_status m).

(** A symlink of state 2 has the same normalised path as [path1]. *)
Definition has_counterpart (state2 : state) (path1 : string) : Prop :=
  Exists (λ path2, normalize_path path2 = normalize_path path1)
         (Dict.keys (symlinks state2)).

Global Instance has_counterpart_dec state2 path1 : Decision (has_counterpart state2 path1).
Proof. unfold has_counterpart. apply _. Defined.

(** The state the loop over the symlinks of state 1 starts from. *)
Definition initial_matcher_state (state1 state2 : state) : matcher_state :=
  {| results := empty_results (symlinks state1) (symlinks state2);
     mappings := [];
     resolve_cache1 := ∅;
     resolve_cache2 := ∅ |}.

(** ** Report *)

(** [report["summary"]["broken_links"]] *)
Record broken_links_summary : Type := {
  in_both_states : nat;
  only_in_state1 : nat;
  only_in_state2 : nat
}.

(** [report["summary"]["store_path_analysis"]] *)
Record store_path_summary : Type := {
  total_mapped_paths : nat;
  unique_packages : nat;
  consistent_mappings : nat;
  inconsistent_mappings : nat
}.

(** [report["summary"]] *)
Record report_summary : Type := {
  summary_state1_path : string;
  summary_state2_path : string;
  summary_analysis_time : string;
  summary_total_symlinks_state1 : nat;
  summary_total_symlinks_state2 : nat;
  summary_matching_paths : nat;
  summary_identical_final_content : nat;
  summary_different_final_content : nat;
  summary_broken_links : broken_links_summary;
  summary_store_path_analysis : store_path_summary
}.

(** [report["symlink_analysis"]] *)
Record symlink_analysis : Type := {
  examples_identical_final_content : list path_match;
  examples_different_final_content : list path_match;
  examples_broken_in_both : list path_match;
  examples_broken_only_in_state1 : list path_match;
  examples_broken_only_in_state2 : list path_match
}.

(** [report["store_path_analysis"]] *)
Record store_path_tables : Type := {
  table_consistent_package_mappings : pydict string;
  table_inconsistent_package_mappings : pydict (list string)
}.

Record report : Type := {
  report_summary_of : report_summary;
  report_symlink_analysis : symlink_analysis;
  report_store_path_analysis : store_path_tables
}.

(** [generate_report]; [now] is what [datetime.datetime.now().isoformat()]
    gives when the report is made. *)
Definition generate_report (now : string) (state1_path state2_path : string)
    (symlink_results : match_results) (store_analysis : store_analysis) : report :=
  {| report_summary_of :=
       {| summary_state1_path := state1_path;
          summary_state2_path := state2_path;
          summary_analysis_time := now;
          summary_total_symlinks_state1 :=
            total_symlinks_state1 (stats symlink_results);
          summary_total_symlinks_state2 :=
            total_symlinks_state2 (stats symlink_results);
          summary_matching_paths := stat_matching_paths (stats symlink_results);
          summary_identical_final_content :=
            stat_identical_final_content (stats symlink_results);
          summary_different_final_content :=
            stat_different_final_content (stats symlink_results);
          summary_broken_links :=
            {| in_both_states := stat_broken_in_both (stats symlink_results);
               only_in_state1 := stat_broken_only_in_state1 (stats symlink_results);
               only_in_state2 := stat_broken_only_in_state2 (stats symlink_results) |};
          summary_store_path_analysis :=
            {| total_mapped_paths := total_store_paths store_analysis;
               unique_packages := unique_packages_state1 store_analysis;
               consistent_mappings := consistent_mappings_count store_analysis;
               inconsistent_mappings := inconsistent_mappings_count store_analysis |} |};
     report_symlink_analysis :=
       {| examples_identical_final_content :=
            take 100 (identical_final_content symlink_results);
          examples_different_final_content :=
            take 100 (different_final_content symlink_results);
          examples_broken_in_both := take 50 (broken_in_both symlink_results);
          examples_broken_only_in_state1 :=
            take 50 (broken_only_in_state1 symlink_results);
          examples_broken_only_in_state2 :=
            take 50 (broken_only_in_state2 symlink_results) |};
     report_store_path_analysis :=
       {| table_consistent_package_mappings :=
            consistent_package_mappings store_analysis;
          table_inconsistent_package_mappings :=
            inconsistent_package_mappings store_analysis |} |}.

(** The steps of [main] from the call of [find_equivalent_symlinks] to the
    call of [generate_report], with the default batch size. *)
Definition compare_states (set_order : list string → list string) (now : string)
    (state1_path state2_path : string) (state1 state2 : state) : py report :=
  symlink_results ← find_equivalent_symlinks set_order state1 state2 default_batch_size;
  let store_analysis := analyze_store_paths symlink_results in
  Ok (generate_report now state1_path state2_path symlink_results store_analysis).

(** * Properties *)

(** ** The resolver loop *)

Lemma loop_body_depth symlinks files st st' :
  loop_body symlinks files st = Next st' → depth st' = S (depth st).
Proof.
  unfold loop_body. intros H.
  repeat (case_match; simplify_eq/=); done.
Qed.

(** The loop function satisfies the equation of the [while] statement. *)
Lemma while_loop_eq symlinks files max_depth st :
  while_loop symlinks files max_depth st =
  if depth st <? max_depth then
    match loop_body symlinks files st with
    | Return r => Ok r
    | Raise e => Exc e
    | Next st' => while_loop symlinks files max_depth st'
    end
  else Ok (current_path st, true, None, MaxDepth).
Proof.
  funelim (while_loop symlinks files max_depth st);
    repeat match goal with
           | H : ?x = _ |- context [if ?x then _ else _] => rewrite H
           | H : ?x = _ |- context [match ?x with Return _ => _ | _ => _ end] => rewrite H
           end; reflexivity.
Qed.

Section Resolver.

Context (symlinks : pydict symlink_record) (files : pydict file_record).
Context (max_depth : nat).

Local Abbreviation loop := (while_loop symlinks files max_depth).
Local Abbreviation body := (loop_body symlinks files).
Local Abbreviation step := (iterates symlinks files max_depth).

(** Every trip round the loop adds one to [depth], so a run of [n] trips
    that starts at depth [d] needs [n + d ≤ max_depth]. *)
Lemma iterates_depth n st st' :
  nsteps step n st st' →
  depth st' = n + depth st ∧ (n = 0 ∨ n + depth st ≤ max_depth).
Proof.
  induction 1 as [st|n st st1 st' [Hlt Hb] _ [IH1 IH2]].
  - split; [done | by left].
  - apply loop_body_depth in Hb. split; [lia|]. right.
    destruct IH2 as [->|]; lia.
Qed.

(** The loop is left after finitely many trips, at most
    [max_depth - depth], and the value of [while_loop] is the one the
    loop is left with. *)
Lemma while_loop_run st :
  ∃ n st', nsteps step n st st'
           ∧ n ≤ max_depth - depth st
           ∧ loop_exit symlinks files max_depth st' = Some (loop st).
Proof.
  remember (max_depth - depth st) as k eqn:Hk.
  revert st Hk. induction k as [|k IH]; intros st Hk.
  - exists 0, st. split; [constructor|]. split; [lia|].
    rewrite while_loop_eq. unfold loop_exit.
    assert ((depth st <? max_depth) = false) as -> by (apply Nat.ltb_ge; lia).
    done.
  - assert ((depth st <? max_depth) = true) as Hlt by (apply Nat.ltb_lt; lia).
    destruct (body st) as [r|e|st1] eqn:Hb.
    + exists 0, st. split; [constructor|]. split; [lia|].
      rewrite while_loop_eq. unfold loop_exit. by rewrite Hlt, Hb.
    + exists 0, st. split; [constructor|]. split; [lia|].
      rewrite while_loop_eq. unfold loop_exit. by rewrite Hlt, Hb.
    + pose proof (loop_body_depth _ _ _ _ Hb) as Hd.
      destruct (IH st1) as (n & st' & Hsteps & Hn & Hexit); [lia|].
      exists (S n), st'. split.
      { econstructor; [|done]. split; [by apply Nat.ltb_lt|done]. }
      split; [lia|].
      rewrite Hexit. f_equal. symmetry.
      rewrite while_loop_eq. by rewrite Hlt, Hb.
Qed.

(** At a symlink with a usable target, not yet visited, the body goes
    round again from the target. *)
Lemma loop_body_hop st q :
  hop symlinks (current_path st) = Some q →
  current_path st ∉ visited st →
  body st = Next {| visited := {[current_path st]} ∪ visited st;
                    current_path := q;
                    depth := S (depth st) |}.
Proof.
  unfold hop, loop_body. intros Hhop Hnv.
  rewrite bool_decide_eq_false_2 by done.
  destruct (Dict.get (current_path st) symlinks) as [[t]|]; [|done].
  destruct t as [| | |t| |]; try done. simpl in *.
  destruct (PyStr.truthy t); by simplify_eq/=.
Qed.

(** The body returns [File] only at a path that is no symlink and whose
    file record carries a hash. *)
Lemma loop_body_file st p b h :
  body st = Return (p, b, h, File) →
  p = current_path st ∧ b = false ∧ hop symlinks p = None
  ∧ Dict.get p symlinks = None
  ∧ ∃ x, h = Some x ∧ Dict.get (fix_path p) files = Some {| hash := Some x |}.
Proof.
  unfold loop_body, hop. intros H.
  repeat (case_match; simplify_eq/=).
  repeat split; try done. eauto.
Qed.

Lemma follow_S_r n p :
  follow symlinks (S n) p = follow symlinks n p ≫= hop symlinks.
Proof.
  revert p. induction n as [|n IH]; intros p.
  - simpl. by destruct (hop symlinks p).
  - change (follow symlinks (S (S n)) p)
      with (hop symlinks p ≫= follow symlinks (S n)).
    destruct (hop symlinks p) as [q|] eqn:Hq; simpl; rewrite Hq; simpl; [|done].
    apply IH.
Qed.

Lemma follow_add a b p :
  follow symlinks (a + b) p = follow symlinks a p ≫= follow symlinks b.
Proof.
  revert p. induction a as [|a IH]; intros p; [done|].
  simpl. destruct (hop symlinks p); simpl; [apply IH|done].
Qed.

Lemma follow_is_Some_le n m p :
  m ≤ n → is_Some (follow symlinks n p) → is_Some (follow symlinks m p).
Proof.
  intros Hle [q Hq]. replace n with (m + (n - m)) in Hq by lia.
  rewrite follow_add in Hq. destruct (follow symlinks m p); [eauto|done].
Qed.

(** A chain that comes to an end never passes the same path twice. *)
Lemma follow_ends_distinct n p q i j x :
  follow symlinks n p = Some q → hop symlinks q = None →
  i < j ≤ n →
  follow symlinks i p = Some x → follow symlinks j p ≠ Some x.
Proof.
  intros Hn Hend [Hij Hjn] Hi Hj.
  assert (follow symlinks (n - i) x = Some q) as Hxi.
  { replace n with (i + (n - i)) in Hn by lia.
    rewrite follow_add, Hi in Hn. done. }
  assert (follow symlinks (n - j) x = Some q) as Hxj.
  { replace n with (j + (n - j)) in Hn by lia.
    rewrite follow_add, Hj in Hn. done. }
  replace (n - i) with ((n - j) + S (j - i - 1)) in Hxi by lia.
  rewrite follow_add, Hxj in Hxi. simpl in Hxi.
  by rewrite Hend in Hxi.
Qed.

(** The loop walks the chain: started at depth [d] with [n = max_depth - d]
    trips left, on a chain of [n] hops through paths that are new and
    distinct, it leaves through the depth bound at the end of the chain. *)
Lemma while_loop_walk n st q :
  depth st + n = max_depth →
  follow symlinks n (current_path st) = Some q →
  (∀ i x, i < n → follow symlinks i (current_path st) = Some x → x ∉ visited st) →
  (∀ i j x, i < j < n → follow symlinks i (current_path st) = Some x →
            follow symlinks j (current_path st) ≠ Some x) →
  loop st = Ok (q, true, None, MaxDepth).
Proof.
  revert st. induction n as [|n IH]; intros st Hd Hq Hnew Hdist.
  - rewrite while_loop_eq.
    assert ((depth st <? max_depth) = false) as -> by (apply Nat.ltb_ge; lia).
    by simplify_eq/=.
  - rewrite while_loop_eq.
    assert ((depth st <? max_depth) = true) as -> by (apply Nat.ltb_lt; lia).
    simpl in Hq. destruct (hop symlinks (current_path st)) as [p1|] eqn:Hhop; [|done].
    simpl in Hq.
    assert (current_path st ∉ visited st) as Hnv by (apply (Hnew 0); [lia|done]).
    rewrite (loop_body_hop st p1 Hhop Hnv).
    apply IH; simpl.
    + lia.
    + done.
    + intros i x Hi Hx. apply not_elem_of_union. split.
      * apply not_elem_of_singleton. intros ->.
        apply (Hdist 0 (S i) (current_path st)); [lia|done|].
        simpl. by rewrite Hhop.
      * apply (Hnew (S i)); [lia|]. simpl. by rewrite Hhop.
    + intros i j x Hij Hx. 
      specialize (Hdist (S i) (S j) x). simpl in Hdist. rewrite Hhop in Hdist.
      apply Hdist; [lia|done].
Qed.

End Resolver.

Section ResolverResults.

Context (symlinks : pydict symlink_record) (files : pydict file_record).
Context (max_depth : nat).

Local Abbreviation loop := (while_loop symlinks files max_depth).
Local Abbreviation body := (loop_body symlinks files).

Lemma loop_body_next st st' :
  body st = Next st' →
  hop symlinks (current_path st) = Some (current_path st').
Proof.
  unfold loop_body, hop. intros H.
  repeat (case_match; simplify_eq/=); done.
Qed.

(** A [File] result comes from a chain that ends, after fewer hops than
    the depth bound leaves room for, at a path that is no symlink and has
    a hashed file record. *)
Lemma while_loop_file st p b h :
  loop st = Ok (p, b, h, File) →
  ∃ k, depth st + k < max_depth
       ∧ follow symlinks k (current_path st) = Some p
       ∧ Dict.get p symlinks = None
       ∧ b = false
       ∧ ∃ x, h = Some x ∧ Dict.get (fix_path p) files = Some {| hash := Some x |}.
Proof.
  remember (max_depth - depth st) as n eqn:Hn.
  revert st Hn. induction n as [|n IH]; intros st Hn; rewrite while_loop_eq.
  - assert ((depth st <? max_depth) = false) as -> by (apply Nat.ltb_ge; lia).
    intros; simplify_eq/=.
  - assert ((depth st <? max_depth) = true) as -> by (apply Nat.ltb_lt; lia).
    destruct (body st) as [r|e|st1] eqn:Hb; intros Hr; simplify_eq/=.
    + apply loop_body_file in Hb as (-> & -> & _ & Hns & Hf).
      exists 0. split; [lia|]. done.
    + pose proof (loop_body_depth _ _ _ _ Hb) as Hd.
      pose proof (loop_body_next _ _ Hb) as Hhop.
      destruct (IH st1) as (k & Hk & Hfol & Hrest); [lia|done|].
      exists (S k). split; [lia|]. split; [|done].
      simpl. by rewrite Hhop.
Qed.

Lemma loop_body_no_raise st e :
  targets_well_typed symlinks → body st ≠ Raise e.
Proof.
  intros Hwt. unfold loop_body.
  destruct (bool_decide (current_path st ∈ visited st)); [done|].
  destruct (Dict.get (current_path st) symlinks) as [r|] eqn:Hget.
  - destruct (json_truthy (target r)) eqn:Ht; simpl; [|done].
    destruct (Hwt _ _ Hget Ht) as [s ->]. done.
  - repeat case_match; done.
Qed.

Lemma while_loop_no_raise st :
  targets_well_typed symlinks → ∃ r, loop st = Ok r.
Proof.
  intros Hwt.
  remember (max_depth - depth st) as n eqn:Hn.
  revert st Hn. induction n as [|n IH]; intros st Hn; rewrite while_loop_eq.
  - assert ((depth st <? max_depth) = false) as -> by (apply Nat.ltb_ge; lia).
    eauto.
  - assert ((depth st <? max_depth) = true) as -> by (apply Nat.ltb_lt; lia).
    destruct (body st) as [r|e|st1] eqn:Hb; [eauto| |].
    + by apply loop_body_no_raise in Hb.
    + apply IH. apply loop_body_depth in Hb. lia.
Qed.

End ResolverResults.

Section ResolverWalk.

Context (symlinks : pydict symlink_record) (files : pydict file_record).
Context (max_depth : nat).

Local Abbreviation loop := (while_loop symlinks files max_depth).

(** The first [n] trips along a chain of new, distinct paths: the loop
    goes on from the end of the chain, [n] deeper, having visited the
    paths it passed. *)
Lemma while_loop_walk_to n st q :
  depth st + n ≤ max_depth →
  follow symlinks n (current_path st) = Some q →
  (∀ i x, i < n → follow symlinks i (current_path st) = Some x → x ∉ visited st) →
  (∀ i j x, i < j < n → follow symlinks i (current_path st) = Some x →
            follow symlinks j (current_path st) ≠ Some x) →
  ∃ V, (∀ x, x ∈ V ↔ x ∈ visited st
                     ∨ ∃ i, i < n ∧ follow symlinks i (current_path st) = Some x)
       ∧ loop st = loop {| visited := V; current_path := q; depth := depth st + n |}.
Proof.
  revert st. induction n as [|n IH]; intros st Hd Hq Hnew Hdist.
  - exists (visited st). split.
    + intros x. split; [by left|]. intros [?|(i & Hi & _)]; [done|lia].
    + simpl in Hq. simplify_eq/=. destruct st as [V p d]. simpl.
      by rewrite Nat.add_0_r.
  - simpl in Hq.
    destruct (hop symlinks (current_path st)) as [p1|] eqn:Hhop; [|done].
    simpl in Hq.
    assert (current_path st ∉ visited st) as Hnv by (apply (Hnew 0); [lia|done]).
    set (st1 := {| visited := {[current_path st]} ∪ visited st;
                   current_path := p1; depth := S (depth st) |}).
    destruct (IH st1) as (V & HV & Hloop); simpl.
    + lia.
    + done.
    + intros i x Hi Hx. apply not_elem_of_union. split.
      * apply not_elem_of_singleton. intros ->.
        apply (Hdist 0 (S i) (current_path st)); [lia|done|].
        simpl. by rewrite Hhop.
      * apply (Hnew (S i)); [lia|]. simpl. by rewrite Hhop.
    + intros i j x Hij Hx.
      specialize (Hdist (S i) (S j) x). simpl in Hdist. rewrite Hhop in Hdist.
      apply Hdist; [lia|done].
    + exists V. split.
      * intros x. rewrite HV. simpl. rewrite elem_of_union, elem_of_singleton.
        split.
        -- intros [[->|?]|(i & Hi & Hx)].
           ++ right. exists 0. split; [lia|done].
           ++ by left.
           ++ right. exists (S i). split; [lia|]. simpl. by rewrite Hhop.
        -- intros [?|(i & Hi & Hx)]; [left; by right|].
           destruct i as [|i]; simpl in Hx.
           ++ simplify_eq/=. left; by left.
           ++ rewrite Hhop in Hx. right. exists i. split; [lia|done].
      * rewrite while_loop_eq.
        assert ((depth st <? max_depth) = true) as -> by (apply Nat.ltb_lt; lia).
        rewrite (loop_body_hop symlinks files st p1 Hhop Hnv).
        fold st1. rewrite Hloop. simpl. do 2 f_equal. lia.
Qed.

(** A walk that reaches, within the bound, a symlink whose target counts
    as false ends there with status [Broken]. *)
Lemma while_loop_broken n st p link :
  depth st + n < max_depth →
  follow symlinks n (current_path st) = Some p →
  Dict.get p symlinks = Some link →
  json_truthy (target link) = false →
  (∀ i x, i ≤ n → follow symlinks i (current_path st) = Some x → x ∉ visited st) →
  loop st = Ok (p, true, None, Broken).
Proof.
  intros Hd Hfol Hget Hfalse Hnew.
  assert (hop symlinks p = None) as Hend.
  { unfold hop. rewrite Hget. destruct link as [t]. simpl in *.
    destruct t; try done. simpl in Hfalse. by rewrite Hfalse. }
  destruct (while_loop_walk_to n st p) as (V & HV & ->); try done.
  - lia.
  - intros i x Hi. apply Hnew. lia.
  - intros i j x Hij Hi.
    apply (follow_ends_distinct symlinks n (current_path st) p i j x); try done. lia.
  - rewrite while_loop_eq. simpl.
    assert ((depth st + n <? max_depth) = true) as -> by (apply Nat.ltb_lt; lia).
    unfold loop_body. simpl.
    rewrite bool_decide_eq_false_2.
    + by rewrite Hget, Hfalse.
    + rewrite HV. intros [Hin|(i & Hi & Hx)].
      * by apply (Hnew n p).
      * by apply (follow_ends_distinct symlinks n (current_path st) p i n p).
Qed.

End ResolverWalk.

(** ** The claims on the chain resolver *)

(** C1. [resolve_symlink_chain] terminates on every input: its loop is left
    after at most [max_depth] trips, with the value the function goes on
    with. A chain of more than [max_depth] valid hops through distinct
    paths (as is every chain that ends, at a valid file or elsewhere)
    gives status [max_depth], at the path [max_depth] hops down the chain,
    and not [file]. *)
Theorem resolve_symlink_chain_depth_bound :
  ∀ (path : string) (symlinks : pydict symlink_record)
    (files : pydict file_record) (cache : gmap string resolution)
    (max_depth : nat),
    (∃ n st',
        nsteps (iterates symlinks files max_depth) n (initial_state path) st'
        ∧ n ≤ max_depth
        ∧ loop_exit symlinks files max_depth st'
          = Some (while_loop symlinks files max_depth (initial_state path)))
    ∧ (∀ N q,
          max_depth < N →
          follow symlinks N path = Some q →
          hop symlinks q = None →
          cache !! path = None →
          ∃ p, follow symlinks max_depth path = Some p
               ∧ resolve_symlink_chain path symlinks files cache max_depth
                 = Returned (p, true, None, MaxDepth)
                            (<[path := (p, true, None, MaxDepth)]> cache)).
Proof.
  intros path symlinks files cache max_depth. split.
  - destruct (while_loop_run symlinks files max_depth (initial_state path))
      as (n & st' & Hn & Hle & Hexit).
    exists n, st'. simpl in Hle. split; [done|]. split; [lia|done].
  - intros N q HN Hq Hend Hcache.
    destruct (follow_is_Some_le symlinks N max_depth path) as [p Hp]; [lia|eauto|].
    exists p. split; [done|].
    unfold resolve_symlink_chain. rewrite Hcache.
    fold (initial_state path).
    rewrite (while_loop_walk symlinks files max_depth max_depth (initial_state path) p);
      try done.
    simpl. intros i j x Hij Hi.
    apply (follow_ends_distinct symlinks N path q i j x); try done. lia.
Qed.

Lemma resolve_symlink_chain_depth_bound_witness :
  (2 < 3 ∧ follow chain_symlinks 3 "a" = Some "d/e"
   ∧ hop chain_symlinks "d/e" = None)
  ∧ ∃ p, follow chain_symlinks 2 "a" = Some p
         ∧ resolve_symlink_chain "a" chain_symlinks chain_files ∅ 2
           = Returned (p, true, None, MaxDepth)
                      (<["a" := (p, true, None, MaxDepth)]> ∅).
Proof.
  split; [split; [lia | split; reflexivity]|].
  apply (proj2 (resolve_symlink_chain_depth_bound "a" chain_symlinks chain_files ∅ 2)
           3 "d/e"); [lia | reflexivity | reflexivity | reflexivity].
Defined.

(** C10. A chain of exactly [max_depth] hops that ends at a file with a
    hash gives status [max_depth], not [file]; and a call that computes
    status [file] has walked at most [max_depth - 1] hops, to a path that is
    no symlink and has a hashed file record. *)
Theorem resolve_symlink_chain_file_within_bound :
  ∀ (path : string) (symlinks : pydict symlink_record)
    (files : pydict file_record) (cache : gmap string resolution)
    (max_depth : nat),
    cache !! path = None →
    (∀ q h,
        follow symlinks max_depth path = Some q →
        Dict.get q symlinks = None →
        Dict.get (fix_path q) files = Some {| hash := Some h |} →
        resolve_symlink_chain path symlinks files cache max_depth
        = Returned (q, true, None, MaxDepth)
                   (<[path := (q, true, None, MaxDepth)]> cache))
    ∧ (∀ p b h cache',
          resolve_symlink_chain path symlinks files cache max_depth
          = Returned (p, b, h, File) cache' →
          ∃ k, k ≤ max_depth - 1 ∧ k < max_depth
               ∧ follow symlinks k path = Some p
               ∧ Dict.get p symlinks = None
               ∧ ∃ x, h = Some x
                      ∧ Dict.get (fix_path p) files = Some {| hash := Some x |}).
Proof.
  intros path symlinks files cache max_depth Hcache. split.
  - intros q h Hq Hns Hfile.
    unfold resolve_symlink_chain. rewrite Hcache. fold (initial_state path).
    rewrite (while_loop_walk symlinks files max_depth max_depth (initial_state path) q);
      try done.
    simpl. intros i j x Hij Hi.
    apply (follow_ends_distinct symlinks max_depth path q i j x); try done; [|lia].
    unfold hop. by rewrite Hns.
  - intros p b h cache' Hres.
    unfold resolve_symlink_chain in Hres. rewrite Hcache in Hres.
    fold (initial_state path) in Hres.
    destruct (while_loop symlinks files max_depth (initial_state path))
      as [r|e] eqn:Hloop; [|done].
    injection Hres as -> _.
    apply while_loop_file in Hloop as (k & Hk & Hfol & Hns & _ & Hf).
    simpl in *. exists k. repeat split; try done; lia.
Qed.

Lemma resolve_symlink_chain_file_within_bound_witness :
  ((∅ : gmap string resolution) !! "a" = None
   ∧ follow chain_symlinks 3 "a" = Some "d/e"
   ∧ Dict.get "d/e" chain_symlinks = None
   ∧ Dict.get (fix_path "d/e") chain_files = Some {| hash := Some "H" |})
  ∧ resolve_symlink_chain "a" chain_symlinks chain_files ∅ 3
    = Returned ("d/e", true, None, MaxDepth)
               (<["a" := ("d/e", true, None, MaxDepth)]> ∅).
Proof.
  split; [repeat split|].
  apply (proj1 (resolve_symlink_chain_file_within_bound
                  "a" chain_symlinks chain_files ∅ 3 (lookup_empty "a")) "d/e" "H");
    reflexivity.
Defined.

(** With one more hop allowed the same chain resolves to the file. *)
Example chain_resolves_with_depth_4 :
  resolve_symlink_chain "a" chain_symlinks chain_files ∅ 4
  = Returned ("d/e", false, Some "H", File)
             (<["a" := ("d/e", false, Some "H", File)]> ∅).
Proof. reflexivity. Qed.

(** C5, as the code has it. Two symlinks [a] and [b], each leading to the
    other, resolve from [a] to status [cycle] whenever the depth bound is at
    least 3, as the default 20 is: the loop is left on its third trip, when
    it meets [a] again. The result is cached under [a]. *)
Theorem resolve_symlink_chain_two_cycle :
  ∀ (a b : string) (symlinks : pydict symlink_record)
    (files : pydict file_record) (cache : gmap string resolution)
    (max_depth : nat),
    a ≠ b →
    hop symlinks a = Some b →
    hop symlinks b = Some a →
    cache !! a = None →
    3 ≤ max_depth →
    resolve_symlink_chain a symlinks files cache max_depth
    = Returned (a, true, None, Cycle) (<[a := (a, true, None, Cycle)]> cache)
    ∧ ∃ st', nsteps (iterates symlinks files max_depth) 2 (initial_state a) st'
             ∧ 2 < max_depth
             ∧ loop_exit symlinks files max_depth st'
               = Some (Ok (a, true, None, Cycle)).
Proof.
  intros a b symlinks files cache max_depth Hab Ha Hb Hcache Hmax.
  set (st0 := initial_state a).
  set (st1 := {| visited := {[a]} ∪ ∅; current_path := b; depth := 1 |}).
  set (st2 := {| visited := {[b]} ∪ ({[a]} ∪ ∅); current_path := a; depth := 2 |}).
  assert (loop_body symlinks files st0 = Next st1) as H0.
  { apply (loop_body_hop symlinks files st0 b); [done | apply not_elem_of_empty]. }
  assert (loop_body symlinks files st1 = Next st2) as H1.
  { apply (loop_body_hop symlinks files st1 a); [done | simpl].
    intros [Hx%elem_of_singleton|Hx%elem_of_empty]%elem_of_union; [by apply Hab|done]. }
  assert (loop_body symlinks files st2 = Return (a, true, None, Cycle)) as H2.
  { unfold loop_body. simpl. rewrite bool_decide_eq_true_2; [done | set_solver]. }
  split.
  - unfold resolve_symlink_chain. rewrite Hcache. fold (initial_state a). fold st0.
    rewrite while_loop_eq, H0.
    assert ((depth st0 <? max_depth) = true) as -> by (apply Nat.ltb_lt; simpl; lia).
    rewrite while_loop_eq, H1.
    assert ((depth st1 <? max_depth) = true) as -> by (apply Nat.ltb_lt; simpl; lia).
    rewrite while_loop_eq, H2.
    assert ((depth st2 <? max_depth) = true) as -> by (apply Nat.ltb_lt; simpl; lia).
    done.
  - exists st2. split; [|split; [lia|]].
    + apply (nsteps_l _ 1 st0 st1); [split; [simpl; lia | done]|].
      apply (nsteps_l _ 0 st1 st2); [split; [simpl; lia | done]|].
      constructor.
    + unfold loop_exit. rewrite H2.
      assert ((depth st2 <? max_depth) = true) as -> by (apply Nat.ltb_lt; simpl; lia).
      done.
Qed.

Lemma resolve_symlink_chain_two_cycle_witness :
  ("a" ≠ "b" ∧ hop cycle_symlinks "a" = Some "b" ∧ hop cycle_symlinks "b" = Some "a"
   ∧ 3 ≤ default_max_depth)
  ∧ resolve_symlink_chain "a" cycle_symlinks [] ∅ default_max_depth
    = Returned ("a", true, None, Cycle) (<["a" := ("a", true, None, Cycle)]> ∅).
Proof.
  split; [repeat split; try done; unfold default_max_depth; lia|].
  apply (resolve_symlink_chain_two_cycle "a" "b" cycle_symlinks [] ∅ default_max_depth);
    [done | reflexivity | reflexivity | reflexivity | unfold default_max_depth; lia].
Defined.

(** With a depth bound of 2 the same two symlinks hit the bound before the
    loop can meet [a] again: the status is [max_depth], not [cycle]. *)
Lemma two_cycle_under_depth_2 :
  (hop cycle_symlinks "a" = Some "b" ∧ hop cycle_symlinks "b" = Some "a"
   ∧ resolve_symlink_chain "a" cycle_symlinks [] ∅ 2
     = Returned ("a", true, None, MaxDepth) (<["a" := ("a", true, None, MaxDepth)]> ∅))
  ∧ ¬ (∀ (a b : string) (symlinks : pydict symlink_record)
         (files : pydict file_record) (max_depth : nat),
          a ≠ b → hop symlinks a = Some b → hop symlinks b = Some a →
          ∃ r cache', resolve_symlink_chain a symlinks files ∅ max_depth
                      = Returned r cache' ∧ status_of r = Cycle).
Proof.
  split; [repeat split|].
  intros H.
  destruct (H "a" "b" cycle_symlinks [] 2) as (r & c & Hr & Hs); try done.
  by injection Hr as <- _.
Qed.

(** C7. Every result the function returns, whatever its status, is in the
    cache under the start path when the call returns; a call never changes
    or drops an entry that was there; and any later call for the same start
    path, on this cache or on one that later calls have added to, returns
    the first result and leaves the cache as it is. *)
Theorem resolve_symlink_chain_cache_stable :
  ∀ (path : string) (symlinks : pydict symlink_record)
    (files : pydict file_record) (cache cache' : gmap string resolution)
    (max_depth : nat) (r : resolution),
    resolve_symlink_chain path symlinks files cache max_depth = Returned r cache' →
    cache' !! path = Some r
    ∧ (∀ k v, cache !! k = Some v → cache' !! k = Some v)
    ∧ (∀ symlinks2 files2 max_depth2 (later : gmap string resolution),
          (∀ k v, cache' !! k = Some v → later !! k = Some v) →
          resolve_symlink_chain path symlinks2 files2 later max_depth2
          = Returned r later).
Proof.
  intros path symlinks files cache cache' max_depth r Hres.
  assert (cache' !! path = Some r ∧ ∀ k v, cache !! k = Some v → cache' !! k = Some v)
    as [Hpath Hkeep].
  { unfold resolve_symlink_chain in Hres.
    destruct (cache !! path) as [r0|] eqn:Hc.
    - by simplify_eq/=.
    - destruct (while_loop _ _ _ _) as [r1|e]; simplify_eq/=.
      split; [apply lookup_insert_eq|].
      intros k v Hk. rewrite lookup_insert_ne; [done|].
      intros ->. by rewrite Hc in Hk. }
  repeat split; try done.
  intros symlinks2 files2 max_depth2 later Hlater.
  unfold resolve_symlink_chain. by rewrite (Hlater _ _ Hpath).
Qed.

Lemma resolve_symlink_chain_cache_stable_witness :
  resolve_symlink_chain "c" chain_symlinks chain_files ∅ default_max_depth
  = Returned ("d/e", false, Some "H", File) (<["c" := ("d/e", false, Some "H", File)]> ∅)
  ∧ resolve_symlink_chain "c" [] [] (<["c" := ("d/e", false, Some "H", File)]> ∅) 0
    = Returned ("d/e", false, Some "H", File) (<["c" := ("d/e", false, Some "H", File)]> ∅).
Proof.
  assert (resolve_symlink_chain "c" chain_symlinks chain_files ∅ default_max_depth
          = Returned ("d/e", false, Some "H", File)
                     (<["c" := ("d/e", false, Some "H", File)]> ∅)) as H
    by reflexivity.
  split; [exact H|].
  apply (resolve_symlink_chain_cache_stable _ _ _ _ _ _ _ H); done.
Defined.

(** All five statuses are cached alike. *)
Example every_status_is_cached :
  let cached p symlinks files max_depth st :=
    ∃ r cache', resolve_symlink_chain p symlinks files ∅ max_depth = Returned r cache'
                ∧ status_of r = st ∧ cache' !! p = Some r in
  cached "a" chain_symlinks chain_files 20 File
  ∧ cached "a" [("a", {| target := JNull |})] [] 20 Broken
  ∧ cached "a" [("a", link "gone")] [] 20 Missing
  ∧ cached "a" cycle_symlinks [] 20 Cycle
  ∧ cached "a" chain_symlinks chain_files 3 MaxDepth.
Proof.
  repeat split; eexists _, _; (split; [reflexivity|]); split; reflexivity.
Qed.

(** C2, counterexample. A target that counts as true and is not a string
    has no [startswith]: the call raises and returns nothing. *)
Lemma resolve_symlink_chain_raises_on_number_target :
  ¬ (∀ (path : string) (symlinks : pydict symlink_record)
       (files : pydict file_record) (cache : gmap string resolution)
       (max_depth : nat),
        ∃ r cache', resolve_symlink_chain path symlinks files cache max_depth
                    = Returned r cache')
  ∧ resolve_symlink_chain "a" malformed_symlinks [] ∅ default_max_depth
    = Raised AttributeError.
Proof.
  split; [|reflexivity].
  intros H. destruct (H "a" malformed_symlinks [] ∅ default_max_depth) as (r & c & Hr).
  discriminate Hr.
Qed.

(** C2, as the code has it. When every target that counts as true is a
    string, as in the records the capture script writes (a string or null),
    the call returns a result and raises nothing; and a target that is
    absent, null, empty or false in any other way ends the walk with status
    [broken] at that symlink. *)
Theorem resolve_symlink_chain_total_on_typed_targets :
  ∀ (path : string) (symlinks : pydict symlink_record)
    (files : pydict file_record) (cache : gmap string resolution)
    (max_depth : nat),
    targets_well_typed symlinks →
    (∃ r cache', resolve_symlink_chain path symlinks files cache max_depth
                 = Returned r cache')
    ∧ (∀ n p link,
          n < max_depth →
          cache !! path = None →
          follow symlinks n path = Some p →
          Dict.get p symlinks = Some link →
          json_truthy (target link) = false →
          resolve_symlink_chain path symlinks files cache max_depth
          = Returned (p, true, None, Broken) (<[path := (p, true, None, Broken)]> cache)).
Proof.
  intros path symlinks files cache max_depth Hwt. split.
  - unfold resolve_symlink_chain. destruct (cache !! path); [eauto|].
    destruct (while_loop_no_raise symlinks files max_depth (initial_state path) Hwt)
      as [r Hr].
    fold (initial_state path). rewrite Hr. eauto.
  - intros n p link Hn Hcache Hfol Hget Hfalse.
    unfold resolve_symlink_chain. rewrite Hcache. fold (initial_state path).
    rewrite (while_loop_broken symlinks files max_depth n (initial_state path) p link);
      done.
Qed.

Lemma resolve_symlink_chain_total_on_typed_targets_witness :
  targets_well_typed broken_symlinks
  ∧ (∃ r cache', resolve_symlink_chain "a" broken_symlinks [] ∅ default_max_depth
                 = Returned r cache')
  ∧ resolve_symlink_chain "a" broken_symlinks [] ∅ default_max_depth
    = Returned ("b", true, None, Broken) (<["a" := ("b", true, None, Broken)]> ∅).
Proof.
  assert (targets_well_typed broken_symlinks) as Hwt.
  { intros p r Hget Ht. unfold broken_symlinks in Hget. simpl in Hget.
    repeat case_decide; simplify_eq/=. eauto. }
  split; [exact Hwt|].
  destruct (resolve_symlink_chain_total_on_typed_targets
              "a" broken_symlinks [] ∅ default_max_depth Hwt) as [Hret Hbroken].
  split; [exact Hret|].
  apply (Hbroken 1 "b" {| target := JNull |});
    [unfold default_max_depth; lia | reflexivity..].
Defined.

(** ** Strings *)

Section Strings.

Implicit Types s t u : string.

Lemma string_app_nil_l s : EmptyString +:+ s = s.
Proof. reflexivity. Qed.

Lemma string_app_cons c s t : String c s +:+ t = String c (s +:+ t).
Proof. reflexivity. Qed.

Lemma string_app_nil_r s : s +:+ EmptyString = s.
Proof. induction s as [|c s IH]; [done|]. by rewrite string_app_cons, IH. Qed.

Lemma string_app_assoc s t u : (s +:+ t) +:+ u = s +:+ t +:+ u.
Proof. induction s as [|c s IH]; [done|]. by rewrite !string_app_cons, IH. Qed.

Lemma string_length_app s t : String.length (s +:+ t) = String.length s + String.length t.
Proof. induction s as [|c s IH]; [done|]. rewrite string_app_cons. simpl. by rewrite IH. Qed.

Lemma string_forall_app p s t :
  string_forall p (s +:+ t) = string_forall p s && string_forall p t.
Proof.
  induction s as [|c s IH]; [done|]. rewrite string_app_cons. simpl.
  by rewrite IH, andb_assoc.
Qed.

Lemma lstrip_no_sep s : PyStr.startswith_sep s = false → PyStr.lstrip s = s.
Proof. destruct s as [|c s]; [done|]. simpl. by intros ->. Qed.

Lemma lstrip_startswith s : PyStr.startswith_sep (PyStr.lstrip s) = false.
Proof.
  induction s as [|c s IH]; [done|]. simpl.
  destruct (PyStr.is_sep c) eqn:Hc; [done|]. simpl. by rewrite Hc.
Qed.

Lemma lstrip_idemp s : PyStr.lstrip (PyStr.lstrip s) = PyStr.lstrip s.
Proof. apply lstrip_no_sep, lstrip_startswith. Qed.

Lemma lstrip_slashes n s : PyStr.lstrip (slashes n +:+ s) = PyStr.lstrip s.
Proof.
  induction n as [|n IH]; [done|].
  change (slashes (S n)) with (String PyStr.sep (slashes n)).
  rewrite string_app_cons. exact IH.
Qed.

(** [lstrip] leaves a suffix. *)
Lemma lstrip_suffix s : ∃ pre, s = pre +:+ PyStr.lstrip s.
Proof.
  induction s as [|c s [pre IH]]; [by exists EmptyString|]. simpl.
  destruct (PyStr.is_sep c).
  - exists (String c pre). by rewrite string_app_cons, <- IH.
  - by exists EmptyString.
Qed.

Lemma span_app p s a b : PyStr.span p s = (a, b) → s = a +:+ b.
Proof.
  revert a b. induction s as [|c s IH]; intros a b; simpl.
  - by intros [= <- <-].
  - destruct (p c).
    + destruct (PyStr.span p s) as [a' b']. intros [= <- <-].
      by rewrite string_app_cons, <- (IH a' b').
    + by intros [= <- <-].
Qed.

Lemma span_all p s :
  string_forall p s = true → PyStr.span p s = (s, EmptyString).
Proof.
  induction s as [|c s IH]; [done|]. simpl.
  intros [-> Hs]%andb_true_iff. by rewrite IH.
Qed.

End Strings.

(** ** The patterns *)

Section Patterns.

Import Re.

Implicit Types (pat : list cls) (s m r : string).

Lemma match_seq_split pat s m r :
  match_seq pat s = Some (m, r) → s = m +:+ r ∧ String.length m = length pat.
Proof.
  revert s m r. induction pat as [|p pat IH]; intros s m r; simpl.
  - by intros [= <- <-].
  - destruct s as [|c s]; [done|]. destruct (p c); [|done].
    destruct (match_seq pat s) as [[m' r']|] eqn:Hm; [|done].
    intros [= <- <-]. destruct (IH _ _ _ Hm) as [-> Hlen].
    by rewrite string_app_cons; simpl; rewrite Hlen.
Qed.

Lemma match_seq_app pat1 pat2 s :
  match_seq (pat1 ++ pat2) s =
  match match_seq pat1 s with
  | Some (m1, r1) =>
      match match_seq pat2 r1 with
      | Some (m2, r2) => Some (m1 +:+ m2, r2)
      | None => None
      end
  | None => None
  end.
Proof.
  revert s. induction pat1 as [|p pat1 IH]; intros s; simpl.
  - by destruct (match_seq pat2 s) as [[m2 r2]|].
  - destruct s as [|c s]; [done|]. destruct (p c); [|done].
    rewrite IH. destruct (match_seq pat1 s) as [[m1 r1]|]; [|done].
    by destruct (match_seq pat2 r1) as [[m2 r2]|].
Qed.

Lemma lit_cons c l : lit (String c l) = Ascii.eqb c :: lit l.
Proof. reflexivity. Qed.

Lemma match_seq_lit l s : match_seq (lit l) (l +:+ s) = Some (l, s).
Proof.
  induction l as [|c l IH]; [done|].
  rewrite string_app_cons, lit_cons. cbn [match_seq]. by rewrite Ascii.eqb_refl, IH.
Qed.

Lemma match_seq_lit_inv l s m r : match_seq (lit l) s = Some (m, r) → m = l.
Proof.
  revert s m r. induction l as [|c l IH]; intros s m r.
  - by intros [= <- _].
  - rewrite lit_cons. cbn [match_seq]. destruct s as [|c' s]; [done|].
    destruct (Ascii.eqb c c') eqn:Hc; [|done]. apply Ascii.eqb_eq in Hc as ->.
    destruct (match_seq (lit l) s) as [[m' r']|] eqn:Hm; [|done].
    intros [= <- _]. by rewrite (IH _ _ _ Hm).
Qed.

Lemma match_seq_replicate n p h s :
  String.length h = n → string_forall p h = true →
  match_seq (replicate n p) (h +:+ s) = Some (h, s).
Proof.
  revert n. induction h as [|c h IH]; intros n <-; [done|].
  cbn [string_forall String.length replicate].
  intros [Hc Hh]%andb_true_iff. rewrite string_app_cons. cbn [match_seq].
  by rewrite Hc, IH.
Qed.

Lemma match_seq_replicate_inv n p s m r :
  match_seq (replicate n p) s = Some (m, r) → string_forall p m = true.
Proof.
  revert s m r. induction n as [|n IH]; intros s m r; simpl.
  - by intros [= <- _].
  - destruct s as [|c s]; [done|]. destruct (p c) eqn:Hc; [|done].
    destruct (match_seq (replicate n p) s) as [[m' r']|] eqn:Hm; [|done].
    intros [= <- _]. simpl. by rewrite Hc, (IH _ _ _ Hm).
Qed.

Lemma accepts_match_seq pat s :
  accepts pat s = match match_seq pat s with Some _ => true | None => false end.
Proof.
  revert s. induction pat as [|p pat IH]; intros s; simpl; [done|].
  destruct s as [|c s]; [done|]. destruct (p c); [|done]. simpl.
  rewrite IH. by destruct (match_seq pat s) as [[??]|].
Qed.

(** A sequence of classes only looks at as many characters as it has
    classes. *)
Lemma accepts_app_long pat u s :
  length pat ≤ String.length u → accepts pat (u +:+ s) = accepts pat u.
Proof.
  revert u. induction pat as [|p pat IH]; intros u Hlen; simpl; [by destruct (u +:+ s), u|].
  destruct u as [|c u]; simpl in Hlen; [lia|].
  rewrite string_app_cons. f_equal. apply IH. lia.
Qed.

(** A character inside the matched part is accepted by the class at its
    position. *)
Lemma accepts_at pat u c s p :
  accepts pat (u +:+ String c s) = true →
  pat !! String.length u = Some p → p c = true.
Proof.
  revert pat. induction u as [|c' u IH]; intros pat; simpl.
  - destruct pat as [|p' pat]; [done|]. rewrite string_app_nil_l. simpl.
    intros [Hc _]%andb_true_iff [= <-]. done.
  - destruct pat as [|p' pat]; [done|]. rewrite string_app_cons. simpl.
    intros [_ Hacc]%andb_true_iff Hp. by apply (IH pat).
Qed.

End Patterns.

Section StorePrefix.

Import Re.

Implicit Types (s root : string).

Lemma match_alts_sound alts tl s root m s2 :
  match_alts alts tl s = Some (root, m, s2) →
  root ∈ alts ∧ s = root +:+ m +:+ s2 ∧ match_seq tl (m +:+ s2) = Some (m, s2).
Proof.
  induction alts as [|r alts IH]; simpl; [done|].
  destruct (match_seq (lit r) s) as [[root' s1]|] eqn:Hr.
  - destruct (match_seq tl s1) as [[m' s2']|] eqn:Htl.
    + intros [= <- <- <-].
      pose proof (match_seq_lit_inv _ _ _ _ Hr) as ->.
      destruct (match_seq_split _ _ _ _ Hr) as [-> _].
      destruct (match_seq_split _ _ _ _ Htl) as [-> _].
      split; [by left|]. done.
    + intros H. destruct (IH H) as (? & ? & ?). split; [by right|done].
  - intros H. destruct (IH H) as (? & ? & ?). split; [by right|done].
Qed.

Lemma store_roots_cases root :
  root ∈ store_roots →
  root = "nix/.ro-store/" ∨ root = "nix/.rw-store/" ∨ root = "nix/store/".
Proof.
  unfold store_roots. rewrite !elem_of_cons, elem_of_nil. tauto.
Qed.

(** The spellings exclude one another: on a string that starts with one of
    them only that alternative gets to the rest of the pattern. *)
Lemma match_alts_root root tl s1 :
  root ∈ store_roots →
  match_alts store_roots tl (root +:+ s1) =
  match match_seq tl s1 with
  | Some (m, s2) => Some (root, m, s2)
  | None => None
  end.
Proof.
  intros [-> | [-> | ->]]%store_roots_cases; unfold store_roots; cbn [match_alts].
  - rewrite match_seq_lit.
    change (match_seq (lit "nix/.rw-store/") ("nix/.ro-store/" +:+ s1)) with (@None (string * string)).
    change (match_seq (lit "nix/store/") ("nix/.ro-store/" +:+ s1)) with (@None (string * string)).
    by destruct (match_seq tl s1) as [[??]|].
  - rewrite match_seq_lit.
    change (match_seq (lit "nix/.ro-store/") ("nix/.rw-store/" +:+ s1)) with (@None (string * string)).
    change (match_seq (lit "nix/store/") ("nix/.rw-store/" +:+ s1)) with (@None (string * string)).
    by destruct (match_seq tl s1) as [[??]|].
  - rewrite match_seq_lit.
    change (match_seq (lit "nix/.ro-store/") ("nix/store/" +:+ s1)) with (@None (string * string)).
    change (match_seq (lit "nix/.rw-store/") ("nix/store/" +:+ s1)) with (@None (string * string)).
    by destruct (match_seq tl s1) as [[??]|].
Qed.

Lemma match_hash_dash h s :
  String.length h = 32 → string_forall lower_alnum h = true →
  match_seq hash_dash (h +:+ "-" +:+ s) = Some (h +:+ "-", s).
Proof.
  intros Hlen Hh. unfold hash_dash.
  rewrite match_seq_app, (match_seq_replicate 32 lower_alnum h) by done.
  by rewrite (match_seq_lit "-" s).
Qed.

Lemma match_hash_dash_inv s hd s2 :
  match_seq hash_dash s = Some (hd, s2) →
  ∃ h, hd = h +:+ "-" ∧ String.length h = 32 ∧ string_forall lower_alnum h = true.
Proof.
  unfold hash_dash. rewrite match_seq_app.
  destruct (match_seq (replicate 32 lower_alnum) s) as [[h r1]|] eqn:Hh; [|done].
  destruct (match_seq (lit "-") r1) as [[d r2]|] eqn:Hd; [|done].
  intros [= <- <-]. exists h.
  rewrite (match_seq_lit_inv _ _ _ _ Hd).
  destruct (match_seq_split _ _ _ _ Hh) as [_ Hlen].
  rewrite length_replicate in Hlen.
  split; [done|]. split; [done|]. by apply (match_seq_replicate_inv _ _ _ _ _ Hh).
Qed.

Lemma match_store_prefix_sound s root hd s2 :
  match_store_prefix s = Some (root, hd, s2) →
  root ∈ store_roots
  ∧ ∃ h, hd = h +:+ "-" ∧ String.length h = 32
         ∧ string_forall lower_alnum h = true
         ∧ s = root +:+ h +:+ "-" +:+ s2.
Proof.
  unfold match_store_prefix. intros Hm.
  destruct (match_alts_sound _ _ _ _ _ _ Hm) as (Hroot & Hs & Hhd). subst s.
  split; [done|].
  destruct (match_hash_dash_inv _ _ _ Hhd) as (h & -> & Hlen & Hh).
  exists h. by rewrite string_app_assoc.
Qed.

Lemma match_store_prefix_complete root h s2 :
  root ∈ store_roots → String.length h = 32 →
  string_forall lower_alnum h = true →
  match_store_prefix (root +:+ h +:+ "-" +:+ s2) = Some (root, h +:+ "-", s2).
Proof.
  intros Hroot Hlen Hh. unfold match_store_prefix.
  by rewrite match_alts_root, match_hash_dash.
Qed.

Lemma match_normalize_sound s g1 g2 rest :
  match_normalize s = Some (g1, g2, rest) →
  g1 ∈ store_roots
  ∧ g2 ≠ EmptyString
  ∧ ∃ h, String.length h = 32 ∧ string_forall lower_alnum h = true
         ∧ s = g1 +:+ h +:+ "-" +:+ g2 +:+ rest.
Proof.
  unfold match_normalize.
  destruct (match_store_prefix s) as [[[root hd] s2]|] eqn:Hp; [|done].
  destruct (PyStr.span PyStr.not_newline s2) as [a b] eqn:Hspan.
  destruct a as [|c a]; [done|]. intros [= <- <- <-].
  destruct (match_store_prefix_sound _ _ _ _ Hp) as (Hroot & h & -> & Hlen & Hh & ->).
  split; [done|]. split; [done|]. exists h.
  by rewrite (span_app _ _ _ _ Hspan).
Qed.

Lemma match_normalize_segment s x :
  match_normalize s = Some x → store_segment_at s.
Proof.
  destruct x as [[g1 g2] rest].
  intros Hm.
  destruct (match_normalize_sound _ _ _ _ Hm) as (Hroot & _ & h & Hlen & Hh & Hs).
  by exists g1, h, (g2 +:+ rest).
Qed.

Lemma sub_normalize_fuel_nil n : sub_normalize_fuel n EmptyString = EmptyString.
Proof. by destruct n. Qed.

(** Where the pattern matches nowhere, [re.sub] changes nothing. *)
Lemma sub_normalize_fuel_no_match n s :
  (∀ pre t, s = pre +:+ t → match_normalize t = None) →
  sub_normalize_fuel n s = s.
Proof.
  revert s. induction n as [|n IH]; intros s Hno; [done|]. simpl.
  rewrite (Hno EmptyString s) by done.
  destruct s as [|c s]; [done|]. f_equal. apply IH.
  intros pre t ->. apply (Hno (String c pre)). by rewrite string_app_cons.
Qed.

Lemma startswith_root root s :
  root ∈ store_roots → PyStr.startswith_sep (root +:+ s) = false.
Proof. by intros [-> | [-> | ->]]%store_roots_cases. Qed.

End StorePrefix.

(** ** The claims on the path normaliser *)

(** C6, counterexample. A dot of the pattern does not match a newline, so
    group 2 ends at the first line break and the scan goes on after it: a
    store path on a later line of the rest is rewritten too, and the rest
    is not kept verbatim. *)
Lemma normalize_path_rewrites_after_newline :
  two_line_store_path
  = "nix/store/" +:+ hash_a +:+ "-" +:+ "a" +:+ "/"
    +:+ ("b" +:+ String PyStr.newline ("nix/store/" +:+ hash_b +:+ "-c"))
  ∧ normalize_path two_line_store_path
    = "nix/store/HASH-a/b" +:+ String PyStr.newline "nix/store/HASH-c"
  ∧ normalize_path two_line_store_path
    ≠ "nix/store/" +:+ "HASH-" +:+ "a" +:+ "/"
      +:+ ("b" +:+ String PyStr.newline ("nix/store/" +:+ hash_b +:+ "-c"))
  ∧ ¬ (∀ root h name rest : string,
         root ∈ Re.store_roots →
         String.length h = 32 →
         string_forall Re.lower_alnum h = true →
         normalize_path (root +:+ h +:+ "-" +:+ name +:+ "/" +:+ rest)
         = root +:+ "HASH-" +:+ name +:+ "/" +:+ rest).
Proof.
  split; [reflexivity|]. split; [reflexivity|]. split; [by vm_compute|].
  intros H.
  specialize (H "nix/store/" hash_a "a"
                ("b" +:+ String PyStr.newline ("nix/store/" +:+ hash_b +:+ "-c"))).
  assert ("nix/store/" ∈ Re.store_roots) as Hroot
    by (unfold Re.store_roots; rewrite !elem_of_cons; tauto).
  specialize (H Hroot eq_refl eq_refl). by vm_compute in H.
Qed.

(** C6, as the code has it. A path made of a store root, a hash of
    thirty-two characters of [[a-z0-9]], a dash, a name, a separator and a
    rest, none of the last three holding a newline, normalises to the root,
    [HASH-], and the same name and rest; leading separators are dropped. A
    path that holds no store root followed by such a hash and a dash comes
    back as it is, without its leading separators. *)
Theorem normalize_path_store_path :
  (∀ (k : nat) (root h name rest : string),
      root ∈ Re.store_roots →
      String.length h = 32 →
      string_forall Re.lower_alnum h = true →
      string_forall PyStr.not_newline (name +:+ "/" +:+ rest) = true →
      normalize_path (slashes k +:+ root +:+ h +:+ "-" +:+ name +:+ "/" +:+ rest)
      = root +:+ "HASH-" +:+ name +:+ "/" +:+ rest)
  ∧ (∀ p : string, ¬ contains_store_segment p → normalize_path p = PyStr.lstrip p).
Proof.
  split.
  - intros k root h name rest Hroot Hlen Hh Hnl. unfold normalize_path.
    rewrite lstrip_slashes, lstrip_no_sep by by apply startswith_root.
    unfold Re.sub_normalize.
    assert (∃ n, String.length (root +:+ h +:+ "-" +:+ name +:+ "/" +:+ rest) = S n)
      as [n ->].
    { rewrite string_length_app.
      apply store_roots_cases in Hroot as [-> | [-> | ->]]; simpl; eauto. }
    cbn [Re.sub_normalize_fuel]. unfold Re.match_normalize.
    rewrite match_store_prefix_complete by done.
    rewrite span_all by done.
    assert (PyStr.truthy (name +:+ "/" +:+ rest) = true) as ->.
    { destruct name; by rewrite ?string_app_cons. }
    by rewrite sub_normalize_fuel_nil, string_app_nil_r.
  - intros p Hno. unfold normalize_path, Re.sub_normalize.
    apply sub_normalize_fuel_no_match. intros pre t Ht.
    destruct (Re.match_normalize t) as [x|] eqn:Hm; [|done].
    exfalso. apply Hno. destruct (lstrip_suffix p) as [pre0 Hp].
    exists (pre0 +:+ pre), t. split; [|by apply (match_normalize_segment t x)].
    by rewrite string_app_assoc, <- Ht.
Qed.

Lemma contains_store_segment_search p :
  contains_store_segment p → has_store_prefix p = true.
Proof.
  intros (pre & s & -> & root & h & rest & Hroot & Hlen & Hh & ->).
  induction pre as [|c pre IH].
  - rewrite string_app_nil_l.
    destruct root; [by apply store_roots_cases in Hroot as [?|[?|?]]|].
    rewrite string_app_cons. cbn [has_store_prefix]. rewrite <- string_app_cons.
    by rewrite match_store_prefix_complete.
  - rewrite string_app_cons. cbn [has_store_prefix]. rewrite IH. by case_match.
Qed.

Lemma normalize_path_store_path_witness :
  ("nix/store/" ∈ Re.store_roots
   ∧ String.length hash_a = 32
   ∧ string_forall Re.lower_alnum hash_a = true
   ∧ string_forall PyStr.not_newline ("pkg-1.0" +:+ "/" +:+ "bin/tool") = true
   ∧ ¬ contains_store_segment "//usr/bin/env")
  ∧ normalize_path (slashes 1 +:+ "nix/store/" +:+ hash_a +:+ "-" +:+ "pkg-1.0" +:+ "/" +:+ "bin/tool")
    = "nix/store/" +:+ "HASH-" +:+ "pkg-1.0" +:+ "/" +:+ "bin/tool"
  ∧ normalize_path "//usr/bin/env" = PyStr.lstrip "//usr/bin/env".
Proof.
  assert ("nix/store/" ∈ Re.store_roots) as Hroot by (unfold Re.store_roots; set_solver).
  assert (¬ contains_store_segment "//usr/bin/env") as Hno.
  { intros H%contains_store_segment_search. vm_compute in H. discriminate. }
  split; [repeat split; done|].
  destruct normalize_path_store_path as [Hstore Hother]. split.
  - by apply (Hstore 1 "nix/store/" hash_a "pkg-1.0" "bin/tool").
  - by apply Hother.
Defined.

(** ** Match positions and the second pass of the normaliser *)

Section SecondPass.

Import Re.

Lemma normalize_pattern_rejects_H root :
  root ∈ store_roots →
  Forall (λ p : cls, p "H"%char = false)
         (take (length (normalize_pattern root) - 1) (normalize_pattern root)).
Proof.
  intros Hroot.
  assert (normalize_pattern root
          = (lit root ++ replicate 32 lower_alnum ++ lit "-") ++ [PyStr.not_newline])
    as -> by (unfold normalize_pattern, hash_dash; by rewrite <- !(assoc_L (++))).
  rewrite length_app. change (length [PyStr.not_newline]) with 1.
  rewrite Nat.add_sub, take_app_length.
  apply Forall_app. split; [|apply Forall_app; split].
  - apply store_roots_cases in Hroot as [-> | [-> | ->]];
      unfold lit; simpl; repeat constructor.
  - by apply Forall_replicate.
  - by repeat constructor.
Qed.

Lemma normalize_pattern_dash root p :
  root ∈ store_roots →
  normalize_pattern root !! (length (normalize_pattern root) - 2) = Some p →
  p "/"%char = false.
Proof.
  intros [-> | [-> | ->]]%store_roots_cases; vm_compute; by intros [= <-].
Qed.

Lemma normalize_pattern_length root :
  root ∈ store_roots → 2 ≤ length (normalize_pattern root).
Proof.
  intros [-> | [-> | ->]]%store_roots_cases; vm_compute; lia.
Qed.

(** Replacing what follows a separator by text that starts with [H] cannot
    make the pattern match at an earlier position: a match there would have
    to end before the [H]. *)
Lemma accepts_barrier root w x y :
  root ∈ store_roots →
  accepts (normalize_pattern root) (w +:+ String "/" (String "H" y)) = true →
  accepts (normalize_pattern root) (w +:+ String "/" x) = true.
Proof.
  intros Hroot Hacc.
  set (pat := normalize_pattern root) in *.
  pose proof (normalize_pattern_length root Hroot) as Hlen2. fold pat in Hlen2.
  destruct (decide (length pat ≤ String.length (w +:+ "/"))) as [Hlong|Hshort].
  - replace (w +:+ String "/" x) with ((w +:+ "/") +:+ x) by by rewrite string_app_assoc.
    replace (w +:+ String "/" (String "H" y)) with ((w +:+ "/") +:+ String "H" y) in Hacc
      by by rewrite string_app_assoc.
    rewrite accepts_app_long in Hacc by done. by rewrite accepts_app_long.
  - exfalso. rewrite string_length_app in Hshort. simpl in Hshort.
    destruct (lookup_lt_is_Some_2 pat (String.length (w +:+ "/"))) as [p Hp].
    { rewrite string_length_app. simpl. lia. }
    assert (p "H"%char = true) as HpH.
    { apply (accepts_at pat (w +:+ "/") "H" y p); [|done].
      by rewrite string_app_assoc. }
    assert (String.length (w +:+ "/") = length pat - 1) as Hpos.
    { destruct (decide (String.length (w +:+ "/") < length pat - 1)) as [Hlt|Hge].
      - pose proof (normalize_pattern_rejects_H root Hroot) as Hrej. fold pat in Hrej.
        rewrite Forall_lookup in Hrej.
        rewrite (Hrej (String.length (w +:+ "/")) p) in HpH; [done|].
        by rewrite lookup_take_lt.
      - rewrite string_length_app in *. simpl in *. lia. }
    rewrite string_length_app in Hpos. simpl in Hpos.
    destruct (lookup_lt_is_Some_2 pat (String.length w)) as [q Hq]; [lia|].
    assert (q "/"%char = true) as Hq1.
    { by apply (accepts_at pat w "/" (String "H" y) q). }
    rewrite (normalize_pattern_dash root q Hroot) in Hq1; [done|].
    fold pat. by replace (length pat - 2) with (String.length w) by lia.
Qed.

End SecondPass.

Section Idempotence.

Import Re.

Lemma span_head p s c a b : PyStr.span p s = (String c a, b) → p c = true.
Proof.
  destruct s as [|c' s]; simpl; [done|].
  destruct (p c') eqn:Hc; [|done].
  destruct (PyStr.span p s). by intros [= <- _ _].
Qed.

Lemma span_truthy p c s :
  p c = true → PyStr.truthy (PyStr.span p (String c s)).1 = true.
Proof. simpl. intros ->. by destruct (PyStr.span p s). Qed.

(** A match of the pattern of [normalize_path] is a match of the
    fixed-width pattern of one of the roots, and the other way round. *)
Lemma match_normalize_accepts s :
  is_Some (match_normalize s) →
  ∃ root, root ∈ store_roots ∧ accepts (normalize_pattern root) s = true.
Proof.
  intros [[[g1 g2] rest] Hm]. unfold match_normalize in Hm.
  destruct (match_store_prefix s) as [[[root hd] s2]|] eqn:Hp; [|done].
  destruct (PyStr.span PyStr.not_newline s2) as [a b] eqn:Hspan.
  destruct a as [|c a]; [done|].
  unfold match_store_prefix in Hp.
  destruct (match_alts_sound _ _ _ _ _ _ Hp) as (Hroot & -> & Hhd).
  exists root. split; [done|].
  rewrite accepts_match_seq. unfold normalize_pattern.
  rewrite match_seq_app, match_seq_lit, match_seq_app, Hhd.
  rewrite (span_app _ _ _ _ Hspan), string_app_cons. simpl.
  by rewrite (span_head _ _ _ _ _ Hspan).
Qed.

Lemma accepts_match_normalize root s :
  root ∈ store_roots → accepts (normalize_pattern root) s = true →
  is_Some (match_normalize s).
Proof.
  intros Hroot. rewrite accepts_match_seq. unfold normalize_pattern.
  rewrite match_seq_app.
  destruct (match_seq (lit root) s) as [[m1 r1]|] eqn:H1; [|done].
  pose proof (match_seq_lit_inv _ _ _ _ H1) as ->.
  destruct (match_seq_split _ _ _ _ H1) as [-> _].
  rewrite match_seq_app.
  destruct (match_seq hash_dash r1) as [[hd s2]|] eqn:H2; [|done].
  destruct s2 as [|c s2]; [done|]. simpl.
  destruct (PyStr.not_newline c) eqn:Hc; [|done]. intros _.
  unfold match_normalize, match_store_prefix.
  rewrite match_alts_root, H2 by done.
  pose proof (span_truthy PyStr.not_newline c s2 Hc) as Ht.
  destruct (PyStr.span PyStr.not_newline (String c s2)) as [a b].
  simpl in Ht. rewrite Ht. eauto.
Qed.

Lemma hash_replaced_cons c s t :
  hash_replaced s t → hash_replaced (String c s) (String c t).
Proof.
  intros [->|(w & x & y & -> & ->)]; [by left|].
  right. exists (String c w), x, y. by rewrite !string_app_cons.
Qed.

Lemma store_root_ends_with_sep root :
  root ∈ store_roots → ∃ w, root = w +:+ "/".
Proof.
  intros [-> | [-> | ->]]%store_roots_cases;
    [by exists "nix/.ro-store" | by exists "nix/.rw-store" | by exists "nix/store"].
Qed.

(** The output of [re.sub] is related to its input as [hash_replaced] says. *)
Lemma sub_normalize_fuel_shape n s :
  hash_replaced s (sub_normalize_fuel n s).
Proof.
  revert s. induction n as [|n IH]; intros s; [by left|]. simpl.
  destruct (match_normalize s) as [[[g1 g2] rest]|] eqn:Hm.
  - destruct (match_normalize_sound _ _ _ _ Hm) as (Hroot & _ & h & _ & _ & ->).
    destruct (store_root_ends_with_sep g1 Hroot) as [w ->].
    right. exists w, (h +:+ "-" +:+ g2 +:+ rest),
      ("ASH-" +:+ g2 +:+ sub_normalize_fuel n rest).
    by rewrite !string_app_assoc.
  - destruct s as [|c s]; [by left|]. by apply hash_replaced_cons.
Qed.

(** No match appears to the left of a replacement. *)
Lemma hash_replaced_no_new_match s t :
  hash_replaced s t → match_normalize s = None → match_normalize t = None.
Proof.
  intros [->|(w & x & y & -> & ->)]; [done|]. intros Hnone.
  destruct (match_normalize (w +:+ String "/" (String "H" y))) as [m|] eqn:Hm; [|done].
  destruct (match_normalize_accepts _ (mk_is_Some _ _ Hm)) as (root & Hroot & Hacc).
  apply accepts_barrier with (x := x) in Hacc; [|done].
  apply accepts_match_normalize in Hacc as [m' Hm']; [|done].
  by rewrite Hnone in Hm'.
Qed.

Lemma store_matches_app a b : store_matches b ≤ store_matches (a +:+ b).
Proof.
  induction a as [|c a IH]; [done|]. rewrite string_app_cons. simpl. lia.
Qed.

Lemma store_matches_0 s pre t :
  store_matches s = 0 → s = pre +:+ t → match_normalize t = None.
Proof.
  intros H0 ->.
  pose proof (store_matches_app pre t) as Hle.
  destruct (match_normalize t) eqn:Hm; [|done]. exfalso.
  assert (0 < store_matches t); [|lia].
  destruct t; cbn [store_matches]; rewrite Hm; lia.
Qed.

Lemma sub_normalize_fuel_0 n s :
  store_matches s = 0 → sub_normalize_fuel n s = s.
Proof.
  intros H0. apply sub_normalize_fuel_no_match. intros pre t.
  by apply store_matches_0.
Qed.

(** There is no match inside a root followed by [HASH-]. *)
Lemma store_matches_root_HASH root z :
  root ∈ store_roots →
  store_matches (root +:+ "HASH-" +:+ z) = store_matches z.
Proof.
  intros [-> | [-> | ->]]%store_roots_cases; reflexivity.
Qed.

(** After one pass over a string with at most one match, no match is
    left. *)
Lemma sub_normalize_fuel_matches n s :
  String.length s ≤ n → store_matches s ≤ 1 →
  store_matches (sub_normalize_fuel n s) = 0.
Proof.
  revert s. induction n as [|n IH]; intros s Hlen Hone.
  - destruct s; [done|simpl in Hlen; lia].
  - cbn [sub_normalize_fuel].
    destruct (match_normalize s) as [[[g1 g2] rest]|] eqn:Hm.
    + destruct (match_normalize_sound _ _ _ _ Hm) as (Hroot & _ & h & _ & _ & Hs).
      assert (store_matches (g2 +:+ rest) = 0) as H0.
      { destruct g1 as [|c g1]; [by apply store_roots_cases in Hroot as [?|[?|?]]|].
        rewrite Hs, string_app_cons in Hone. rewrite Hs, string_app_cons in Hm.
        cbn [store_matches] in Hone. rewrite Hm in Hone.
        pose proof (store_matches_app (g1 +:+ h +:+ "-") (g2 +:+ rest)) as Hle.
        rewrite !string_app_assoc in Hle. lia. }
      assert (store_matches rest = 0) as H0'.
      { pose proof (store_matches_app g2 rest). lia. }
      rewrite (sub_normalize_fuel_0 n rest H0').
      by rewrite store_matches_root_HASH.
    + destruct s as [|c s]; [done|]. cbn [store_matches] in *.
      rewrite Hm in Hone.
      rewrite (hash_replaced_no_new_match (String c s) (String c (sub_normalize_fuel n s)));
        [|by apply hash_replaced_cons, sub_normalize_fuel_shape|done].
      simpl in Hlen. rewrite IH; [done|lia|lia].
Qed.

Lemma sub_normalize_fuel_startswith n s :
  PyStr.startswith_sep s = false →
  PyStr.startswith_sep (sub_normalize_fuel n s) = false.
Proof.
  destruct n as [|n]; [done|]. simpl. intros Hs.
  destruct (match_normalize s) as [[[g1 g2] rest]|] eqn:Hm.
  - destruct (match_normalize_sound _ _ _ _ Hm) as (Hroot & _).
    by apply startswith_root.
  - by destruct s.
Qed.

End Idempotence.

(** C3, counterexample. Group 2 of the pattern takes the whole rest of the
    line, so of two store segments on one line a pass rewrites the first
    only; the next pass rewrites the second. *)
Lemma normalize_path_not_idempotent :
  normalize_path nested_store_path
  = "nix/store/HASH-foo/nix/store/" +:+ hash_b +:+ "-bar"
  ∧ normalize_path (normalize_path nested_store_path)
    = "nix/store/HASH-foo/nix/store/HASH-bar"
  ∧ ¬ (∀ p : string, normalize_path (normalize_path p) = normalize_path p).
Proof.
  split; [reflexivity|]. split; [reflexivity|].
  intros H. specialize (H nested_store_path). by vm_compute in H.
Qed.

(** C3, as the code has it. On a path in which the pattern matches at one
    position at most, normalising twice gives what normalising once
    gives. *)
Theorem normalize_path_idempotent_one_segment :
  ∀ p : string,
    store_matches p ≤ 1 →
    normalize_path (normalize_path p) = normalize_path p.
Proof.
  intros p Hone. unfold normalize_path.
  pose proof (lstrip_startswith p) as Hstart.
  assert (store_matches (PyStr.lstrip p) ≤ 1) as Hone'.
  { destruct (lstrip_suffix p) as [pre Hp].
    pose proof (store_matches_app pre (PyStr.lstrip p)) as Hle.
    rewrite <- Hp in Hle. lia. }
  unfold Re.sub_normalize.
  rewrite lstrip_no_sep by by apply sub_normalize_fuel_startswith.
  apply sub_normalize_fuel_0.
  by apply sub_normalize_fuel_matches.
Qed.

Lemma normalize_path_idempotent_one_segment_witness :
  store_matches ("/nix/store/" +:+ hash_a +:+ "-pkg-1.0/bin/tool") ≤ 1
  ∧ normalize_path (normalize_path ("/nix/store/" +:+ hash_a +:+ "-pkg-1.0/bin/tool"))
    = normalize_path ("/nix/store/" +:+ hash_a +:+ "-pkg-1.0/bin/tool").
Proof.
  assert (store_matches ("/nix/store/" +:+ hash_a +:+ "-pkg-1.0/bin/tool") ≤ 1) as H
    by (vm_compute; lia).
  split; [exact H|].
  exact (normalize_path_idempotent_one_segment _ H).
Defined.

(** ** Dictionaries *)

Section Dictionaries.

Context {V : Type}.
Implicit Types (d : pydict V) (k : string) (v : V).

Lemma dict_get_set_eq k v d : Dict.get k (Dict.set k v d) = Some v.
Proof.
  induction d as [|[k' v'] d IH]; simpl.
  - by rewrite bool_decide_eq_true_2.
  - destruct (bool_decide (k' = k)) eqn:Hk; simpl; by rewrite Hk.
Qed.

Lemma dict_get_set_ne k k' v d :
  k ≠ k' → Dict.get k (Dict.set k' v d) = Dict.get k d.
Proof.
  intros Hne. induction d as [|[k0 v0] d IH]; simpl.
  - by rewrite bool_decide_eq_false_2.
  - destruct (bool_decide (k0 = k')) eqn:Hk0; simpl.
    + apply bool_decide_eq_true in Hk0 as ->.
      by rewrite !bool_decide_eq_false_2.
    + by rewrite IH.
Qed.

Lemma dict_get_set k k' v d :
  Dict.get k (Dict.set k' v d) = if decide (k = k') then Some v else Dict.get k d.
Proof.
  case_decide as Hk; [subst; apply dict_get_set_eq | by apply dict_get_set_ne].
Qed.

Lemma dict_contains_get k d :
  Dict.contains k d = bool_decide (is_Some (Dict.get k d)).
Proof.
  unfold Dict.contains. destruct (Dict.get k d).
  - by rewrite bool_decide_eq_true_2.
  - rewrite bool_decide_eq_false_2; [done|]. by intros [??].
Qed.

Lemma dict_get_not_key k d : k ∉ Dict.keys d → Dict.get k d = None.
Proof.
  induction d as [|[k' v'] d IH]; simpl; [done|].
  intros [Hne Hnin]%not_elem_of_cons.
  rewrite bool_decide_eq_false_2 by done. by apply IH.
Qed.

Lemma dict_get_key k d : k ∈ Dict.keys d → is_Some (Dict.get k d).
Proof.
  induction d as [|[k' v'] d IH]; simpl; [by intros ?%elem_of_nil|].
  intros [->|Hin]%elem_of_cons.
  - rewrite bool_decide_eq_true_2 by done. eauto.
  - destruct (bool_decide (k' = k)); eauto.
Qed.

Lemma dict_get_elem k v d : Dict.get k d = Some v → (k, v) ∈ d.
Proof.
  induction d as [|[k' v'] d IH]; simpl; [done|].
  case_bool_decide as Hk.
  - intros [= ->]. subst. by left.
  - intros H. right. by apply IH.
Qed.

Lemma dict_keys_set k v d :
  Dict.keys (Dict.set k v d)
  = if Dict.contains k d then Dict.keys d else Dict.keys d ++ [k].
Proof.
  unfold Dict.contains, Dict.keys.
  induction d as [|[k' v'] d IH]; simpl; [done|].
  destruct (bool_decide (k' = k)) eqn:Hk; simpl; [done|].
  unfold fmap in IH. rewrite IH. by destruct (Dict.get k d).
Qed.

Lemma dict_set_keys_NoDup k v d :
  NoDup (Dict.keys d) → NoDup (Dict.keys (Dict.set k v d)).
Proof.
  intros Hnd. rewrite dict_keys_set. unfold Dict.contains.
  destruct (Dict.get k d) eqn:Hget; [done|].
  apply NoDup_app. split; [done|]. split; [|apply NoDup_singleton].
  intros x Hx ->%list_elem_of_singleton.
  apply dict_get_key in Hx as [? Hx]. by rewrite Hget in Hx.
Qed.

End Dictionaries.

(** ** The mapping analyser *)

Section Analyser.

Implicit Types (pm : pydict (gset string)) (mp : pydict string) (a : string).

Lemma get_add_package_mapping a pm item :
  Dict.get a (add_package_mapping pm item) =
  match package_pair item with
  | Some (package1, package2) =>
      if decide (a = package1)
      then Some (default ∅ (Dict.get a pm) ∪ {[package2]})
      else Dict.get a pm
  | None => Dict.get a pm
  end.
Proof.
  destruct item as [path1 path2]. unfold add_package_mapping, package_pair. simpl.
  destruct (Re.search Re.match_package path1) as [p1|]; [|done].
  destruct (Re.search Re.match_package path2) as [p2|]; [|done].
  rewrite dict_get_set. case_decide as Ha.
  - subst a. unfold Dict.contains.
    destruct (Dict.get p1 pm) eqn:Hget; [by rewrite Hget|].
    by rewrite dict_get_set_eq.
  - unfold Dict.contains. destruct (Dict.get p1 pm); [done|].
    by rewrite dict_get_set_ne.
Qed.

Lemma add_package_mapping_NoDup pm item :
  NoDup (Dict.keys pm) → NoDup (Dict.keys (add_package_mapping pm item)).
Proof.
  intros Hnd. destruct item as [path1 path2]. unfold add_package_mapping.
  destruct (Re.search Re.match_package path1) as [p1|]; [|done].
  destruct (Re.search Re.match_package path2) as [p2|]; [|done].
  apply dict_set_keys_NoDup. destruct (Dict.contains p1 pm); [done|].
  by apply dict_set_keys_NoDup.
Qed.

Lemma package_mappings_NoDup mp pm :
  NoDup (Dict.keys pm) → NoDup (Dict.keys (foldl add_package_mapping pm mp)).
Proof.
  revert pm. induction mp as [|item mp IH]; intros pm Hnd; [done|].
  simpl. by apply IH, add_package_mapping_NoDup.
Qed.

Lemma observed_targets_cons o obs a :
  observed_targets (o :: obs) a =
  if decide (o.1 = a) then {[o.2]} ∪ observed_targets obs a
  else observed_targets obs a.
Proof.
  unfold observed_targets. rewrite filter_cons. by case_decide.
Qed.

(** The first loop gathers, for every source package name, the set of the
    target package names observed for it. *)
Lemma get_package_mappings a mp pm :
  Dict.get a (foldl add_package_mapping pm mp) =
  if decide (observed_targets (observations mp) a = ∅) then Dict.get a pm
  else Some (default ∅ (Dict.get a pm) ∪ observed_targets (observations mp) a).
Proof.
  revert pm. induction mp as [|item mp IH]; intros pm.
  - simpl. by rewrite decide_True.
  - cbn [foldl]. rewrite IH, get_add_package_mapping.
    unfold observations. cbn [omap list_omap]. fold (observations mp).
    destruct (package_pair item) as [[p1 p2]|]; [|done].
    rewrite observed_targets_cons. simpl.
    set (T := observed_targets (observations mp) a).
    destruct (decide (a = p1)) as [->|Hne].
    + rewrite !(decide_True (P := p1 = p1)) by done.
      rewrite (decide_False (P := {[p2]} ∪ T = ∅)) by set_solver.
      destruct (decide (T = ∅)) as [->|_]; simpl; f_equal; set_solver.
    + by rewrite (decide_False (P := p1 = a)).
Qed.

(** The second loop, read off key by key. *)
Lemma get_add_consistency a pm c0 i0 :
  NoDup (Dict.keys pm) →
  Dict.get a (foldl add_consistency (c0, i0) pm).1 =
    match Dict.get a pm with
    | Some s => match elements s with [x] => Some x | _ => Dict.get a c0 end
    | None => Dict.get a c0
    end
  ∧ Dict.get a (foldl add_consistency (c0, i0) pm).2 =
    match Dict.get a pm with
    | Some s => match elements s with [x] => Dict.get a i0 | l => Some l end
    | None => Dict.get a i0
    end.
Proof.
  revert c0 i0. induction pm as [|[k s] pm IH]; intros c0 i0 Hnd; [done|].
  apply NoDup_cons in Hnd as [Hk Hnd]. cbn [foldl].
  assert (∃ c1 i1, add_consistency (c0, i0) (k, s) = (c1, i1)
           ∧ Dict.get a c1
             = (if decide (a = k)
                then match elements s with [x] => Some x | _ => Dict.get a c0 end
                else Dict.get a c0)
           ∧ Dict.get a i1
             = (if decide (a = k)
                then match elements s with [x] => Dict.get a i0 | l => Some l end
                else Dict.get a i0)) as (c1 & i1 & -> & Hc1 & Hi1).
  { unfold add_consistency.
    destruct (elements s) as [|x [|y l]]; eexists _, _; (split; [done|]);
      rewrite ?dict_get_set; by case_decide. }
  destruct (IH c1 i1 Hnd) as [-> ->]. simpl.
  case_bool_decide as Hka.
  - subst k. rewrite decide_True in Hc1 by done. rewrite decide_True in Hi1 by done.
    rewrite (dict_get_not_key a pm) by done. done.
  - rewrite decide_False in Hc1 by done. rewrite decide_False in Hi1 by done.
    rewrite Hc1, Hi1. done.
Qed.

Lemma elements_one (s : gset string) x : elements s = [x] ↔ s = {[x]}.
Proof.
  split.
  - intros He. apply set_eq. intros y.
    by rewrite <- elem_of_elements, He, list_elem_of_singleton, elem_of_singleton.
  - intros ->. apply elements_singleton.
Qed.

End Analyser.

(** C9. For each source package name, [analyze_store_paths] lists it as
    consistent, with the one target name, exactly when the set of target
    names observed for it has one member; it lists it as inconsistent
    exactly when that set has two members or more, and then with every
    observed target name, each once. A source name nothing was observed
    for is in neither table. *)
Theorem analyze_store_paths_consistency :
  ∀ (symlink_results : match_results) (source : string),
    let obs := observations (store_path_mappings (stats symlink_results)) in
    let targets := observed_targets obs source in
    let analysis := analyze_store_paths symlink_results in
    (∀ x, Dict.get source (consistent_package_mappings analysis) = Some x
          ↔ targets = {[x]})
    ∧ (is_Some (Dict.get source (consistent_package_mappings analysis))
       ↔ size targets = 1)
    ∧ (is_Some (Dict.get source (inconsistent_package_mappings analysis))
       ↔ 2 ≤ size targets)
    ∧ (∀ l, Dict.get source (inconsistent_package_mappings analysis) = Some l →
            NoDup l ∧ ∀ x, x ∈ l ↔ x ∈ targets).
Proof.
  intros symlink_results source obs targets analysis.
  set (mp := store_path_mappings (stats symlink_results)) in *.
  set (pm := foldl add_package_mapping [] mp).
  assert (NoDup (Dict.keys pm)) as Hnd by (apply package_mappings_NoDup; constructor).
  destruct (get_add_consistency source pm [] [] Hnd) as [Hc Hi].
  assert (consistent_package_mappings analysis = (foldl add_consistency ([], []) pm).1
          ∧ inconsistent_package_mappings analysis
            = (foldl add_consistency ([], []) pm).2) as [-> ->].
  { unfold analysis, analyze_store_paths. fold mp. fold pm.
    by destruct (foldl add_consistency ([], []) pm). }
  match goal with
  | |- context [foldl add_consistency ?acc pm] =>
      match type of Hc with
      | context [foldl add_consistency ?acc' pm] => change acc with acc'
      end
  end.
  rewrite Hc, Hi. clear Hc Hi.
  assert (Dict.get source pm = if decide (targets = ∅) then None else Some targets)
    as ->.
  { unfold pm. rewrite get_package_mappings. fold obs. fold targets. simpl.
    by rewrite (left_id_L ∅ (∪)). }
  assert (size targets = length (elements targets)) as Hsize by done.
  destruct (decide (targets = ∅)) as [Hempty|Hne].
  { rewrite Hempty in *. rewrite elements_empty in Hsize. simpl in *.
    split; [|split; [|split]].
    - intros x. split; [done|]. intros H. symmetry in H.
      by apply non_empty_singleton_L in H.
    - split; [by intros [??]|]. intros ?. exfalso. lia.
    - split; [by intros [??]|]. intros ?. exfalso. lia.
    - done. }
  assert (elements targets ≠ []) as Hne'.
  { intros H. by apply elements_empty_inv, leibniz_equiv in H. }
  destruct (elements targets) as [|y [|z l']] eqn:He; [done| |]; simpl in *.
  - apply elements_one in He. split; [|split; [|split]].
    + intros x. split; [by intros [= <-]|].
      intros H. rewrite He in H. by apply (inj singleton) in H as ->.
    + split; [done|eauto].
    + split; [by intros [??]|]. intros ?. exfalso. lia.
    + done.
  - split; [|split; [|split]].
    + intros x. split; [done|]. intros H. apply elements_one in H.
      by rewrite He in H.
    + split; [by intros [??]|]. intros ?. exfalso. lia.
    + split; [intros _; lia|eauto].
    + intros l [= <-]. rewrite <- He. split; [apply NoDup_elements|].
      intros x. apply elem_of_elements.
Qed.

Lemma analyze_store_paths_consistency_witness :
  (observed_targets (observations mappings_X_X) "A" = {["X"]}
   ∧ 2 ≤ size (observed_targets (observations mappings_X_X_Y) "A"))
  ∧ Dict.get "A" (consistent_package_mappings
                    (analyze_store_paths (results_with mappings_X_X))) = Some "X"
  ∧ is_Some (Dict.get "A" (inconsistent_package_mappings
                             (analyze_store_paths (results_with mappings_X_X_Y)))).
Proof.
  assert (observed_targets (observations mappings_X_X) "A" = {["X"]}) as H1
    by (vm_compute; reflexivity).
  assert (2 ≤ size (observed_targets (observations mappings_X_X_Y) "A")) as H2
    by (vm_compute; lia).
  split; [by split|]. split.
  - by apply (proj1 (analyze_store_paths_consistency (results_with mappings_X_X) "A")).
  - by apply (proj1 (proj2 (proj2
               (analyze_store_paths_consistency (results_with mappings_X_X_Y) "A")))).
Defined.

(** The two examples of the claim, computed. *)
Example analyze_store_paths_X_X_Y :
  ∃ l, analyze_store_paths (results_with mappings_X_X_Y)
       = {| consistent_package_mappings := [];
            inconsistent_package_mappings := [("A", l)];
            total_store_paths := 3;
            unique_packages_state1 := 1;
            consistent_mappings_count := 0;
            inconsistent_mappings_count := 1 |}
       ∧ l ≡ₚ ["X"; "Y"].
Proof.
  eexists. split; [vm_compute; reflexivity|].
  first [reflexivity | apply Permutation_swap].
Qed.

Example analyze_store_paths_X_X :
  analyze_store_paths (results_with mappings_X_X)
  = {| consistent_package_mappings := [("A", "X")];
       inconsistent_package_mappings := [];
       total_store_paths := 2;
       unique_packages_state1 := 1;
       consistent_mappings_count := 1;
       inconsistent_mappings_count := 0 |}.
Proof. vm_compute. reflexivity. Qed.

(** ** Loops that may raise, and batches *)

Section Folds.

Context {A S : Type}.
Implicit Types (body : S → A → py S) (l : list A).

Lemma py_fold_app body acc l1 l2 :
  py_fold body acc (l1 ++ l2) = acc' ← py_fold body acc l1; py_fold body acc' l2.
Proof.
  revert acc. induction l1 as [|x l1 IH]; intros acc; [done|]. simpl.
  destruct (body acc x) as [acc1|e]; simpl; [apply IH|done].
Qed.

Lemma py_fold_concat body acc (ls : list (list A)) :
  py_fold (λ acc l, py_fold body acc l) acc ls = py_fold body acc (concat ls).
Proof.
  revert acc. induction ls as [|l ls IH]; intros acc; [done|]. simpl.
  rewrite py_fold_app. destruct (py_fold body acc l); simpl; [apply IH|done].
Qed.

Lemma py_fold_fmap {B} (g : B → A) body acc (l : list B) :
  py_fold (λ acc x, body acc (g x)) acc l = py_fold body acc (g <$> l).
Proof.
  revert acc. induction l as [|x l IH]; intros acc; [done|]. simpl.
  destruct (body acc (g x)); simpl; [apply IH|done].
Qed.

(** An invariant of the loop, indexed by the elements already processed. *)
Lemma py_fold_ind (P : list A → S → Prop) body init l final :
  P [] init →
  (∀ pre x acc acc', P pre acc → x ∈ l → body acc x = Ok acc' → P (pre ++ [x]) acc') →
  py_fold body init l = Ok final → P l final.
Proof.
  intros Hinit Hstep.
  assert (∀ pre rest acc, l = pre ++ rest → P pre acc →
            py_fold body acc rest = Ok final → P l final) as Hgen.
  { intros pre rest. revert pre. induction rest as [|x rest IH]; intros pre acc Hl Hacc.
    - simpl. intros [= <-]. by rewrite Hl, app_nil_r.
    - simpl. destruct (body acc x) as [acc1|e] eqn:Hb; simpl; [|done].
      apply (IH (pre ++ [x])).
      + by rewrite <- (assoc_L (++)).
      + apply (Hstep pre x acc acc1); [done| |done].
        rewrite Hl. apply elem_of_app. right. by left. }
  by apply (Hgen [] l init).
Qed.

(** The loop goes through when every step does. *)
Lemma py_fold_ok (P : S → Prop) body init l :
  P init →
  (∀ x acc, P acc → x ∈ l → ∃ acc', body acc x = Ok acc' ∧ P acc') →
  ∃ final, py_fold body init l = Ok final.
Proof.
  revert init. induction l as [|x l IH]; intros init Hinit Hstep; [by eexists|].
  simpl. destruct (Hstep x init Hinit) as (acc' & -> & Hacc'); [by left|]. simpl.
  apply IH; [done|]. intros y acc Hacc Hy. apply Hstep; [done|by right].
Qed.

End Folds.

Section Batches.

Context {A : Type}.

Lemma slices_concat_aux (batch_size : nat) (k : nat) (l : list A) :
  length l ≤ k * batch_size →
  concat ((λ start_idx, slice l start_idx batch_size)
            <$> ((λ i, i * batch_size) <$> seq 0 k)) = l.
Proof.
  revert l. induction k as [|k IH]; intros l Hlen.
  - destruct l; [done|simpl in Hlen; lia].
  - cbn [seq fmap list_fmap concat]. rewrite <- fmap_S_seq.
    transitivity (take batch_size l ++ drop batch_size l); [|apply take_drop].
    f_equal.
    rewrite <- (IH (drop batch_size l)) at 1 by (rewrite length_drop; lia).
    f_equal. rewrite <- !list_fmap_compose.
    apply list_fmap_ext. intros _ i _. unfold slice. simpl.
    by rewrite drop_drop.
Qed.

(** The batches, one after the other, are the list. *)
Lemma slices_concat (batch_size : nat) (l : list A) :
  batch_size ≠ 0 →
  concat ((λ start_idx, slice l start_idx batch_size)
            <$> range_step (length l) batch_size) = l.
Proof.
  intros Hbs. unfold range_step. apply slices_concat_aux.
  pose proof (Nat.div_mod_eq (length l + batch_size - 1) batch_size) as Hdm.
  pose proof (Nat.mod_upper_bound (length l + batch_size - 1) batch_size Hbs).
  nia.
Qed.

End Batches.

(** Batching is invisible: with a positive batch size the matcher is the
    plain loop over the symlinks of state 1. *)
Lemma find_equivalent_symlinks_flat set_order state1 state2 batch_size :
  batch_size ≠ 0 →
  find_equivalent_symlinks set_order state1 state2 batch_size
  = final ← match_all set_order state1 state2;
    Ok (with_store_path_mappings (mappings final) (results final)).
Proof.
  intros Hbs. unfold find_equivalent_symlinks, match_all.
  rewrite bool_decide_eq_false_2 by done.
  rewrite (py_fold_fmap (λ start_idx, slice (Dict.keys (symlinks state1)) start_idx batch_size)
             (λ acc batch, py_fold _ acc batch)).
  by rewrite py_fold_concat, slices_concat.
Qed.

(** ** The matcher, step by step *)

Section MatcherSteps.

Context (symlinks1 symlinks2 : pydict symlink_record).
Context (files1 files2 : pydict file_record).
Context (path_index2 : gmap string (list string)).

Local Abbreviation step :=
  (match_symlink symlinks1 symlinks2 files1 files2 path_index2).

(** The candidates of [path1]: the symlinks of state 2 filed under its
    normalised path. *)
Local Abbreviation candidates path1 :=
  (filter (λ p, Dict.contains p symlinks2)
     (default [] (path_index2 !! normalize_path path1))).

(** What a step that goes through has done. *)
Lemma match_symlink_inv acc path1 acc' :
  step acc path1 = Ok acc' →
  (candidates path1 = [] ∧ acc' = acc)
  ∨ ∃ path2 rest link1 link2 norm_target1 norm_target2 r1 r2 cache1 cache2,
      candidates path1 = path2 :: rest
      ∧ Dict.get path1 symlinks1 = Some link1
      ∧ Dict.get path2 symlinks2 = Some link2
      ∧ normalize_target (target link1) = Ok norm_target1
      ∧ normalize_target (target link2) = Ok norm_target2
      ∧ resolve_symlink_chain path1 symlinks1 files1 (resolve_cache1 acc)
          default_max_depth = Returned r1 cache1
      ∧ resolve_symlink_chain path2 symlinks2 files2 (resolve_cache2 acc)
          default_max_depth = Returned r2 cache2
      ∧ acc' = {| results :=
                    record_match
                      (make_match path1 path2 (target link1) (target link2) r1 r2)
                      (negb (bool_decide (norm_target1 = norm_target2)))
                      (classify (broken_of r1) (broken_of r2) (hash_of r1) (hash_of r2))
                      (results acc);
                  mappings := record_mapping (store_pair path1 path2) (mappings acc);
                  resolve_cache1 := cache1;
                  resolve_cache2 := cache2 |}.
Proof.
  unfold match_symlink.
  destruct (candidates path1) as [|path2 rest] eqn:Hc.
  { intros [= <-]. by left. }
  unfold subscript, resolve_step.
  destruct (Dict.get path1 symlinks1) as [link1|] eqn:H1; [|done].
  destruct (Dict.get path2 symlinks2) as [link2|] eqn:H2; [|done]. simpl.
  destruct (normalize_target (target link1)) as [nt1|] eqn:H3; [|done].
  destruct (normalize_target (target link2)) as [nt2|] eqn:H4; [|done]. simpl.
  destruct (resolve_symlink_chain path1 _ _ _ _) as [r1 c1|] eqn:H5; [|done]. simpl.
  destruct (resolve_symlink_chain path2 _ _ _ _) as [r2 c2|] eqn:H6; [|done]. simpl.
  intros [= <-]. right.
  exists path2, rest, link1, link2, nt1, nt2, r1, r2, c1, c2.
  repeat split; done.
Qed.

End MatcherSteps.

Section Mappings.

Lemma dict_get_app {V} k (l1 l2 : pydict V) :
  Dict.get k (l1 ++ l2) =
  match Dict.get k l1 with Some v => Some v | None => Dict.get k l2 end.
Proof.
  induction l1 as [|[k' v'] l1 IH]; [done|]. simpl. by case_bool_decide.
Qed.

(** [record_mapping] keeps what is there and adds an observation only for
    a source store path that has none yet. *)
Lemma get_record_mapping k obs (mp : pydict string) :
  Dict.get k (record_mapping obs mp) =
  match Dict.get k mp with
  | Some v => Some v
  | None => Dict.get k (option_list obs)
  end.
Proof.
  destruct obs as [[k' v']|]; simpl; [|by destruct (Dict.get k mp)].
  unfold Dict.contains. destruct (Dict.get k' mp) as [v0|] eqn:Hk'.
  - destruct (Dict.get k mp) eqn:Hk; [done|].
    case_bool_decide; [|done]. subst. by rewrite Hk in Hk'.
  - rewrite dict_get_set. case_decide as Hkk.
    + subst. rewrite Hk'. by rewrite bool_decide_eq_true_2.
    + destruct (Dict.get k mp); [done|]. by rewrite bool_decide_eq_false_2.
Qed.

Lemma matching_paths_record_match m differ b r :
  matching_paths (record_match m differ b r) = matching_paths r ++ [m].
Proof. done. Qed.

(** The invariant of the loop behind C8. *)
Lemma match_all_mappings set_order state1 state2 final :
  match_all set_order state1 state2 = Ok final →
  ∀ k, Dict.get k (mappings final)
       = Dict.get k (pair_observations (matching_paths (results final))).
Proof.
  unfold match_all.
  apply (py_fold_ind
           (λ _ acc, ∀ k, Dict.get k (mappings acc)
                          = Dict.get k (pair_observations (matching_paths (results acc))))).
  - done.
  - intros _ path1 acc acc' IH _ Hstep k.
    apply match_symlink_inv in Hstep
      as [[_ ->]|(path2 & rest & l1 & l2 & n1 & n2 & r1 & r2 & c1 & c2
                  & _ & _ & _ & _ & _ & _ & _ & ->)]; [done|].
    simpl. unfold pair_observations. rewrite omap_app.
    rewrite get_record_mapping, dict_get_app, IH. simpl.
    by destruct (store_pair path1 path2).
Qed.

End Mappings.

(** ** The claims on the matcher *)

(** C8, as the code has it. The store-path mappings handed to the analyser
    hold, for a source store path, the target store path of the first
    matched pair whose two paths both show a store path and whose state-1
    path shows that source store path; later pairs with the same source
    store path add nothing. So each such pair finds its source store path
    among the keys, with the target of the first pair as its value. *)
Theorem find_equivalent_symlinks_first_mapping :
  ∀ (set_order : list string → list string) (state1 state2 : state)
    (batch_size : nat) (res : match_results),
    find_equivalent_symlinks set_order state1 state2 batch_size = Ok res →
    (∀ k, Dict.get k (store_path_mappings (stats res))
          = Dict.get k (pair_observations (matching_paths res)))
    ∧ (∀ m store_path1 store_path2,
          m ∈ matching_paths res →
          store_pair (state1_path m) (state2_path m) = Some (store_path1, store_path2) →
          is_Some (Dict.get store_path1 (store_path_mappings (stats res)))).
Proof.
  intros set_order state1 state2 batch_size res Hres.
  assert (∀ k, Dict.get k (store_path_mappings (stats res))
               = Dict.get k (pair_observations (matching_paths res))) as Hget.
  { destruct (decide (batch_size = 0)) as [->|Hbs]; [done|].
    rewrite find_equivalent_symlinks_flat in Hres by done.
    destruct (match_all set_order state1 state2) as [final|] eqn:Hall; [|done].
    simpl in Hres. injection Hres as <-. simpl.
    by apply (match_all_mappings set_order state1 state2). }
  split; [done|].
  intros m sp1 sp2 Hm Hpair. rewrite Hget.
  apply dict_get_key. unfold Dict.keys, pair_observations.
  apply list_elem_of_fmap. exists (sp1, sp2). split; [done|].
  apply list_elem_of_omap. by exists m.
Qed.

Lemma set_order_permutations set_order l :
  set_order_ok set_order → NoDup l → set_order l ∈ permutations l.
Proof.
  intros Hok Hl. destruct (Hok l) as [Hnd Hin].
  apply permutations_Permutation. symmetry. by apply NoDup_Permutation.
Qed.

Lemma remove_dups_ok : set_order_ok remove_dups.
Proof.
  intros l. split; [apply NoDup_remove_dups|]. intros x. apply elem_of_remove_dups.
Qed.

Lemma find_equivalent_symlinks_first_mapping_witness :
  ∃ res,
    find_equivalent_symlinks remove_dups one_package_state two_packages_state
      default_batch_size = Ok res
    ∧ Dict.get ("nix/store/" +:+ hash_a +:+ "-pkg") (store_path_mappings (stats res))
      = Dict.get ("nix/store/" +:+ hash_a +:+ "-pkg")
          (pair_observations (matching_paths res)).
Proof.
  eexists. split; [vm_compute; reflexivity|].
  refine (proj1 (find_equivalent_symlinks_first_mapping remove_dups
                   one_package_state two_packages_state default_batch_size _ _) _).
  vm_compute. reflexivity.
Defined.

Lemma find_equivalent_symlinks_order set_order state1 state2 batch_size :
  find_equivalent_symlinks set_order state1 state2 batch_size
  = find_equivalent_symlinks
      (λ _, set_order (Dict.keys (symlinks state2) ++ Dict.keys (files state2)))
      state1 state2 batch_size.
Proof. reflexivity. Qed.

(** A property of the matcher's result that holds for each permutation of
    the paths of state 2 holds for every admissible iteration order. *)
Lemma find_equivalent_symlinks_every_order (P : py match_results → Prop)
    set_order state1 state2 batch_size :
  set_order_ok set_order →
  NoDup (Dict.keys (symlinks state2) ++ Dict.keys (files state2)) →
  Forall (λ order, P (find_equivalent_symlinks (λ _, order) state1 state2 batch_size))
         (permutations (Dict.keys (symlinks state2) ++ Dict.keys (files state2))) →
  P (find_equivalent_symlinks set_order state1 state2 batch_size).
Proof.
  intros Hok Hnd Hall. rewrite find_equivalent_symlinks_order.
  rewrite Forall_forall in Hall. apply Hall.
  by apply set_order_permutations.
Qed.

(** C8, counterexample. Two symlinks under one store path of state 1 are
    matched with symlinks under two different store paths of state 2. Both
    pairs show store paths, but only the first is recorded: the guard
    [if store_path1 not in store_path_mappings] drops the second. This is
    so in whatever order Python iterates over the set of paths. *)
Lemma find_equivalent_symlinks_skips_later_pairs :
  let A := "nix/store/" +:+ hash_a +:+ "-pkg" in
  let B := "nix/store/" +:+ hash_b +:+ "-pkg" in
  let C := "nix/store/" +:+ hash_c +:+ "-pkg" in
  (∀ set_order, set_order_ok set_order →
     ∃ res m1 m2,
       find_equivalent_symlinks set_order one_package_state two_packages_state
         default_batch_size = Ok res
       ∧ matching_paths res = [m1; m2]
       ∧ store_pair (state1_path m1) (state2_path m1) = Some (A, B)
       ∧ store_pair (state1_path m2) (state2_path m2) = Some (A, C)
       ∧ store_path_mappings (stats res) = [(A, B)])
  ∧ ¬ (∀ set_order state1 state2 batch_size res m store_path1 store_path2,
         set_order_ok set_order →
         find_equivalent_symlinks set_order state1 state2 batch_size = Ok res →
         m ∈ matching_paths res →
         store_pair (state1_path m) (state2_path m) = Some (store_path1, store_path2) →
         (store_path1, store_path2) ∈ store_path_mappings (stats res)).
Proof.
  intros A B C.
  assert (∀ set_order, set_order_ok set_order →
     ∃ res m1 m2,
       find_equivalent_symlinks set_order one_package_state two_packages_state
         default_batch_size = Ok res
       ∧ matching_paths res = [m1; m2]
       ∧ store_pair (state1_path m1) (state2_path m1) = Some (A, B)
       ∧ store_pair (state1_path m2) (state2_path m2) = Some (A, C)
       ∧ store_path_mappings (stats res) = [(A, B)]) as Hall.
  { intros set_order Hok.
    apply (find_equivalent_symlinks_every_order
             (λ r, ∃ res m1 m2, r = Ok res ∧ matching_paths res = [m1; m2]
                   ∧ store_pair (state1_path m1) (state2_path m1) = Some (A, B)
                   ∧ store_pair (state1_path m2) (state2_path m2) = Some (A, C)
                   ∧ store_path_mappings (stats res) = [(A, B)])); [done| |].
    - apply (bool_decide_unpack _). vm_compute. exact I.
    - let l := eval vm_compute in
        (permutations (Dict.keys (symlinks two_packages_state)
                       ++ Dict.keys (files two_packages_state))) in
      change (permutations (Dict.keys (symlinks two_packages_state)
                            ++ Dict.keys (files two_packages_state))) with l.
      repeat apply Forall_cons_2; [..| apply Forall_nil_2].
      all: eexists _, _, _; (split; [vm_compute; reflexivity|]).
      all: (split; [reflexivity|]).
      all: repeat split; vm_compute; reflexivity. }
  split; [exact Hall|].
  intros Hclaim.
  destruct (Hall remove_dups remove_dups_ok) as (res & m1 & m2 & Hres & Hm & _ & H2 & Hmp).
  specialize (Hclaim remove_dups _ _ _ res m2 A C remove_dups_ok Hres).
  rewrite Hm, Hmp in Hclaim.
  assert (m2 ∈ [m1; m2]) as Hin by (right; left).
  specialize (Hclaim Hin H2).
  apply list_elem_of_singleton in Hclaim.
  assert (C ≠ B) as Hne by (apply String.eqb_neq; vm_compute; reflexivity).
  apply Hne. by injection Hclaim.
Qed.

(** C4, counterexample. A snapshot compared with itself: two symlinks of
    two builds of one package share a normalised path, so one of them is
    paired with the other (the first candidate wins) and their files
    differ. Whatever the iteration order of the set, one pair lands in
    [different_final_content]. *)
Lemma find_equivalent_symlinks_same_state_differs :
  (∀ set_order, set_order_ok set_order →
     ∃ res m,
       find_equivalent_symlinks set_order two_builds_state two_builds_state
         default_batch_size = Ok res
       ∧ different_final_content res = [m]
       ∧ state1_path m ≠ state2_path m)
  ∧ ¬ (∀ set_order st batch_size res,
         set_order_ok set_order →
         find_equivalent_symlinks set_order st st batch_size = Ok res →
         different_final_content res = []).
Proof.
  assert (∀ set_order, set_order_ok set_order →
     ∃ res m,
       find_equivalent_symlinks set_order two_builds_state two_builds_state
         default_batch_size = Ok res
       ∧ different_final_content res = [m]
       ∧ state1_path m ≠ state2_path m) as Hall.
  { intros set_order Hok.
    apply (find_equivalent_symlinks_every_order
             (λ r, ∃ res m, r = Ok res ∧ different_final_content res = [m]
                            ∧ state1_path m ≠ state2_path m)); [done| |].
    - apply (bool_decide_unpack _). vm_compute. exact I.
    - let l := eval vm_compute in
        (permutations (Dict.keys (symlinks two_builds_state)
                       ++ Dict.keys (files two_builds_state))) in
      change (permutations (Dict.keys (symlinks two_builds_state)
                            ++ Dict.keys (files two_builds_state))) with l.
      repeat apply Forall_cons_2; [..| apply Forall_nil_2].
      all: eexists _, _; (split; [vm_compute; reflexivity|]).
      all: (split; [reflexivity|]).
      all: vm_compute; discriminate. }
  split; [exact Hall|].
  intros Hclaim.
  destruct (Hall remove_dups remove_dups_ok) as (res & m & Hres & Hm & _).
  rewrite (Hclaim remove_dups _ _ res remove_dups_ok Hres) in Hm. discriminate.
Qed.

(** ** A snapshot matched with itself *)

Section SameState.

Lemma index_lookup_from paths (idx : gmap string (list string)) k :
  default [] (foldl (λ index path,
                       let norm_path := normalize_path path in
                       <[norm_path := default [] (index !! norm_path) ++ [path]]> index)
                    idx paths !! k)
  = default [] (idx !! k) ++ filter (λ p, normalize_path p = k) paths.
Proof.
  revert idx. induction paths as [|p paths IH]; intros idx.
  - simpl. by rewrite app_nil_r.
  - cbn [foldl]. rewrite IH. cbn zeta. rewrite lookup_insert, filter_cons.
    case_decide as Hk.
    + subst k. simpl. by rewrite <- (assoc_L (++)).
    + done.
Qed.

(** The index lists, under a normalised path, the paths that have it, in
    the order in which they were given. *)
Lemma index_lookup paths k :
  default [] (build_normalized_path_index paths !! k)
  = filter (λ p, normalize_path p = k) paths.
Proof. unfold build_normalized_path_index. by rewrite index_lookup_from. Qed.

Lemma list_singleton_NoDup {A} (l : list A) a :
  NoDup l → a ∈ l → (∀ x, x ∈ l → x = a) → l = [a].
Proof.
  intros Hnd Ha Hall. destruct l as [|x l]; [by apply elem_of_nil in Ha|].
  assert (x = a) as -> by (apply Hall; by left).
  destruct l as [|y l]; [done|]. exfalso.
  assert (y = a) as -> by (apply Hall; right; by left).
  apply NoDup_cons in Hnd as [Hnin _]. apply Hnin. by left.
Qed.

Lemma dict_contains_keys {V} k (d : pydict V) :
  Dict.contains k d = true ↔ k ∈ Dict.keys d.
Proof.
  unfold Dict.contains. split.
  - destruct (Dict.get k d) eqn:Hget; [|done]. intros _.
    apply dict_get_elem in Hget. apply list_elem_of_fmap. by exists (k, v).
  - intros [v ->]%dict_get_key. done.
Qed.

Lemma resolve_symlink_chain_returns path symlinks files cache max_depth :
  targets_well_typed symlinks →
  ∃ r cache', resolve_symlink_chain path symlinks files cache max_depth
              = Returned r cache'.
Proof.
  intros Hwt. unfold resolve_symlink_chain. destruct (cache !! path); [eauto|].
  destruct (while_loop_no_raise symlinks files max_depth (initial_state path) Hwt)
    as [r Hr].
  fold (initial_state path). rewrite Hr. eauto.
Qed.

Lemma normalize_target_ok symlinks p link :
  targets_well_typed symlinks → Dict.get p symlinks = Some link →
  ∃ s, normalize_target (target link) = Ok s.
Proof.
  intros Hwt Hget. unfold normalize_target.
  destruct (json_truthy (target link)) eqn:Ht; [|eauto].
  destruct (Hwt p link Hget Ht) as [s ->]. eauto.
Qed.

Lemma classify_same broken h :
  classify broken broken h h = if broken then BrokenInBoth else IdenticalFinalContent.
Proof.
  unfold classify. destruct broken; simpl; [done|].
  by rewrite bool_decide_eq_true_2.
Qed.

Context (set_order : list string → list string) (st : state).
Hypothesis set_order_spec : set_order_ok set_order.
Hypothesis normalize_inj :
  ∀ p q, p ∈ Dict.keys (symlinks st) → q ∈ Dict.keys (symlinks st) →
         normalize_path p = normalize_path q → p = q.

Local Abbreviation index :=
  (build_normalized_path_index
     (set_order (Dict.keys (symlinks st) ++ Dict.keys (files st)))).

(** With no two symlinks under one normalised path, the only candidate for
    a symlink is the symlink itself. *)
Lemma candidates_self path1 :
  path1 ∈ Dict.keys (symlinks st) →
  filter (λ p, Dict.contains p (symlinks st))
    (default [] (index !! normalize_path path1)) = [path1].
Proof.
  intros Hin. rewrite index_lookup.
  destruct (set_order_spec (Dict.keys (symlinks st) ++ Dict.keys (files st)))
    as [Hnd Hall].
  apply list_singleton_NoDup.
  - by do 2 apply NoDup_filter.
  - apply list_elem_of_filter. split; [by apply Is_true_true, dict_contains_keys|].
    apply list_elem_of_filter. split; [done|]. apply Hall, elem_of_app. by left.
  - intros x [Hc [Hn _]%list_elem_of_filter]%list_elem_of_filter.
    apply Is_true_true, dict_contains_keys in Hc. by apply normalize_inj.
Qed.

Local Abbreviation step :=
  (match_symlink (symlinks st) (symlinks st) (files st) (files st) index).

Lemma match_symlink_self_ok acc path1 :
  targets_well_typed (symlinks st) →
  path1 ∈ Dict.keys (symlinks st) →
  ∃ acc', step acc path1 = Ok acc'.
Proof.
  intros Hwt Hin. unfold match_symlink.
  rewrite candidates_self by done.
  destruct (dict_get_key _ _ Hin) as [link Hlink].
  unfold subscript. rewrite Hlink. simpl.
  destruct (normalize_target_ok _ _ _ Hwt Hlink) as [s ->]. simpl.
  unfold resolve_step.
  destruct (resolve_symlink_chain_returns path1 (symlinks st) (files st)
              (resolve_cache1 acc) default_max_depth Hwt) as (r1 & c1 & ->).
  destruct (resolve_symlink_chain_returns path1 (symlinks st) (files st)
              (resolve_cache2 acc) default_max_depth Hwt) as (r2 & c2 & ->).
  simpl. eauto.
Qed.

End SameState.

(** The snapshot of the witness, computed: the symlink to the file is
    identical, the symlink without a target is broken in both. *)
Example find_equivalent_symlinks_plain_state :
  ∃ res m1 m2,
    find_equivalent_symlinks remove_dups plain_state plain_state default_batch_size
    = Ok res
    ∧ matching_paths res = [m1; m2]
    ∧ identical_final_content res = [m1]
    ∧ broken_in_both res = [m2]
    ∧ state1_path m1 = "bin/tool" ∧ state1_final_hash m1 = Some "H"
    ∧ state1_path m2 = "bin/gone" ∧ state1_status m2 = Broken.
Proof.
  eexists _, _, _. split; [vm_compute; reflexivity|].
  repeat split.
Qed.

(** ** Examples of the path functions *)

Example dirname_nested : PosixPath.dirname "a/b/c" = "a/b".
Proof. reflexivity. Qed.

Example dirname_plain : PosixPath.dirname "c" = EmptyString.
Proof. reflexivity. Qed.

Example dirname_root : PosixPath.dirname "/c" = "/".
Proof. reflexivity. Qed.

Example dirname_double_sep : PosixPath.dirname "a//b" = "a".
Proof. reflexivity. Qed.

Example normpath_dots : PosixPath.normpath "a/b/../../../c/./d//e/" = "../c/d/e".
Proof. reflexivity. Qed.

Example normpath_two_slashes : PosixPath.normpath "//a/../../b" = "//b".
Proof. reflexivity. Qed.

Example normpath_three_slashes : PosixPath.normpath "///a" = "/a".
Proof. reflexivity. Qed.

Example normpath_to_dot : PosixPath.normpath "a/.." = ".".
Proof. reflexivity. Qed.

Example split_keeps_empty : PyStr.split "a//b/" = ["a"; EmptyString; "b"; EmptyString].
Proof. reflexivity. Qed.

(** A relative target is joined to the directory of the link and
    normalised; an absolute one loses its leading separators. *)
Example next_path_relative : next_path "dir/link" "../x" = "x".
Proof. reflexivity. Qed.

Example next_path_sibling : next_path "a/dir/link" "y/z" = "a/dir/y/z".
Proof. reflexivity. Qed.

Example next_path_absolute : next_path "dir/link" "//nix/store/x" = "nix/store/x".
Proof. reflexivity. Qed.

Example normalize_path_overlay_store :
  normalize_path ("/nix/.ro-store/" +:+ hash_a +:+ "-system-path/bin/ls")
  = "nix/.ro-store/HASH-system-path/bin/ls".
Proof. reflexivity. Qed.

(** A name of thirty-two such characters elsewhere in the path is left
    alone. *)
Example normalize_path_hash_elsewhere :
  normalize_path ("home/" +:+ hash_a +:+ "-x/y") = "home/" +:+ hash_a +:+ "-x/y".
Proof. reflexivity. Qed.

(** * Further properties *)

(** ** The index and the normaliser *)

Section IndexLookup.

Lemma index_fold_lookup paths (idx : gmap string (list string)) k :
  foldl (λ index path,
           let norm_path := normalize_path path in
           <[norm_path := default [] (index !! norm_path) ++ [path]]> index)
        idx paths !! k
  = match filter (λ p, normalize_path p = k) paths with
    | [] => idx !! k
    | l => Some (default [] (idx !! k) ++ l)
    end.
Proof.
  revert idx. induction paths as [|p paths IH]; intros idx; [done|].
  cbn [foldl]. rewrite IH. cbn zeta. rewrite lookup_insert, filter_cons.
  case_decide as Hk.
  - subst k. simpl.
    destruct (filter (λ p0, normalize_path p0 = normalize_path p) paths); [done|].
    by rewrite <- (assoc_L (++)).
  - done.
Qed.

End IndexLookup.

(** X1. The index files every path under its normalised path: the entry
    of a key is the list of the given paths that normalise to it, in the
    order given, and a key no path normalises to has no entry. *)
Theorem build_normalized_path_index_lookup :
  ∀ (paths : list string) (k : string),
    build_normalized_path_index paths !! k
    = match filter (λ p, normalize_path p = k) paths with
      | [] => None
      | l => Some l
      end.
Proof.
  intros paths k. unfold build_normalized_path_index.
  rewrite index_fold_lookup, lookup_empty. simpl.
  by destruct (filter _ paths).
Qed.

(** X2. Leading separators do not matter to [normalize_path], and its
    result never begins with one: [fix_path] leaves it as it is. *)
Theorem normalize_path_leading_separators :
  ∀ (n : nat) (p : string),
    normalize_path (slashes n +:+ p) = normalize_path p
    ∧ PyStr.startswith_sep (normalize_path p) = false
    ∧ fix_path (normalize_path p) = normalize_path p.
Proof.
  intros n p.
  assert (PyStr.startswith_sep (normalize_path p) = false) as Hs.
  { unfold normalize_path, Re.sub_normalize.
    apply sub_normalize_fuel_startswith, lstrip_startswith. }
  split; [|split; [done|by apply lstrip_no_sep]].
  unfold normalize_path. by rewrite lstrip_slashes.
Qed.

(** X3. Two paths that differ in the store hash only have the same
    normalised path, whatever follows the dash, as long as something that
    is not a newline does. *)
Theorem normalize_path_ignores_hash :
  ∀ (root h1 h2 : string) (c : ascii) (tail : string),
    root ∈ Re.store_roots →
    String.length h1 = 32 → string_forall Re.lower_alnum h1 = true →
    String.length h2 = 32 → string_forall Re.lower_alnum h2 = true →
    PyStr.not_newline c = true →
    normalize_path (root +:+ h1 +:+ "-" +:+ String c tail)
    = normalize_path (root +:+ h2 +:+ "-" +:+ String c tail).
Proof.
  intros root h1 h2 c tail Hroot Hl1 Hh1 Hl2 Hh2 Hc.
  assert (∀ h, String.length h = 32 → string_forall Re.lower_alnum h = true →
            normalize_path (root +:+ h +:+ "-" +:+ String c tail)
            = root +:+ "HASH-"
              +:+ (PyStr.span PyStr.not_newline (String c tail)).1
              +:+ Re.sub_normalize_fuel
                    (String.length root + 32 + String.length tail + 1)
                    (PyStr.span PyStr.not_newline (String c tail)).2) as Hnorm.
  { intros h Hl Hh. unfold normalize_path.
    rewrite lstrip_no_sep by by apply startswith_root.
    unfold Re.sub_normalize.
    assert (String.length (root +:+ h +:+ "-" +:+ String c tail)
            = S (String.length root + 32 + String.length tail + 1)) as ->.
    { rewrite !string_length_app, Hl. simpl. lia. }
    cbn [Re.sub_normalize_fuel]. unfold Re.match_normalize.
    rewrite match_store_prefix_complete by done.
    pose proof (span_truthy PyStr.not_newline c tail Hc) as Ht.
    destruct (PyStr.span PyStr.not_newline (String c tail)) as [g2 rest].
    simpl in *. by rewrite Ht. }
  by rewrite (Hnorm h1), (Hnorm h2).
Qed.

Lemma normalize_path_ignores_hash_witness :
  normalize_path ("nix/store/" +:+ hash_a +:+ "-" +:+ String "p" "kg/bin")
  = normalize_path ("nix/store/" +:+ hash_b +:+ "-" +:+ String "p" "kg/bin").
Proof.
  apply (normalize_path_ignores_hash "nix/store/" hash_a hash_b "p" "kg/bin");
    try reflexivity.
  unfold Re.store_roots. rewrite !elem_of_cons. tauto.
Defined.

Section Separators.

Lemma count_sep_app s t : count_sep (s +:+ t) = count_sep s + count_sep t.
Proof.
  induction s as [|c s IH]; [done|]. rewrite string_app_cons. simpl. rewrite IH. lia.
Qed.

Lemma lower_alnum_not_sep c : Re.lower_alnum c = true → PyStr.is_sep c = false.
Proof.
  destruct c as [[] [] [] [] [] [] [] []]; vm_compute; congruence.
Qed.

Lemma count_sep_hash h : string_forall Re.lower_alnum h = true → count_sep h = 0.
Proof.
  induction h as [|c h IH]; [done|]. simpl.
  intros [Hc Hh]%andb_true_iff. by rewrite (lower_alnum_not_sep c Hc), IH.
Qed.

Lemma sub_normalize_fuel_count_sep n s :
  count_sep (Re.sub_normalize_fuel n s) = count_sep s
  ∧ String.length (Re.sub_normalize_fuel n s) ≤ String.length s.
Proof.
  revert s. induction n as [|n IH]; intros s; [done|]. cbn [Re.sub_normalize_fuel].
  destruct (Re.match_normalize s) as [[[g1 g2] rest]|] eqn:Hm.
  - destruct (match_normalize_sound _ _ _ _ Hm) as (_ & _ & h & Hl & Hh & ->).
    destruct (IH rest) as [IHc IHl].
    rewrite !count_sep_app, !string_length_app, IHc, Hl, (count_sep_hash h Hh).
    simpl. lia.
  - destruct s as [|c s]; [done|]. destruct (IH s) as [IHc IHl]. simpl.
    rewrite IHc. lia.
Qed.

Lemma lstrip_length s : String.length (PyStr.lstrip s) ≤ String.length s.
Proof.
  induction s as [|c s IH]; [done|]. simpl.
  destruct (PyStr.is_sep c); simpl; lia.
Qed.

End Separators.

(** X4. Normalising keeps the directory structure: past the leading
    separators it neither adds nor removes a separator, and the result is
    never longer than the path. *)
Theorem normalize_path_keeps_separators :
  ∀ p : string,
    count_sep (normalize_path p) = count_sep (PyStr.lstrip p)
    ∧ String.length (normalize_path p) ≤ String.length p.
Proof.
  intros p. unfold normalize_path, Re.sub_normalize.
  destruct (sub_normalize_fuel_count_sep
              (String.length (PyStr.lstrip p)) (PyStr.lstrip p)) as [Hc Hl].
  split; [done|]. pose proof (lstrip_length p). lia.
Qed.

(** ** The chain resolver *)

Section ResolverSound.

Context (symlinks : pydict symlink_record) (files : pydict file_record).
Context (max_depth : nat) (path : string).

Local Abbreviation loop := (while_loop symlinks files max_depth).
Local Abbreviation body := (loop_body symlinks files).

Lemma on_chain_initial : on_chain symlinks path (initial_state path).
Proof.
  split; [done|]. intros x. split; [by intros ?%elem_of_empty|].
  intros (j & Hj & _). simpl in Hj. lia.
Qed.

Lemma loop_body_visited st st' :
  body st = Next st' → visited st' = {[current_path st]} ∪ visited st.
Proof.
  unfold loop_body. intros H.
  repeat (case_match; simplify_eq/=); done.
Qed.

Lemma on_chain_next st st' :
  on_chain symlinks path st → body st = Next st' → on_chain symlinks path st'.
Proof.
  intros [Hcur Hvis] Hb.
  pose proof (loop_body_depth _ _ _ _ Hb) as Hd.
  pose proof (loop_body_next _ _ _ _ Hb) as Hhop.
  pose proof (loop_body_visited _ _ Hb) as Hv.
  split.
  - rewrite Hd, follow_S_r, Hcur. done.
  - intros x. rewrite Hv, Hd, elem_of_union, elem_of_singleton, Hvis. split.
    + intros [->|(j & Hj & Hx)]; [exists (depth st)|exists j]; split; try done; lia.
    + intros (j & Hj & Hx). destruct (decide (j = depth st)) as [->|Hne].
      * left. rewrite Hcur in Hx. by injection Hx.
      * right. exists j. split; [lia|done].
Qed.

Lemma consistent_not_file p (s : status) :
  s ≠ File → resolution_consistent (p, true, None, s).
Proof.
  intros Hs. split; simpl.
  - by rewrite bool_decide_eq_false_2.
  - split; [by intros [??]|done].
Qed.

Lemma consistent_file p h : resolution_consistent (p, false, Some h, File).
Proof. split; simpl; [done|]. split; eauto. Qed.

Lemma loop_body_return_sound st r :
  on_chain symlinks path st → depth st < max_depth → body st = Return r →
  final_path_of r = current_path st ∧ status_sound symlinks files max_depth path (depth st) r
  ∧ resolution_consistent r.
Proof.
  intros [Hcur Hvis] Hlt. unfold loop_body.
  case_bool_decide as Hin.
  { intros [= <-]. split; [done|]. split; [|by apply consistent_not_file].
    split; [done|]. by apply Hvis. }
  destruct (Dict.get (current_path st) symlinks) as [link|] eqn:Hget.
  - destruct (json_truthy (target link)) eqn:Ht; simpl.
    + by destruct (target link).
    + intros [= <-]. split; [done|]. split; [|by apply consistent_not_file].
      split; [done|]. simpl. eauto.
  - destruct (Dict.get (fix_path (current_path st)) files) as [[[h|]]|] eqn:Hf;
      intros [= <-]; (split; [done|]);
      (split; [|by (apply consistent_not_file || apply consistent_file)]).
    + split; [done|]. simpl. split; [done|]. eauto.
    + split; [done|]. split; [done|]. intros h Hh.
      change (Dict.get (fix_path (current_path st)) files
              = Some {| hash := Some h |}) in Hh.
      by rewrite Hf in Hh.
    + split; [done|]. split; [done|]. intros h Hh.
      change (Dict.get (fix_path (current_path st)) files
              = Some {| hash := Some h |}) in Hh.
      by rewrite Hf in Hh.
Qed.

(** The loop invariant behind the status of a result. *)
Lemma while_loop_sound st r :
  on_chain symlinks path st → depth st ≤ max_depth → loop st = Ok r →
  resolution_consistent r
  ∧ ∃ k, depth st ≤ k ≤ max_depth
         ∧ follow symlinks k path = Some (final_path_of r)
         ∧ status_sound symlinks files max_depth path k r.
Proof.
  remember (max_depth - depth st) as n eqn:Hn.
  revert st Hn. induction n as [|n IH]; intros st Hn Hon Hle; rewrite while_loop_eq.
  - assert ((depth st <? max_depth) = false) as -> by (apply Nat.ltb_ge; lia).
    intros [= <-]. split; [by apply consistent_not_file|]. exists (depth st).
    split; [lia|]. split; [apply Hon|]. unfold status_sound. simpl. lia.
  - assert ((depth st <? max_depth) = true) as -> by (apply Nat.ltb_lt; lia).
    destruct (body st) as [r'|e|st1] eqn:Hb; [|done|].
    + intros [= ->].
      destruct (loop_body_return_sound st r Hon) as (Hp & Hs & Hc); [lia|done|].
      split; [done|]. exists (depth st). split; [lia|].
      rewrite Hp. split; [apply Hon|done].
    + intros Hr. pose proof (loop_body_depth _ _ _ _ Hb) as Hd.
      destruct (IH st1) as (Hc & k & Hk & Hfol & Hs);
        [lia | by apply (on_chain_next st) | lia | done |].
      split; [done|]. exists k. split; [lia|done].
Qed.

(** A walk that comes back, within the bound, to a path it has passed ends
    there with status [Cycle]. *)
Lemma while_loop_cycle k j x :
  j < k → k < max_depth →
  follow symlinks k path = Some x →
  follow symlinks j path = Some x →
  (∀ i i' y, i < i' < k → follow symlinks i path = Some y →
             follow symlinks i' path ≠ Some y) →
  loop (initial_state path) = Ok (x, true, None, Cycle).
Proof.
  intros Hjk Hk Hx Hj Hdist.
  assert (∃ V, (∀ y, y ∈ V ↔ y ∈ (∅ : gset string)
                               ∨ ∃ i, i < k ∧ follow symlinks i path = Some y)
               ∧ loop (initial_state path)
                 = loop {| visited := V; current_path := x; depth := k |})
    as (V & HV & ->).
  { apply (while_loop_walk_to symlinks files max_depth k (initial_state path) x);
      simpl; [lia | done | | done].
    intros i y _ _. apply not_elem_of_empty. }
  rewrite while_loop_eq. simpl.
  assert ((k <? max_depth) = true) as -> by by apply Nat.ltb_lt.
  unfold loop_body. simpl. rewrite bool_decide_eq_true_2; [done|].
  apply HV. right. by exists j.
Qed.

End ResolverSound.

(** X5. What the status of a freshly computed result means. The final
    path lies [k] hops down the chain from the start path, with [k] at
    most [max_depth]; [file]: it is no symlink and its file record has the
    hash returned; [missing]: it is no symlink and has no hashed file
    record; [broken]: it is a symlink whose target is absent or empty;
    [cycle]: the walk had passed it before; [max_depth]: [k] is the bound.
    All but [max_depth] are reached with [k] below the bound. *)
Theorem resolve_symlink_chain_status_sound :
  ∀ (path : string) (symlinks : pydict symlink_record)
    (files : pydict file_record) (cache cache' : gmap string resolution)
    (max_depth : nat) (r : resolution),
    cache !! path = None →
    resolve_symlink_chain path symlinks files cache max_depth = Returned r cache' →
    ∃ k, k ≤ max_depth
         ∧ follow symlinks k path = Some (final_path_of r)
         ∧ status_sound symlinks files max_depth path k r.
Proof.
  intros path symlinks files cache cache' max_depth r Hcache Hres.
  unfold resolve_symlink_chain in Hres. rewrite Hcache in Hres.
  fold (initial_state path) in Hres.
  destruct (while_loop symlinks files max_depth (initial_state path)) as [r'|e] eqn:Hloop;
    [|done].
  injection Hres as -> _.
  destruct (while_loop_sound symlinks files max_depth path (initial_state path) r)
    as (_ & k & Hk & Hfol & Hs); [apply on_chain_initial | simpl; lia | done |].
  exists k. split; [lia|done].
Qed.

Lemma resolve_symlink_chain_status_sound_witness :
  ∃ k, k ≤ 20
       ∧ follow broken_symlinks k "a" = Some "b"
       ∧ status_sound broken_symlinks [] 20 "a" k ("b", true, None, Broken).
Proof.
  apply (resolve_symlink_chain_status_sound "a" broken_symlinks [] ∅
           (<["a" := ("b", true, None, Broken)]> ∅) 20 ("b", true, None, Broken));
    reflexivity.
Defined.

(** X6. A chain that comes back to a path it has passed, after [k] hops
    with [k] below the bound and without repeating a path before, resolves
    to status [cycle] at that path: cycles of any length, a symlink to
    itself among them, and cycles that do not pass the start path. *)
Theorem resolve_symlink_chain_detects_cycle :
  ∀ (path : string) (symlinks : pydict symlink_record)
    (files : pydict file_record) (cache : gmap string resolution)
    (max_depth k j : nat) (x : string),
    cache !! path = None →
    j < k → k < max_depth →
    follow symlinks k path = Some x →
    follow symlinks j path = Some x →
    (∀ i i' y, i < i' < k → follow symlinks i path = Some y →
               follow symlinks i' path ≠ Some y) →
    resolve_symlink_chain path symlinks files cache max_depth
    = Returned (x, true, None, Cycle) (<[path := (x, true, None, Cycle)]> cache).
Proof.
  intros path symlinks files cache max_depth k j x Hcache Hjk Hk Hx Hj Hdist.
  unfold resolve_symlink_chain. rewrite Hcache. fold (initial_state path).
  by rewrite (while_loop_cycle symlinks files max_depth path k j x).
Qed.

Lemma resolve_symlink_chain_detects_cycle_witness :
  resolve_symlink_chain "a" lasso_symlinks [] ∅ 20
  = Returned ("b", true, None, Cycle) (<["a" := ("b", true, None, Cycle)]> ∅).
Proof.
  apply (resolve_symlink_chain_detects_cycle "a" lasso_symlinks [] ∅ 20 3 1 "b");
    [reflexivity | lia | lia | reflexivity | reflexivity |].
  intros i i' y Hi. 
  assert ((i = 0 ∧ i' = 1) ∨ (i = 0 ∧ i' = 2) ∨ (i = 1 ∧ i' = 2)) as Hcases by lia.
  destruct Hcases as [[-> ->]|[[-> ->]|[-> ->]]]; vm_compute; congruence.
Defined.

Section ResolverCache.

Context (symlinks : pydict symlink_record) (files : pydict file_record).
Context (max_depth : nat).

(** The two ways a call returns: from the cache, or from the loop. *)
Lemma resolve_symlink_chain_cases path cache r cache' :
  resolve_symlink_chain path symlinks files cache max_depth = Returned r cache' →
  (cache !! path = Some r ∧ cache' = cache)
  ∨ (cache !! path = None
     ∧ while_loop symlinks files max_depth (initial_state path) = Ok r
     ∧ cache' = <[path := r]> cache).
Proof.
  unfold resolve_symlink_chain. fold (initial_state path).
  destruct (cache !! path) as [r0|] eqn:Hc.
  - intros [= <- <-]. by left.
  - destruct (while_loop _ _ _ _) as [r1|e]; [|done].
    intros [= <- <-]. by right.
Qed.

Lemma resolve_symlink_chain_fresh path r :
  while_loop symlinks files max_depth (initial_state path) = Ok r →
  resolve_symlink_chain path symlinks files ∅ max_depth
  = Returned r (<[path := r]> ∅).
Proof.
  intros Hr. unfold resolve_symlink_chain. fold (initial_state path).
  by rewrite lookup_empty, Hr.
Qed.

Lemma while_loop_consistent path r :
  while_loop symlinks files max_depth (initial_state path) = Ok r →
  resolution_consistent r.
Proof.
  intros Hr.
  apply (while_loop_sound symlinks files max_depth path (initial_state path) r);
    [apply on_chain_initial | simpl; lia | done].
Qed.

Lemma cache_sound_insert path r cache :
  cache_sound symlinks files max_depth cache →
  while_loop symlinks files max_depth (initial_state path) = Ok r →
  cache_sound symlinks files max_depth (<[path := r]> cache).
Proof.
  intros Hs Hr p r0. rewrite lookup_insert_Some.
  intros [[<- <-]|[_ Hp]]; [by apply resolve_symlink_chain_fresh|by apply Hs].
Qed.

Lemma cache_consistent_insert path r cache :
  cache_consistent cache → resolution_consistent r →
  cache_consistent (<[path := r]> cache).
Proof.
  intros Hc Hr p r0. rewrite lookup_insert_Some.
  intros [[_ <-]|[_ Hp]]; [done|by apply (Hc p)].
Qed.

(** A walk that reaches, below the bound and without passing a path twice,
    a path at which the body returns, returns that. *)
Lemma while_loop_end path k p r :
  k < max_depth →
  follow symlinks k path = Some p →
  (∀ i j x, i < j ≤ k → follow symlinks i path = Some x →
            follow symlinks j path ≠ Some x) →
  (∀ V, p ∉ V →
        loop_body symlinks files {| visited := V; current_path := p; depth := k |}
        = Return r) →
  while_loop symlinks files max_depth (initial_state path) = Ok r.
Proof.
  intros Hk Hp Hdist Hbody.
  destruct (while_loop_walk_to symlinks files max_depth k (initial_state path) p)
    as (V & HV & ->); simpl; [lia | done | | |].
  - intros i y _ _. apply not_elem_of_empty.
  - intros i j x Hij. apply Hdist. lia.
  - rewrite while_loop_eq. simpl.
    assert ((k <? max_depth) = true) as -> by by apply Nat.ltb_lt.
    rewrite Hbody; [done|].
    intros [Hin|(i & Hi & Hfol)]%HV; [by apply not_elem_of_empty in Hin|].
    by apply (Hdist i k p).
Qed.

End ResolverCache.

(** X7. The fields of a result agree: it is broken exactly when its status
    is not [file], and it carries a hash exactly when its status is
    [file]. This holds for a result taken from the cache as well, as long
    as the cache held such results only, and the cache the call leaves is
    again of that kind. *)
Theorem resolve_symlink_chain_fields_agree :
  ∀ (path : string) (symlinks : pydict symlink_record)
    (files : pydict file_record) (cache cache' : gmap string resolution)
    (max_depth : nat) (r : resolution),
    cache_consistent cache →
    resolve_symlink_chain path symlinks files cache max_depth = Returned r cache' →
    broken_of r = negb (bool_decide (status_of r = File))
    ∧ (is_Some (hash_of r) ↔ status_of r = File)
    ∧ cache_consistent cache'.
Proof.
  intros path symlinks files cache cache' max_depth r Hc Hres.
  apply resolve_symlink_chain_cases in Hres as [[Hhit ->]|(_ & Hloop & ->)].
  - destruct (Hc path r Hhit) as [Hb Hh]. done.
  - pose proof (while_loop_consistent _ _ _ _ _ Hloop) as Hr.
    destruct Hr as [Hb Hh]. do 2 (split; [done|]).
    by apply cache_consistent_insert.
Qed.

Lemma resolve_symlink_chain_fields_agree_witness :
  broken_of ("d/e", false, Some "H", File) = negb (bool_decide (File = File))
  ∧ (is_Some (Some "H") ↔ File = File)
  ∧ cache_consistent (<["a" := ("d/e", false, Some "H", File)]> ∅).
Proof.
  apply (resolve_symlink_chain_fields_agree "a" chain_symlinks chain_files ∅
           (<["a" := ("d/e", false, Some "H", File)]> ∅) 20
           ("d/e", false, Some "H", File)).
  - intros p r H. by rewrite lookup_empty in H.
  - reflexivity.
Defined.

(** X8. Memoisation does not change the answer. With a cache in which
    every entry is what resolving its key on an empty cache gives (with
    the same symlinks, files and bound), a call returns what it returns on
    an empty cache, raises when that raises, and leaves a cache of the same
    kind. *)
Theorem resolve_symlink_chain_cache_transparent :
  ∀ (path : string) (symlinks : pydict symlink_record)
    (files : pydict file_record) (cache : gmap string resolution)
    (max_depth : nat),
    cache_sound symlinks files max_depth cache →
    match resolve_symlink_chain path symlinks files cache max_depth with
    | Returned r cache' =>
        resolve_symlink_chain path symlinks files ∅ max_depth
        = Returned r (<[path := r]> ∅)
        ∧ cache_sound symlinks files max_depth cache'
    | Raised e =>
        resolve_symlink_chain path symlinks files ∅ max_depth = Raised e
    end.
Proof.
  intros path symlinks files cache max_depth Hs.
  unfold resolve_symlink_chain at 1. fold (initial_state path).
  destruct (cache !! path) as [r|] eqn:Hc.
  - split; [by apply Hs|done].
  - destruct (while_loop symlinks files max_depth (initial_state path))
      as [r|e] eqn:Hloop.
    + split; [by apply resolve_symlink_chain_fresh|by apply cache_sound_insert].
    + unfold resolve_symlink_chain. fold (initial_state path).
      by rewrite lookup_empty, Hloop.
Qed.

Lemma resolve_symlink_chain_cache_transparent_witness :
  resolve_symlink_chain "a" chain_symlinks chain_files ∅ 20
  = Returned ("d/e", false, Some "H", File) (<["a" := ("d/e", false, Some "H", File)]> ∅)
  ∧ cache_sound chain_symlinks chain_files 20
      (<["c" := ("d/e", false, Some "H", File)]> ∅).
Proof.
  assert (cache_sound chain_symlinks chain_files 20
            (<["c" := ("d/e", false, Some "H", File)]> ∅)) as Hs.
  { intros p r. rewrite lookup_insert_Some, lookup_empty.
    intros [[<- <-]|[_ [=]]]. reflexivity. }
  split; [|done].
  exact (proj1 (resolve_symlink_chain_cache_transparent "a" chain_symlinks chain_files
                  (<["c" := ("d/e", false, Some "H", File)]> ∅) 20 Hs)).
Defined.

(** X9. Where a chain ends decides the result. When the walk reaches,
    after [k] hops with [k] below the bound, a path at which it cannot go
    on, the result is at that path: [broken] for a symlink whose target is
    absent or empty, [file] with the hash for a path that is no symlink
    and has a hashed file record under its name without leading
    separators, [missing] for a path that is no symlink and has no such
    record. *)
Theorem resolve_symlink_chain_dead_end :
  ∀ (path : string) (symlinks : pydict symlink_record)
    (files : pydict file_record) (cache : gmap string resolution)
    (max_depth k : nat) (p : string),
    cache !! path = None →
    k < max_depth →
    follow symlinks k path = Some p →
    let returns r :=
      resolve_symlink_chain path symlinks files cache max_depth
      = Returned r (<[path := r]> cache) in
    (∀ link, Dict.get p symlinks = Some link → json_truthy (target link) = false →
             returns (p, true, None, Broken))
    ∧ (∀ h, Dict.get p symlinks = None →
            Dict.get (fix_path p) files = Some {| hash := Some h |} →
            returns (p, false, Some h, File))
    ∧ (Dict.get p symlinks = None →
       (∀ h, Dict.get (fix_path p) files ≠ Some {| hash := Some h |}) →
       returns (p, true, None, Missing)).
Proof.
  intros path symlinks files cache max_depth k p Hcache Hk Hp returns.
  assert (∀ r, hop symlinks p = None →
               (∀ V, p ∉ V →
                     loop_body symlinks files
                       {| visited := V; current_path := p; depth := k |} = Return r) →
               returns r) as Hend.
  { intros r Hhop Hbody. unfold returns, resolve_symlink_chain.
    rewrite Hcache. fold (initial_state path).
    rewrite (while_loop_end symlinks files max_depth path k p r); try done.
    intros i j x Hij. by apply (follow_ends_distinct symlinks k path p). }
  split; [|split].
  - intros link Hlink Ht. apply Hend.
    + unfold hop. rewrite Hlink. destruct link as [[]]; simpl in *; try done.
      by rewrite Ht.
    + intros V HV. unfold loop_body. simpl.
      rewrite bool_decide_eq_false_2 by done. by rewrite Hlink, Ht.
  - intros h Hns Hf. apply Hend.
    + unfold hop. by rewrite Hns.
    + intros V HV. unfold loop_body. simpl.
      rewrite bool_decide_eq_false_2 by done. by rewrite Hns, Hf.
  - intros Hns Hf. apply Hend.
    + unfold hop. by rewrite Hns.
    + intros V HV. unfold loop_body. simpl.
      rewrite bool_decide_eq_false_2 by done. rewrite Hns.
      destruct (Dict.get (fix_path p) files) as [[[h|]]|] eqn:Hget; try done.
      by destruct (Hf h).
Qed.

Lemma resolve_symlink_chain_dead_end_witness :
  resolve_symlink_chain "a" [("a", link "gone")] [] ∅ 20
  = Returned ("gone", true, None, Missing) (<["a" := ("gone", true, None, Missing)]> ∅).
Proof.
  apply (proj2 (proj2 (resolve_symlink_chain_dead_end "a" [("a", link "gone")] [] ∅
                         20 1 "gone" (lookup_empty "a") ltac:(lia) eq_refl)));
    [reflexivity|done].
Defined.

(** ** Paths along a chain *)

Section RelativePaths.

Import PyStr PosixPath.

Lemma upto_last_sep_startswith s :
  startswith_sep s = false → startswith_sep (upto_last_sep s) = false.
Proof. destruct s as [|c s]; [done|]. simpl. by destruct (is_sep c || has_sep s). Qed.

Lemma rstrip_startswith s :
  startswith_sep s = false → startswith_sep (rstrip s) = false.
Proof.
  destruct s as [|c s]; [done|]. cbn [rstrip]. by destruct (all_sep (String c s)).
Qed.

Lemma dirname_startswith p :
  startswith_sep p = false → startswith_sep (dirname p) = false.
Proof.
  intros Hp. unfold dirname.
  pose proof (upto_last_sep_startswith p Hp) as Hh.
  destruct (truthy (upto_last_sep p) && negb (all_sep (upto_last_sep p)));
    [by apply rstrip_startswith|done].
Qed.

Lemma startswith_app a b :
  startswith_sep a = false → startswith_sep b = false →
  startswith_sep (a +:+ b) = false.
Proof. destruct a as [|c a]; [done|]. by rewrite string_app_cons. Qed.

Lemma join2_startswith a b :
  startswith_sep a = false → startswith_sep b = false →
  startswith_sep (join2 a b) = false.
Proof.
  intros Ha Hb. unfold join2. rewrite Hb.
  destruct a as [|c a]; [done|]. simpl negb. cbn [orb].
  destruct (endswith_sep (String c a)); by rewrite string_app_cons.
Qed.

Lemma split_startswith s : Forall (λ c, startswith_sep c = false) (split s).
Proof.
  induction s as [|c s IH]; [by repeat constructor|]. simpl.
  destruct (is_sep c) eqn:Hc; [by constructor|].
  destruct (split s) as [|comp comps]; [by repeat constructor|].
  apply Forall_cons in IH as [_ IH]. by constructor.
Qed.

Lemma normpath_comps_proper n comps new_comps :
  Forall (λ c, startswith_sep c = false) comps →
  Forall proper_component new_comps →
  Forall proper_component (normpath_comps n comps new_comps).
Proof.
  revert new_comps. induction comps as [|comp comps IH]; intros new_comps Hc Hn.
  - simpl. by apply Forall_rev.
  - apply Forall_cons in Hc as [Hcomp Hc]. cbn [normpath_comps].
    case_bool_decide as Hempty; simpl; [by apply IH|].
    destruct (bool_decide (comp = ".")); simpl; [by apply IH|].
    match goal with |- context [if ?b then _ else _] => destruct b end.
    + apply IH; [done|]. by constructor.
    + apply IH; [done|]. destruct new_comps as [|x l]; [done|].
      by apply Forall_cons in Hn as [_ Hn].
Qed.

Lemma join_startswith comps :
  Forall proper_component comps → startswith_sep (join comps) = false.
Proof.
  destruct comps as [|c comps]; [done|].
  intros [[Hne Hc] _]%Forall_cons. cbn [join].
  destruct comps; [done|]. destruct c as [|ch c]; [done|].
  by rewrite string_app_cons.
Qed.

Lemma normpath_startswith p :
  startswith_sep p = false → startswith_sep (normpath p) = false.
Proof.
  intros Hp. unfold normpath. destruct (negb (truthy p)); [done|].
  assert (initial_slashes p = 0) as ->.
  { destruct p as [|c p]; [done|]. simpl in *. by rewrite Hp. }
  cbn [replicate String.concat]. rewrite string_app_nil_l.
  destruct (truthy _); [|done].
  apply join_startswith, normpath_comps_proper; [apply split_startswith|constructor].
Qed.

(** A hop from a path without a leading separator leads to such a path:
    an absolute target loses its leading separators, a relative one is
    joined to a directory that has none. *)
Lemma next_path_startswith current target :
  startswith_sep current = false →
  startswith_sep (next_path current target) = false.
Proof.
  intros Hc. unfold next_path.
  destruct (startswith_sep target) eqn:Ht; simpl; [apply lstrip_startswith|].
  apply normpath_startswith, join2_startswith; [by apply dirname_startswith|done].
Qed.

Lemma follow_startswith symlinks k path q :
  startswith_sep path = false → follow symlinks k path = Some q →
  startswith_sep q = false.
Proof.
  revert path. induction k as [|k IH]; intros path Hp; simpl; [by intros [= <-]|].
  destruct (hop symlinks path) as [p'|] eqn:Hhop; [|done]. simpl.
  apply IH. unfold hop in Hhop.
  destruct (Dict.get path symlinks) as [[[]]|]; try done.
  destruct (truthy s); [|done]. injection Hhop as <-.
  by apply next_path_startswith.
Qed.

End RelativePaths.

(** X10. Paths stay in the format of the state files. When the start path
    has no leading separator, neither has any path the walk reaches,
    whether the targets are absolute or relative; so the final path of a
    computed result has none, and the [fix_path] applied to it before the
    file lookup leaves it as it is. *)
Theorem resolve_symlink_chain_final_path_format :
  ∀ (path : string) (symlinks : pydict symlink_record)
    (files : pydict file_record) (cache cache' : gmap string resolution)
    (max_depth : nat) (r : resolution),
    cache !! path = None →
    PyStr.startswith_sep path = false →
    resolve_symlink_chain path symlinks files cache max_depth = Returned r cache' →
    (∀ k q, follow symlinks k path = Some q → PyStr.startswith_sep q = false)
    ∧ PyStr.startswith_sep (final_path_of r) = false
    ∧ fix_path (final_path_of r) = final_path_of r.
Proof.
  intros path symlinks files cache cache' max_depth r Hcache Hp Hres.
  assert (∀ k q, follow symlinks k path = Some q → PyStr.startswith_sep q = false)
    as Hall by (intros k q; by apply follow_startswith).
  split; [done|].
  apply resolve_symlink_chain_cases in Hres as [[Hhit _]|(_ & Hloop & _)];
    [by rewrite Hcache in Hhit|].
  destruct (while_loop_sound symlinks files max_depth path (initial_state path) r)
    as (_ & k & _ & Hfol & _); [apply on_chain_initial | simpl; lia | done |].
  pose proof (Hall k _ Hfol) as Hs. split; [done|]. by apply lstrip_no_sep.
Qed.

Lemma resolve_symlink_chain_final_path_format_witness :
  (∀ k q, follow chain_symlinks k "a" = Some q → PyStr.startswith_sep q = false)
  ∧ PyStr.startswith_sep "d/e" = false
  ∧ fix_path "d/e" = "d/e".
Proof.
  apply (resolve_symlink_chain_final_path_format "a" chain_symlinks chain_files ∅
           (<["a" := ("d/e", false, Some "H", File)]> ∅) 20
           ("d/e", false, Some "H", File)); reflexivity.
Defined.

(** ** The matcher as a loop with invariants *)

Section MatcherInvariants.

Context (set_order : list string → list string) (state1 state2 : state).

Local Abbreviation all_paths2 :=
  (set_order (Dict.keys (symlinks state2) ++ Dict.keys (files state2))).

(** A result of the matcher is what the plain loop leaves, and an
    invariant of the loop holds of it. *)
Lemma find_equivalent_symlinks_inv (P : list string → matcher_state → Prop)
    batch_size res :
  P [] (initial_matcher_state state1 state2) →
  (∀ pre path1 acc acc',
      P pre acc → path1 ∈ Dict.keys (symlinks state1) →
      match_symlink (symlinks state1) (symlinks state2) (files state1) (files state2)
        (build_normalized_path_index all_paths2) acc path1 = Ok acc' →
      P (pre ++ [path1]) acc') →
  find_equivalent_symlinks set_order state1 state2 batch_size = Ok res →
  ∃ final, P (Dict.keys (symlinks state1)) final
           ∧ res = with_store_path_mappings (mappings final) (results final).
Proof.
  intros Hinit Hstep Hres.
  destruct (decide (batch_size = 0)) as [->|Hbs]; [done|].
  rewrite find_equivalent_symlinks_flat in Hres by done.
  destruct (match_all set_order state1 state2) as [final|] eqn:Hall; [|done].
  simpl in Hres. injection Hres as <-. exists final. split; [|done].
  revert Hall. unfold match_all. by apply py_fold_ind.
Qed.

(** The candidates of a symlink of state 1 are symlinks of state 2 with
    its normalised path. *)
Lemma candidates_sound path1 path2 rest :
  filter (λ p, Dict.contains p (symlinks state2))
    (default [] (build_normalized_path_index all_paths2 !! normalize_path path1))
  = path2 :: rest →
  path2 ∈ Dict.keys (symlinks state2)
  ∧ normalize_path path2 = normalize_path path1.
Proof.
  intros Hc.
  assert (path2 ∈ filter (λ p, Dict.contains p (symlinks state2))
            (default [] (build_normalized_path_index all_paths2
                           !! normalize_path path1))) as Hin
    by (rewrite Hc; by left).
  rewrite index_lookup in Hin.
  apply list_elem_of_filter in Hin as [Hcont [Hn _]%list_elem_of_filter].
  split; [|done]. by apply dict_contains_keys, Is_true_true.
Qed.

(** With an iteration order that shows every path, a symlink of state 1
    has a candidate exactly when a symlink of state 2 has its normalised
    path. *)
Lemma candidates_nil path1 :
  (∀ l x, x ∈ set_order l ↔ x ∈ l) →
  filter (λ p, Dict.contains p (symlinks state2))
    (default [] (build_normalized_path_index all_paths2 !! normalize_path path1))
  = [] ↔ ¬ has_counterpart state2 path1.
Proof.
  intros Hso. rewrite index_lookup. unfold has_counterpart. rewrite Exists_exists.
  split.
  - intros Hnil (path2 & Hin & Hn).
    assert (path2 ∈ filter (λ p, Dict.contains p (symlinks state2))
              (filter (λ p, normalize_path p = normalize_path path1) all_paths2))
      as Hin'.
    { apply list_elem_of_filter. split; [by apply Is_true_true, dict_contains_keys|].
      apply list_elem_of_filter. split; [done|].
      apply Hso, elem_of_app. by left. }
    rewrite Hnil in Hin'. by apply elem_of_nil in Hin'.
  - intros Hno.
    destruct (filter _ (filter _ all_paths2)) as [|path2 rest] eqn:Hc; [done|].
    exfalso. apply Hno. exists path2.
    assert (path2 ∈ path2 :: rest) as Hin by by left.
    rewrite <- Hc in Hin.
    apply list_elem_of_filter in Hin as [Hcont [Hn _]%list_elem_of_filter].
    split; [|done]. by apply dict_contains_keys, Is_true_true.
Qed.

End MatcherInvariants.

Section Counters.

(** The counters of [results] are the lengths of its lists. *)
Local Abbreviation counted r :=
  (stat_matching_paths (stats r) = length (matching_paths r)
   ∧ stat_different_targets (stats r) = length (different_targets r)
   ∧ stat_identical_final_content (stats r) = length (identical_final_content r)
   ∧ stat_different_final_content (stats r) = length (different_final_content r)
   ∧ stat_broken_in_both (stats r) = length (broken_in_both r)
   ∧ stat_broken_only_in_state1 (stats r) = length (broken_only_in_state1 r)
   ∧ stat_broken_only_in_state2 (stats r) = length (broken_only_in_state2 r)).

Lemma record_match_counted m differ b r :
  counted r → counted (record_match m differ b r).
Proof.
  intros (H1 & H2 & H3 & H4 & H5 & H6 & H7). unfold record_match. cbn.
  rewrite H1, H2, H3, H4, H5, H6, H7.
  destruct differ, b; repeat (case_bool_decide; try done);
    rewrite ?length_app; cbn; repeat split; lia.
Qed.

Lemma record_match_partition m differ b r :
  length (matching_paths r)
  = length (identical_final_content r) + length (different_final_content r)
    + length (broken_in_both r) + length (broken_only_in_state1 r)
    + length (broken_only_in_state2 r) →
  length (matching_paths (record_match m differ b r))
  = length (identical_final_content (record_match m differ b r))
    + length (different_final_content (record_match m differ b r))
    + length (broken_in_both (record_match m differ b r))
    + length (broken_only_in_state1 (record_match m differ b r))
    + length (broken_only_in_state2 (record_match m differ b r)).
Proof.
  intros H. unfold record_match. cbn. rewrite length_app, H.
  destruct b; repeat (case_bool_decide; try done); rewrite ?length_app; cbn; lia.
Qed.

End Counters.

(** X11. The statistics of a result count its lists. Each counter is the
    length of the list of its name, the two totals are the numbers of
    symlinks of the two states, every matched pair is in exactly one of
    the five final lists as far as the numbers go (their lengths add up to
    that of [matching_paths]), and no more pairs are matched than state 1
    has symlinks. *)
Theorem find_equivalent_symlinks_stats :
  ∀ (set_order : list string → list string) (state1 state2 : state)
    (batch_size : nat) (res : match_results),
    find_equivalent_symlinks set_order state1 state2 batch_size = Ok res →
    let st := stats res in
    total_symlinks_state1 st = length (symlinks state1)
    ∧ total_symlinks_state2 st = length (symlinks state2)
    ∧ stat_matching_paths st = length (matching_paths res)
    ∧ stat_different_targets st = length (different_targets res)
    ∧ stat_identical_final_content st = length (identical_final_content res)
    ∧ stat_different_final_content st = length (different_final_content res)
    ∧ stat_broken_in_both st = length (broken_in_both res)
    ∧ stat_broken_only_in_state1 st = length (broken_only_in_state1 res)
    ∧ stat_broken_only_in_state2 st = length (broken_only_in_state2 res)
    ∧ length (matching_paths res)
      = length (identical_final_content res) + length (different_final_content res)
        + length (broken_in_both res) + length (broken_only_in_state1 res)
        + length (broken_only_in_state2 res)
    ∧ length (different_targets res) ≤ length (matching_paths res)
    ∧ length (matching_paths res) ≤ length (symlinks state1).
Proof.
  intros set_order state1 state2 batch_size res Hres st.
  apply (find_equivalent_symlinks_inv set_order state1 state2
           (λ pre acc,
              let r := results acc in
              (total_symlinks_state1 (stats r) = length (symlinks state1)
               ∧ total_symlinks_state2 (stats r) = length (symlinks state2))
              ∧ (stat_matching_paths (stats r) = length (matching_paths r)
                 ∧ stat_different_targets (stats r) = length (different_targets r)
                 ∧ stat_identical_final_content (stats r)
                   = length (identical_final_content r)
                 ∧ stat_different_final_content (stats r)
                   = length (different_final_content r)
                 ∧ stat_broken_in_both (stats r) = length (broken_in_both r)
                 ∧ stat_broken_only_in_state1 (stats r)
                   = length (broken_only_in_state1 r)
                 ∧ stat_broken_only_in_state2 (stats r)
                   = length (broken_only_in_state2 r))
              ∧ length (matching_paths r)
                = length (identical_final_content r)
                  + length (different_final_content r)
                  + length (broken_in_both r) + length (broken_only_in_state1 r)
                  + length (broken_only_in_state2 r)
              ∧ length (different_targets r) ≤ length (matching_paths r)
              ∧ length (matching_paths r) ≤ length pre)) in Hres
    as (final & (Htot & Hcnt & Hpart & Hdiff & Hlen) & ->).
  - unfold st. cbn in *. unfold Dict.keys in Hlen. rewrite length_fmap in Hlen.
    destruct Htot as [? ?].
    destruct Hcnt as (? & ? & ? & ? & ? & ? & ?). repeat split; done.
  - cbn. repeat split; lia.
  - intros pre path1 acc acc' (Htot & Hcnt & Hpart & Hdiff & Hlen) _ Hstep.
    apply match_symlink_inv in Hstep
      as [[_ ->]|(path2 & rest & l1 & l2 & n1 & n2 & r1 & r2 & c1 & c2
                  & _ & _ & _ & _ & _ & _ & _ & ->)].
    + cbn zeta. rewrite length_app. cbn. repeat split; try tauto; lia.
    + cbn [results]. cbn zeta.
      split; [done|]. split; [by apply record_match_counted|].
      split; [by apply record_match_partition|].
      rewrite matching_paths_record_match, !length_app. cbn [length].
      split; [|lia]. unfold record_match. cbn.
      destruct (negb _); rewrite ?length_app; cbn; lia.
Qed.

Lemma find_equivalent_symlinks_stats_witness :
  ∃ res,
    find_equivalent_symlinks remove_dups two_builds_state two_builds_state
      default_batch_size = Ok res
    ∧ stat_matching_paths (stats res) = length (matching_paths res)
    ∧ length (matching_paths res) ≤ length (symlinks two_builds_state).
Proof.
  eexists. split; [vm_compute; reflexivity|].
  pose proof (find_equivalent_symlinks_stats remove_dups two_builds_state
                two_builds_state default_batch_size _ eq_refl) as H.
  cbv zeta in H. split; [apply H|]. apply H.
Defined.

Section Buckets.

Lemma put_filter (P : path_match → Prop) `{!∀ m, Decision (P m)}
    (c : bool) l ms m :
  l = filter P ms → (P m ↔ c = true) →
  (if c then l ++ [m] else l) = filter P (ms ++ [m]).
Proof.
  intros -> HP. rewrite filter_app, filter_cons, filter_nil.
  destruct c.
  - rewrite decide_True; [done|]. by apply HP.
  - rewrite decide_False; [by rewrite app_nil_r|]. intros ?%HP. done.
Qed.

Lemma bucket_of_make_match path1 path2 target1 target2 r1 r2 :
  bucket_of (make_match path1 path2 target1 target2 r1 r2)
  = classify (broken_of r1) (broken_of r2) (hash_of r1) (hash_of r2).
Proof. done. Qed.

Lemma resolution1_make_match path1 path2 target1 target2 r1 r2 :
  resolution1 (make_match path1 path2 target1 target2 r1 r2) = r1.
Proof. by destruct r1 as [[[??]?]?]. Qed.

Lemma resolution2_make_match path1 path2 target1 target2 r1 r2 :
  resolution2 (make_match path1 path2 target1 target2 r1 r2) = r2.
Proof. by destruct r2 as [[[??]?]?]. Qed.

Lemma classify_inv b1 b2 h1 h2 :
  match classify b1 b2 h1 h2 with
  | BrokenInBoth => b1 = true ∧ b2 = true
  | BrokenOnlyInState1 => b1 = true ∧ b2 = false
  | BrokenOnlyInState2 => b1 = false ∧ b2 = true
  | IdenticalFinalContent => b1 = false ∧ b2 = false ∧ h1 = h2
  | DifferentFinalContent => b1 = false ∧ b2 = false ∧ h1 ≠ h2
  end.
Proof. unfold classify. destruct b1, b2; simpl; try done. by case_bool_decide. Qed.

Lemma consistent_broken r :
  resolution_consistent r →
  (broken_of r = false → status_of r = File ∧ ∃ h, hash_of r = Some h)
  ∧ (broken_of r = true → status_of r ≠ File ∧ hash_of r = None).
Proof.
  intros [Hb Hh]. rewrite Hb. split.
  - intros Hs%negb_false_iff%bool_decide_eq_true. split; [done|]. by apply Hh.
  - intros Hs%negb_true_iff%bool_decide_eq_false. split; [done|].
    destruct (hash_of r) eqn:E; [|done]. exfalso. apply Hs, Hh. eauto.
Qed.

End Buckets.

(** X12. The lists of a result are selections from [matching_paths], in
    its order: each of the five final lists holds the matched pairs whose
    resolved fields select its branch of the final [if]/[elif] chain, and
    [different_targets] holds those whose two direct targets differ once
    normalised. So the five final lists are disjoint and cover the matched
    pairs. *)
Theorem find_equivalent_symlinks_lists :
  ∀ (set_order : list string → list string) (state1 state2 : state)
    (batch_size : nat) (res : match_results),
    find_equivalent_symlinks set_order state1 state2 batch_size = Ok res →
    let selected b := filter (λ m, bucket_of m = b) (matching_paths res) in
    broken_in_both res = selected BrokenInBoth
    ∧ broken_only_in_state1 res = selected BrokenOnlyInState1
    ∧ broken_only_in_state2 res = selected BrokenOnlyInState2
    ∧ identical_final_content res = selected IdenticalFinalContent
    ∧ different_final_content res = selected DifferentFinalContent
    ∧ different_targets res
      = filter (λ m, normalize_target (state1_target m)
                     ≠ normalize_target (state2_target m))
               (matching_paths res).
Proof.
  intros set_order state1 state2 batch_size res Hres selected.
  apply (find_equivalent_symlinks_inv set_order state1 state2
           (λ _ acc,
              let r := results acc in
              let selected b := filter (λ m, bucket_of m = b) (matching_paths r) in
              broken_in_both r = selected BrokenInBoth
              ∧ broken_only_in_state1 r = selected BrokenOnlyInState1
              ∧ broken_only_in_state2 r = selected BrokenOnlyInState2
              ∧ identical_final_content r = selected IdenticalFinalContent
              ∧ different_final_content r = selected DifferentFinalContent
              ∧ different_targets r
                = filter (λ m, normalize_target (state1_target m)
                               ≠ normalize_target (state2_target m))
                         (matching_paths r))) in Hres
    as (final & Hinv & ->); [done|done|].
  intros pre path1 acc acc' (H1 & H2 & H3 & H4 & H5 & H6) _ Hstep.
  apply match_symlink_inv in Hstep
    as [[_ ->]|(path2 & rest & l1 & l2 & n1 & n2 & r1 & r2 & c1 & c2
                & _ & _ & _ & Hn1 & Hn2 & _ & _ & ->)]; [done|].
  cbn [results]. cbn zeta. unfold record_match.
  cbn [matching_paths broken_in_both broken_only_in_state1 broken_only_in_state2
       identical_final_content different_final_content different_targets].
  repeat split;
    try (apply put_filter; [done|];
         rewrite bucket_of_make_match, bool_decide_eq_true; done).
  apply put_filter; [done|]. cbn [make_match state1_target state2_target].
  rewrite Hn1, Hn2, negb_true_iff, bool_decide_eq_false.
  split; [intros H ->; by apply H|intros H [= ->]; by apply H].
Qed.

Lemma find_equivalent_symlinks_lists_witness :
  ∃ res,
    find_equivalent_symlinks remove_dups two_builds_state two_builds_state
      default_batch_size = Ok res
    ∧ different_final_content res
      = filter (λ m, bucket_of m = DifferentFinalContent) (matching_paths res).
Proof.
  eexists. split; [vm_compute; reflexivity|].
  pose proof (find_equivalent_symlinks_lists remove_dups two_builds_state
                two_builds_state default_batch_size _ eq_refl) as H.
  cbv zeta in H. apply H.
Defined.

(** X13. Every matched pair is real. Its two paths are symlinks of state 1
    and of state 2, they have the same normalised path, and the two
    targets recorded are the targets of those symlinks. *)
Theorem find_equivalent_symlinks_pairs_sound :
  ∀ (set_order : list string → list string) (state1 state2 : state)
    (batch_size : nat) (res : match_results) (m : path_match),
    find_equivalent_symlinks set_order state1 state2 batch_size = Ok res →
    m ∈ matching_paths res →
    normalize_path (state1_path m) = normalize_path (state2_path m)
    ∧ (∃ link1, Dict.get (state1_path m) (symlinks state1) = Some link1
                ∧ state1_target m = target link1)
    ∧ (∃ link2, Dict.get (state2_path m) (symlinks state2) = Some link2
                ∧ state2_target m = target link2).
Proof.
  intros set_order state1 state2 batch_size res m Hres.
  apply (find_equivalent_symlinks_inv set_order state1 state2
           (λ _ acc,
              ∀ m, m ∈ matching_paths (results acc) →
                   normalize_path (state1_path m) = normalize_path (state2_path m)
                   ∧ (∃ link1, Dict.get (state1_path m) (symlinks state1) = Some link1
                               ∧ state1_target m = target link1)
                   ∧ (∃ link2, Dict.get (state2_path m) (symlinks state2) = Some link2
                               ∧ state2_target m = target link2))) in Hres
    as (final & Hinv & ->); [by apply Hinv| |].
  - intros m' Hin. by apply elem_of_nil in Hin.
  - intros pre path1 acc acc' IH _ Hstep m'.
    apply match_symlink_inv in Hstep
      as [[_ ->]|(path2 & rest & l1 & l2 & n1 & n2 & r1 & r2 & c1 & c2
                  & Hc & Hl1 & Hl2 & _ & _ & _ & _ & ->)]; [by apply IH|].
    cbn [results]. rewrite matching_paths_record_match.
    intros [Hold| ->%list_elem_of_singleton]%elem_of_app; [by apply IH|].
    apply candidates_sound in Hc as [_ Hn].
    cbn [make_match state1_path state2_path state1_target state2_target].
    split; [done|]. split; eauto.
Qed.

Lemma find_equivalent_symlinks_pairs_sound_witness :
  ∃ res m,
    find_equivalent_symlinks remove_dups one_package_state two_packages_state
      default_batch_size = Ok res
    ∧ m ∈ matching_paths res
    ∧ normalize_path (state1_path m) = normalize_path (state2_path m).
Proof.
  eexists _, _. split; [vm_compute; reflexivity|]. split; [by left|].
  refine (proj1 (find_equivalent_symlinks_pairs_sound remove_dups one_package_state
                   two_packages_state default_batch_size _ _ eq_refl _)).
  by left.
Defined.

(** X14. Which symlinks are matched. When iterating over the set of the
    paths of state 2 shows each of them, the state-1 paths of the matched
    pairs are the symlinks of state 1 for which some symlink of state 2
    has the same normalised path, each as often and in the order in which
    the symlinks of state 1 are listed. A file of state 2 with that
    normalised path does not make a match. *)
Theorem find_equivalent_symlinks_matched_paths :
  ∀ (set_order : list string → list string) (state1 state2 : state)
    (batch_size : nat) (res : match_results),
    set_order_ok set_order →
    find_equivalent_symlinks set_order state1 state2 batch_size = Ok res →
    state1_path <$> matching_paths res
    = filter (has_counterpart state2) (Dict.keys (symlinks state1)).
Proof.
  intros set_order state1 state2 batch_size res Hok Hres.
  assert (∀ l x, x ∈ set_order l ↔ x ∈ l) as Hso by (intros l; apply Hok).
  apply (find_equivalent_symlinks_inv set_order state1 state2
           (λ pre acc,
              state1_path <$> matching_paths (results acc)
              = filter (has_counterpart state2) pre)) in Hres
    as (final & Hinv & ->); [done|done|].
  intros pre path1 acc acc' IH _ Hstep.
  rewrite filter_app, filter_cons, filter_nil.
  apply match_symlink_inv in Hstep
    as [[Hc ->]|(path2 & rest & l1 & l2 & n1 & n2 & r1 & r2 & c1 & c2
                & Hc & _ & _ & _ & _ & _ & _ & ->)].
  - apply (candidates_nil set_order state2 path1 Hso) in Hc.
    rewrite decide_False by done. by rewrite app_nil_r.
  - rewrite decide_True.
    + cbn [results]. by rewrite matching_paths_record_match, fmap_app, IH.
    + destruct (decide (has_counterpart state2 path1)) as [|Hno]; [done|].
      apply (candidates_nil set_order state2 path1 Hso) in Hno.
      by rewrite Hno in Hc.
Qed.

Lemma find_equivalent_symlinks_matched_paths_witness :
  ∃ res,
    find_equivalent_symlinks remove_dups one_package_state two_packages_state
      default_batch_size = Ok res
    ∧ state1_path <$> matching_paths res
      = filter (has_counterpart two_packages_state)
               (Dict.keys (symlinks one_package_state)).
Proof.
  eexists. split; [vm_compute; reflexivity|].
  apply (find_equivalent_symlinks_matched_paths remove_dups one_package_state
           two_packages_state default_batch_size _ remove_dups_ok).
  vm_compute. reflexivity.
Defined.

Section MatcherResolutions.

Context (state1 state2 : state).

(** What the two caches of the matcher hold at every point of the loop. *)
Local Abbreviation caches_sound acc :=
  (cache_sound (symlinks state1) (files state1) default_max_depth (resolve_cache1 acc)
   ∧ cache_sound (symlinks state2) (files state2) default_max_depth
       (resolve_cache2 acc)).

Lemma resolve_symlink_chain_sound_cache path symlinks files cache max_depth r cache' :
  cache_sound symlinks files max_depth cache →
  resolve_symlink_chain path symlinks files cache max_depth = Returned r cache' →
  resolve_symlink_chain path symlinks files ∅ max_depth = Returned r (<[path := r]> ∅)
  ∧ cache_sound symlinks files max_depth cache'.
Proof.
  intros Hs [[Hhit ->]|(_ & Hloop & ->)]%resolve_symlink_chain_cases.
  - split; [by apply Hs|done].
  - split; [by apply resolve_symlink_chain_fresh|by apply cache_sound_insert].
Qed.

Lemma fresh_resolution_consistent path symlinks files max_depth r cache' :
  resolve_symlink_chain path symlinks files ∅ max_depth = Returned r cache' →
  resolution_consistent r.
Proof.
  intros [[Hhit _]|(_ & Hloop & _)]%resolve_symlink_chain_cases;
    [by rewrite lookup_empty in Hhit|].
  by apply (while_loop_consistent symlinks files max_depth path).
Qed.

(** The resolutions a matched pair carries are those of its two paths. *)
Lemma matcher_resolutions_fresh set_order batch_size res m :
  find_equivalent_symlinks set_order state1 state2 batch_size = Ok res →
  m ∈ matching_paths res →
  resolve_symlink_chain (state1_path m) (symlinks state1) (files state1) ∅
    default_max_depth
  = Returned (resolution1 m) (<[state1_path m := resolution1 m]> ∅)
  ∧ resolve_symlink_chain (state2_path m) (symlinks state2) (files state2) ∅
      default_max_depth
    = Returned (resolution2 m) (<[state2_path m := resolution2 m]> ∅).
Proof.
  intros Hres.
  apply (find_equivalent_symlinks_inv set_order state1 state2
           (λ _ acc,
              caches_sound acc
              ∧ ∀ m, m ∈ matching_paths (results acc) →
                     resolve_symlink_chain (state1_path m) (symlinks state1)
                       (files state1) ∅ default_max_depth
                     = Returned (resolution1 m) (<[state1_path m := resolution1 m]> ∅)
                     ∧ resolve_symlink_chain (state2_path m) (symlinks state2)
                         (files state2) ∅ default_max_depth
                       = Returned (resolution2 m)
                                  (<[state2_path m := resolution2 m]> ∅))) in Hres
    as (final & [_ Hinv] & ->); [by apply Hinv| |].
  - split; [split; intros p r H; cbn in H; by rewrite lookup_empty in H|].
    intros m' Hin. by apply elem_of_nil in Hin.
  - intros pre path1 acc acc' [[Hs1 Hs2] IH] _ Hstep.
    apply match_symlink_inv in Hstep
      as [[_ ->]|(path2 & rest & l1 & l2 & n1 & n2 & r1 & r2 & c1 & c2
                  & _ & _ & _ & _ & _ & Hr1 & Hr2 & ->)]; [done|].
    apply (resolve_symlink_chain_sound_cache _ _ _ _ _ _ _ Hs1) in Hr1 as [Hf1 Hs1'].
    apply (resolve_symlink_chain_sound_cache _ _ _ _ _ _ _ Hs2) in Hr2 as [Hf2 Hs2'].
    cbn [results resolve_cache1 resolve_cache2]. split; [done|].
    intros m'. rewrite matching_paths_record_match.
    intros [Hold| ->%list_elem_of_singleton]%elem_of_app; [by apply IH|].
    rewrite resolution1_make_match, resolution2_make_match.
    cbn [make_match state1_path state2_path]. done.
Qed.

End MatcherResolutions.

(** X15. The caches of the matcher do not change what a pair shows. The
    final path, broken flag, hash and status recorded for each side of a
    matched pair are what [resolve_symlink_chain] returns for that path on
    its own, with an empty cache and the default bound, in the symlinks
    and files of its state. *)
Theorem find_equivalent_symlinks_resolutions :
  ∀ (set_order : list string → list string) (state1 state2 : state)
    (batch_size : nat) (res : match_results) (m : path_match),
    find_equivalent_symlinks set_order state1 state2 batch_size = Ok res →
    m ∈ matching_paths res →
    resolve_symlink_chain (state1_path m) (symlinks state1) (files state1) ∅
      default_max_depth
    = Returned (state1_final_path m, state1_broken m, state1_final_hash m,
                state1_status m)
               (<[state1_path m := resolution1 m]> ∅)
    ∧ resolve_symlink_chain (state2_path m) (symlinks state2) (files state2) ∅
        default_max_depth
      = Returned (state2_final_path m, state2_broken m, state2_final_hash m,
                  state2_status m)
                 (<[state2_path m := resolution2 m]> ∅).
Proof.
  intros set_order state1 state2 batch_size res m Hres Hm.
  by apply (matcher_resolutions_fresh state1 state2 set_order batch_size res).
Qed.

Lemma find_equivalent_symlinks_resolutions_witness :
  ∃ res m,
    find_equivalent_symlinks remove_dups two_builds_state two_builds_state
      default_batch_size = Ok res
    ∧ m ∈ matching_paths res
    ∧ resolve_symlink_chain (state1_path m) (symlinks two_builds_state)
        (files two_builds_state) ∅ default_max_depth
      = Returned (state1_final_path m, state1_broken m, state1_final_hash m,
                  state1_status m)
                 (<[state1_path m := resolution1 m]> ∅).
Proof.
  eexists _, _. split; [vm_compute; reflexivity|]. split; [by left|].
  refine (proj1 (find_equivalent_symlinks_resolutions remove_dups two_builds_state
                   two_builds_state default_batch_size _ _ eq_refl _)).
  by left.
Defined.

(** X16. What the five final lists mean. A pair in
    [identical_final_content] has both chains ending at a file, status
    [file] on both sides, with one and the same hash; a pair in
    [different_final_content] has both chains ending at files with two
    different hashes. A pair in [broken_in_both] has status [file] on
    neither side and no hash; a pair broken on one side only has status
    [file] on the other side and not on this one. Two chains that both
    fail are never counted as identical. *)
Theorem find_equivalent_symlinks_buckets_meaning :
  ∀ (set_order : list string → list string) (state1 state2 : state)
    (batch_size : nat) (res : match_results) (m : path_match),
    find_equivalent_symlinks set_order state1 state2 batch_size = Ok res →
    (m ∈ identical_final_content res →
     state1_status m = File ∧ state2_status m = File
     ∧ ∃ h, state1_final_hash m = Some h ∧ state2_final_hash m = Some h)
    ∧ (m ∈ different_final_content res →
       state1_status m = File ∧ state2_status m = File
       ∧ ∃ h1 h2, state1_final_hash m = Some h1 ∧ state2_final_hash m = Some h2
                  ∧ h1 ≠ h2)
    ∧ (m ∈ broken_in_both res →
       state1_status m ≠ File ∧ state2_status m ≠ File
       ∧ state1_final_hash m = None ∧ state2_final_hash m = None)
    ∧ (m ∈ broken_only_in_state1 res →
       state1_status m ≠ File ∧ state2_status m = File)
    ∧ (m ∈ broken_only_in_state2 res →
       state1_status m = File ∧ state2_status m ≠ File).
Proof.
  intros set_order state1 state2 batch_size res m Hres.
  assert (∀ b, m ∈ filter (λ m, bucket_of m = b) (matching_paths res) →
               bucket_of m = b
               ∧ resolution_consistent (resolution1 m)
               ∧ resolution_consistent (resolution2 m)) as Hin.
  { intros b [Hb Hm]%list_elem_of_filter. split; [done|].
    destruct (matcher_resolutions_fresh state1 state2 set_order batch_size res m
                Hres Hm) as [H1 H2].
    split; eapply fresh_resolution_consistent; eauto. }
  assert (∃ final,
            res = with_store_path_mappings (mappings final) (results final)
            ∧ let r := results final in
              let selected b := filter (λ m, bucket_of m = b) (matching_paths r) in
              broken_in_both r = selected BrokenInBoth
              ∧ broken_only_in_state1 r = selected BrokenOnlyInState1
              ∧ broken_only_in_state2 r = selected BrokenOnlyInState2
              ∧ identical_final_content r = selected IdenticalFinalContent
              ∧ different_final_content r = selected DifferentFinalContent)
    as (final & -> & H1 & H2 & H3 & H4 & H5).
  { apply (find_equivalent_symlinks_inv set_order state1 state2
             (λ _ acc,
                let r := results acc in
                let selected b := filter (λ m, bucket_of m = b) (matching_paths r) in
                broken_in_both r = selected BrokenInBoth
                ∧ broken_only_in_state1 r = selected BrokenOnlyInState1
                ∧ broken_only_in_state2 r = selected BrokenOnlyInState2
                ∧ identical_final_content r = selected IdenticalFinalContent
                ∧ different_final_content r = selected DifferentFinalContent))
      in Hres as (final & Hinv & ->); [by exists final|done|].
    intros pre path1 acc acc' (H1 & H2 & H3 & H4 & H5) _ Hstep.
    apply match_symlink_inv in Hstep
      as [[_ ->]|(path2 & rest & l1 & l2 & n1 & n2 & r1 & r2 & c1 & c2
                  & _ & _ & _ & _ & _ & _ & _ & ->)]; [done|].
    cbn [results]. cbn zeta. unfold record_match.
    cbn [matching_paths broken_in_both broken_only_in_state1 broken_only_in_state2
         identical_final_content different_final_content].
    repeat split; apply put_filter; try done;
      rewrite bucket_of_make_match, bool_decide_eq_true; done. }
  cbn [with_store_path_mappings identical_final_content different_final_content
       broken_in_both broken_only_in_state1 broken_only_in_state2 matching_paths]
    in *.
  rewrite H1, H2, H3, H4, H5.
  pose proof (classify_inv (state1_broken m) (state2_broken m)
                (state1_final_hash m) (state2_final_hash m)) as Hcl.
  fold (bucket_of m) in Hcl.
  pose proof (consistent_broken (resolution1 m)) as Hr1.
  pose proof (consistent_broken (resolution2 m)) as Hr2.
  cbn [resolution1 resolution2 broken_of hash_of status_of fst snd] in Hr1, Hr2.
  split; [|split; [|split; [|split]]];
    intros (Hb & Hc1 & Hc2)%Hin; rewrite Hb in Hcl;
    destruct (Hr1 Hc1) as [Hf1 Hn1], (Hr2 Hc2) as [Hf2 Hn2].
  - destruct Hcl as (Hb1 & Hb2 & Heq).
    destruct (Hf1 Hb1) as [Hs1 [h Hh]], (Hf2 Hb2) as [Hs2 _].
    do 2 (split; [done|]). exists h. split; [done|]. by rewrite <- Heq.
  - destruct Hcl as (Hb1 & Hb2 & Hne).
    destruct (Hf1 Hb1) as [Hs1 [h1 Hh1]], (Hf2 Hb2) as [Hs2 [h2 Hh2]].
    do 2 (split; [done|]). exists h1, h2. do 2 (split; [done|]).
    intros ->. apply Hne. by rewrite Hh1, Hh2.
  - destruct Hcl as (Hb1 & Hb2).
    destruct (Hn1 Hb1) as [Hs1 Hh1], (Hn2 Hb2) as [Hs2 Hh2]. done.
  - destruct Hcl as (Hb1 & Hb2).
    destruct (Hn1 Hb1) as [Hs1 _], (Hf2 Hb2) as [Hs2 _]. done.
  - destruct Hcl as (Hb1 & Hb2).
    destruct (Hf1 Hb1) as [Hs1 _], (Hn2 Hb2) as [Hs2 _]. done.
Qed.

Lemma find_equivalent_symlinks_buckets_meaning_witness :
  ∃ res m,
    find_equivalent_symlinks remove_dups two_builds_state two_builds_state
      default_batch_size = Ok res
    ∧ m ∈ different_final_content res
    ∧ state1_status m = File ∧ state2_status m = File
    ∧ ∃ h1 h2, state1_final_hash m = Some h1 ∧ state2_final_hash m = Some h2
               ∧ h1 ≠ h2.
Proof.
  eexists _, _. split; [vm_compute; reflexivity|].
  assert (∀ A (x : A), x ∈ [x]) as Hin by (intros; by left).
  split; [apply Hin|].
  refine (proj1 (proj2 (find_equivalent_symlinks_buckets_meaning remove_dups
                          two_builds_state two_builds_state default_batch_size
                          _ _ eq_refl)) _).
  apply Hin.
Defined.

(** ** Exceptions of the matcher *)

Section MatcherExceptions.

Lemma while_loop_exc symlinks files max_depth st e :
  while_loop symlinks files max_depth st = Exc e → e = AttributeError.
Proof.
  remember (max_depth - depth st) as n eqn:Hn.
  revert st Hn. induction n as [|n IH]; intros st Hn; rewrite while_loop_eq.
  - assert ((depth st <? max_depth) = false) as -> by (apply Nat.ltb_ge; lia). done.
  - destruct (depth st <? max_depth) eqn:Hlt; [|done].
    destruct (loop_body symlinks files st) as [r|e'|st'] eqn:Hb; [done| |].
    + intros [= <-]. unfold loop_body in Hb.
      repeat (case_match; simplify_eq/=); done.
    + apply IH. apply loop_body_depth in Hb. apply Nat.ltb_lt in Hlt. lia.
Qed.

Lemma resolve_symlink_chain_exc path symlinks files cache max_depth e :
  resolve_symlink_chain path symlinks files cache max_depth = Raised e →
  e = AttributeError.
Proof.
  unfold resolve_symlink_chain. destruct (cache !! path); [done|].
  destruct (while_loop _ _ _ _) as [r|e'] eqn:Hloop; [done|].
  intros [= <-]. by apply while_loop_exc in Hloop.
Qed.

Lemma normalize_target_exc t e : normalize_target t = Exc e → e = AttributeError.
Proof.
  unfold normalize_target. destruct (json_truthy t); [|done].
  destruct t; try done; by intros [= <-].
Qed.

Lemma py_fold_exc {A S} (body : S → A → py S) init l e :
  py_fold body init l = Exc e → ∃ acc x, x ∈ l ∧ body acc x = Exc e.
Proof.
  revert init. induction l as [|x l IH]; intros init; [done|]. simpl.
  destruct (body init x) as [acc1|e'] eqn:Hb; simpl.
  - intros (acc & y & Hy & Hbody)%IH. exists acc, y. split; [by right|done].
  - intros [= <-]. exists init, x. split; [by left|done].
Qed.

(** A step of the loop on a symlink of state 1 finds both records: the
    only exception it can raise is the one of a target that is no string. *)
Lemma match_symlink_exc symlinks1 symlinks2 files1 files2 path_index2 acc path1 e :
  path1 ∈ Dict.keys symlinks1 →
  match_symlink symlinks1 symlinks2 files1 files2 path_index2 acc path1 = Exc e →
  e = AttributeError.
Proof.
  intros Hin. unfold match_symlink.
  destruct (filter _ _) as [|path2 rest] eqn:Hc; [done|].
  assert (path2 ∈ path2 :: rest) as Hin2 by by left.
  rewrite <- Hc in Hin2. apply list_elem_of_filter in Hin2 as [Hcont _].
  apply Is_true_true, dict_contains_keys in Hcont.
  destruct (dict_get_key _ _ Hin) as [link1 Hl1].
  destruct (dict_get_key _ _ Hcont) as [link2 Hl2].
  unfold subscript. rewrite Hl1, Hl2. simpl.
  destruct (normalize_target (target link1)) as [n1|e1] eqn:Hn1; simpl;
    [|intros [= <-]; by apply normalize_target_exc in Hn1].
  destruct (normalize_target (target link2)) as [n2|e2] eqn:Hn2; simpl;
    [|intros [= <-]; by apply normalize_target_exc in Hn2].
  unfold resolve_step.
  destruct (resolve_symlink_chain path1 _ _ _ _) as [r1 c1|e1] eqn:Hr1; simpl;
    [|intros [= <-]; by apply resolve_symlink_chain_exc in Hr1].
  destruct (resolve_symlink_chain path2 _ _ _ _) as [r2 c2|e2] eqn:Hr2; simpl;
    [done|intros [= <-]; by apply resolve_symlink_chain_exc in Hr2].
Qed.

(** With all targets strings or null, a step goes through. *)
Lemma match_symlink_ok symlinks1 symlinks2 files1 files2 path_index2 acc path1 :
  targets_well_typed symlinks1 → targets_well_typed symlinks2 →
  path1 ∈ Dict.keys symlinks1 →
  ∃ acc',
    match_symlink symlinks1 symlinks2 files1 files2 path_index2 acc path1 = Ok acc'.
Proof.
  intros Hwt1 Hwt2 Hin.
  destruct (match_symlink symlinks1 symlinks2 files1 files2 path_index2 acc path1)
    as [acc'|e] eqn:Hstep; [eauto|]. exfalso.
  revert Hstep. unfold match_symlink.
  destruct (filter _ _) as [|path2 rest] eqn:Hc; [done|].
  assert (path2 ∈ path2 :: rest) as Hin2 by by left.
  rewrite <- Hc in Hin2. apply list_elem_of_filter in Hin2 as [Hcont _].
  apply Is_true_true, dict_contains_keys in Hcont.
  destruct (dict_get_key _ _ Hin) as [link1 Hl1].
  destruct (dict_get_key _ _ Hcont) as [link2 Hl2].
  unfold subscript. rewrite Hl1, Hl2. simpl.
  destruct (normalize_target_ok _ _ _ Hwt1 Hl1) as [n1 ->].
  destruct (normalize_target_ok _ _ _ Hwt2 Hl2) as [n2 ->]. simpl.
  unfold resolve_step.
  destruct (resolve_symlink_chain_returns path1 symlinks1 files1
              (resolve_cache1 acc) default_max_depth Hwt1) as (r1 & c1 & ->).
  destruct (resolve_symlink_chain_returns path2 symlinks2 files2
              (resolve_cache2 acc) default_max_depth Hwt2) as (r2 & c2 & ->).
  done.
Qed.

End MatcherExceptions.

(** X17. The exceptions of the matcher. It raises [ZeroDivisionError]
    exactly when the batch size is zero, and it never raises [KeyError]:
    the two subscripts [symlinks1[path1]] and [symlinks2[path2]] always
    find their key. What is left is the [AttributeError] of a target that
    is neither a string nor false. *)
Theorem find_equivalent_symlinks_exceptions :
  ∀ (set_order : list string → list string) (state1 state2 : state)
    (batch_size : nat),
    (find_equivalent_symlinks set_order state1 state2 batch_size
     = Exc ZeroDivisionError ↔ batch_size = 0)
    ∧ find_equivalent_symlinks set_order state1 state2 batch_size ≠ Exc KeyError.
Proof.
  intros set_order state1 state2 batch_size.
  destruct (decide (batch_size = 0)) as [->|Hbs]; [by split|].
  assert (∀ e, find_equivalent_symlinks set_order state1 state2 batch_size = Exc e →
               e = AttributeError) as Hexc.
  { intros e. rewrite find_equivalent_symlinks_flat by done.
    destruct (match_all set_order state1 state2) as [final|e'] eqn:Hall; [done|].
    intros [= <-]. unfold match_all in Hall.
    apply py_fold_exc in Hall as (acc & path1 & Hin & Hstep).
    by apply match_symlink_exc in Hstep. }
  split; [split; [|done]|]; by intros ?%Hexc.
Qed.

(** X18. When every target in the two states is a string or null, as the
    capture script writes them, and the batch size is positive, the
    matcher returns a result. *)
Theorem find_equivalent_symlinks_returns :
  ∀ (set_order : list string → list string) (state1 state2 : state)
    (batch_size : nat),
    targets_well_typed (symlinks state1) →
    targets_well_typed (symlinks state2) →
    batch_size ≠ 0 →
    ∃ res, find_equivalent_symlinks set_order state1 state2 batch_size = Ok res.
Proof.
  intros set_order state1 state2 batch_size Hwt1 Hwt2 Hbs.
  rewrite find_equivalent_symlinks_flat by done. unfold match_all.
  destruct (py_fold_ok (λ _, True)
              (match_symlink (symlinks state1) (symlinks state2) (files state1)
                 (files state2)
                 (build_normalized_path_index
                    (set_order (Dict.keys (symlinks state2)
                                ++ Dict.keys (files state2)))))
              {| results := empty_results (symlinks state1) (symlinks state2);
                 mappings := [];
                 resolve_cache1 := ∅;
                 resolve_cache2 := ∅ |}
              (Dict.keys (symlinks state1)) I) as [final ->].
  - intros x acc _ Hx.
    destruct (match_symlink_ok (symlinks state1) (symlinks state2) (files state1)
                (files state2)
                (build_normalized_path_index
                   (set_order (Dict.keys (symlinks state2)
                               ++ Dict.keys (files state2))))
                acc x Hwt1 Hwt2 Hx) as [acc' ->].
    eauto.
  - simpl. eauto.
Qed.

Lemma find_equivalent_symlinks_returns_witness :
  ∃ res,
    find_equivalent_symlinks remove_dups one_package_state two_packages_state 1
    = Ok res.
Proof.
  assert (∀ st, Forall (λ kv, ∃ s, target kv.2 = JStr s) (symlinks st) →
                targets_well_typed (symlinks st)) as Hwt.
  { intros st Hall p r Hget%dict_get_elem _.
    rewrite Forall_forall in Hall. apply (Hall (p, r) Hget). }
  apply (find_equivalent_symlinks_returns remove_dups one_package_state
           two_packages_state 1).
  - apply Hwt. repeat constructor; by eexists.
  - apply Hwt. repeat constructor; by eexists.
  - lia.
Defined.

(** X19. Batching is invisible. With any two positive batch sizes the
    matcher gives the same result, or raises the same exception: the
    lists, their order, the counters and the store-path mappings do not
    depend on how the symlinks of state 1 are cut into batches. *)
Theorem find_equivalent_symlinks_batch_size :
  ∀ (set_order : list string → list string) (state1 state2 : state)
    (batch_size batch_size' : nat),
    batch_size ≠ 0 → batch_size' ≠ 0 →
    find_equivalent_symlinks set_order state1 state2 batch_size
    = find_equivalent_symlinks set_order state1 state2 batch_size'.
Proof.
  intros set_order state1 state2 batch_size batch_size' Hbs Hbs'.
  by rewrite !find_equivalent_symlinks_flat.
Qed.

Lemma find_equivalent_symlinks_batch_size_witness :
  find_equivalent_symlinks remove_dups one_package_state two_packages_state 1
  = find_equivalent_symlinks remove_dups one_package_state two_packages_state
      default_batch_size.
Proof.
  apply (find_equivalent_symlinks_batch_size remove_dups one_package_state
           two_packages_state 1 default_batch_size); [lia|done].
Defined.

(** ** The numbers of the analyser *)

Section AnalyserCounts.

Lemma dict_contains_not_key {V} k (d : pydict V) :
  k ∉ Dict.keys d → Dict.contains k d = false.
Proof. intros H. unfold Dict.contains. by rewrite dict_get_not_key. Qed.

Lemma dict_length_keys {V} (d : pydict V) : length (Dict.keys d) = length d.
Proof. unfold Dict.keys. apply length_fmap. Qed.

Lemma dict_set_length {V} k (v : V) d :
  length (Dict.set k v d) = if Dict.contains k d then length d else S (length d).
Proof.
  rewrite <- !dict_length_keys, dict_keys_set.
  destruct (Dict.contains k d); [done|]. rewrite length_app. simpl. lia.
Qed.

Lemma dict_key_get {V} k (d : pydict V) : k ∈ Dict.keys d ↔ is_Some (Dict.get k d).
Proof.
  split; [apply dict_get_key|]. intros [v Hv%dict_get_elem].
  apply list_elem_of_fmap. by exists (k, v).
Qed.

Lemma add_package_mapping_length pm item :
  length (add_package_mapping pm item) ≤ S (length pm).
Proof.
  destruct item as [path1 path2]. unfold add_package_mapping.
  destruct (Re.search Re.match_package path1) as [p1|]; [|lia].
  destruct (Re.search Re.match_package path2) as [p2|]; [|lia].
  rewrite dict_set_length.
  destruct (Dict.contains p1 pm) eqn:Hc; [rewrite Hc; lia|].
  rewrite dict_contains_get, bool_decide_eq_true_2, dict_set_length, Hc; [lia|].
  rewrite dict_get_set_eq. eauto.
Qed.

Lemma package_mappings_length mp pm :
  length (foldl add_package_mapping pm mp) ≤ length pm + length mp.
Proof.
  revert pm. induction mp as [|item mp IH]; intros pm; simpl; [lia|].
  pose proof (IH (add_package_mapping pm item)).
  pose proof (add_package_mapping_length pm item). lia.
Qed.

(** The keys of the first loop's dictionary are the source package names
    observed. *)
Lemma package_mappings_keys mp a :
  a ∈ Dict.keys (foldl add_package_mapping [] mp) ↔ a ∈ (observations mp).*1.
Proof.
  rewrite dict_key_get, get_package_mappings. simpl.
  assert (observed_targets (observations mp) a = ∅ ↔ a ∉ (observations mp).*1) as Hobs.
  { unfold observed_targets. split.
    - intros Hempty [[a' b] [-> Hin]]%list_elem_of_fmap.
      assert (b ∈ (∅ : gset string)) as Hb; [|by apply not_elem_of_empty in Hb].
      rewrite <- Hempty. apply elem_of_list_to_set, list_elem_of_fmap.
      exists (a', b). split; [done|]. by apply list_elem_of_filter.
    - intros Hnin. apply set_eq. intros b. split; [|by intros ?%not_elem_of_empty].
      intros ([a' b'] & -> & [Ha Hin]%list_elem_of_filter)%elem_of_list_to_set%list_elem_of_fmap.
      exfalso. apply Hnin. apply list_elem_of_fmap. exists (a', b'). by split. }
  case_decide as Hd.
  - split; [by intros [??]|]. intros Hin. by apply Hobs in Hd.
  - split; [|eauto]. intros _.
    destruct (decide (a ∈ (observations mp).*1)) as [|Hnin]; [done|].
    by apply Hobs in Hnin.
Qed.

(** The second loop files every key of the first loop's dictionary once,
    in one of its two tables. *)
Lemma add_consistency_keys pm c0 i0 :
  NoDup (Dict.keys pm) →
  (∀ k, k ∈ Dict.keys pm → (k ∉ Dict.keys c0) ∧ (k ∉ Dict.keys i0)) →
  Dict.keys (foldl add_consistency (c0, i0) pm).1
  ++ Dict.keys (foldl add_consistency (c0, i0) pm).2
  ≡ₚ Dict.keys c0 ++ Dict.keys i0 ++ Dict.keys pm.
Proof.
  revert c0 i0. induction pm as [|[k s] pm IH]; intros c0 i0 Hnd Hfresh.
  - simpl. by rewrite app_nil_r.
  - apply NoDup_cons in Hnd as [Hk Hnd]. cbn [foldl].
    destruct (Hfresh k) as [Hkc Hki]; [by left|].
    assert (∃ c1 i1, add_consistency (c0, i0) (k, s) = (c1, i1)
             ∧ Dict.keys c1 ++ Dict.keys i1 ≡ₚ k :: Dict.keys c0 ++ Dict.keys i0
             ∧ ∀ k', k' ∈ Dict.keys pm → (k' ∉ Dict.keys c1) ∧ (k' ∉ Dict.keys i1))
      as (c1 & i1 & -> & Hperm & Hfresh1).
    { assert (∀ k', k' ∈ Dict.keys pm → k' ≠ k) as Hne by (intros k' Hin ->; done).
      unfold add_consistency.
      destruct (elements s) as [|x [|y l]]; eexists _, _; (split; [done|]);
        rewrite dict_keys_set, dict_contains_not_key by done;
        (split; [|intros k' Hin; destruct (Hfresh k') as [? ?]; [by right|];
                  rewrite ?elem_of_app, ?list_elem_of_singleton;
                  specialize (Hne k' Hin); tauto]).
      - rewrite (assoc_L (++)). by rewrite <- Permutation_cons_append.
      - rewrite <- (assoc_L (++)). rewrite (Permutation_app_comm [k]).
        rewrite (assoc_L (++)). by rewrite <- Permutation_cons_append.
      - rewrite (assoc_L (++)). by rewrite <- Permutation_cons_append. }
    rewrite (IH c1 i1 Hnd Hfresh1). rewrite (assoc_L (++)), Hperm.
    cbn [Dict.keys fmap list_fmap fst]. rewrite (assoc_L (++)).
    by rewrite <- Permutation_middle.
Qed.

End AnalyserCounts.

(** X20. The numbers of the analysis add up. The number of unique packages
    is the number of distinct source package names observed in the
    store-path mappings; every one of them is in exactly one of the two
    tables, so the two table counts add up to it and no name is a key of
    both; and there are no more unique packages than mapped store paths. *)
Theorem analyze_store_paths_counts :
  ∀ (symlink_results : match_results),
    let mp := store_path_mappings (stats symlink_results) in
    let analysis := analyze_store_paths symlink_results in
    unique_packages_state1 analysis
    = size (list_to_set (observations mp).*1 : gset string)
    ∧ consistent_mappings_count analysis + inconsistent_mappings_count analysis
      = unique_packages_state1 analysis
    ∧ unique_packages_state1 analysis ≤ total_store_paths analysis
    ∧ NoDup (Dict.keys (consistent_package_mappings analysis)
             ++ Dict.keys (inconsistent_package_mappings analysis)).
Proof.
  intros symlink_results mp analysis.
  set (pm := foldl add_package_mapping [] mp).
  assert (NoDup (Dict.keys pm)) as Hnd by (apply package_mappings_NoDup; constructor).
  pose proof (add_consistency_keys pm [] [] Hnd) as Hperm.
  assert (unique_packages_state1 analysis = length pm
          ∧ total_store_paths analysis = length mp
          ∧ consistent_package_mappings analysis
            = (foldl add_consistency ([], []) pm).1
          ∧ inconsistent_package_mappings analysis
            = (foldl add_consistency ([], []) pm).2
          ∧ consistent_mappings_count analysis
            = length (foldl add_consistency ([], []) pm).1
          ∧ inconsistent_mappings_count analysis
            = length (foldl add_consistency ([], []) pm).2)
    as (-> & -> & -> & -> & -> & ->).
  { unfold analysis, analyze_store_paths. fold mp. fold pm.
    by destruct (foldl add_consistency ([], []) pm). }
  match goal with
  | |- context [foldl add_consistency ?acc pm] =>
      match type of Hperm with
      | context [foldl add_consistency ?acc' pm] => change acc with acc' in *
      end
  end.
  specialize (Hperm ltac:(intros k _; split; apply not_elem_of_nil)).
  simpl in Hperm.
  split; [|split; [|split]].
  - rewrite <- dict_length_keys, <- (size_list_to_set (C := gset string)) by done.
    f_equal. apply set_eq. intros a. rewrite !elem_of_list_to_set.
    apply package_mappings_keys.
  - rewrite <- !dict_length_keys, <- length_app. by rewrite Hperm.
  - pose proof (package_mappings_length mp []). simpl in *. fold pm in H. lia.
  - by rewrite Hperm.
Qed.

(** ** Store paths and package names *)

Section StorePaths.

Import PyStr Re.

Lemma span_forall p s : string_forall p (span p s).1 = true.
Proof.
  induction s as [|c s IH]; [done|]. simpl.
  destruct (p c) eqn:Hc; [|done].
  destruct (span p s) as [a b]. simpl in *. by rewrite Hc.
Qed.

Lemma truthy_ne s : truthy s = true ↔ s ≠ EmptyString.
Proof. by destruct s. Qed.

(** The two store-path patterns match at the same places, with the same
    store root, hash and name. *)
Lemma match_store_path_package s :
  match match_store_path s, match_package s with
  | Some store_path, Some name =>
      ∃ root h,
        root ∈ store_roots ∧ String.length h = 32
        ∧ string_forall lower_alnum h = true
        ∧ name ≠ EmptyString ∧ string_forall not_sep name = true
        ∧ store_path = root +:+ h +:+ "-" +:+ name
  | None, None => True
  | _, _ => False
  end.
Proof.
  unfold match_store_path, match_package.
  destruct (match_store_prefix s) as [[[root hd] s2]|] eqn:Hm; [|done].
  apply match_store_prefix_sound in Hm as (Hroot & h & -> & Hl & Hh & _).
  pose proof (span_forall not_sep s2) as Hname.
  destruct (span not_sep s2) as [name rest]. simpl in Hname.
  destruct (truthy name) eqn:Ht; [|done].
  exists root, h. repeat split; try done; [by apply truthy_ne|].
  by rewrite <- !string_app_assoc.
Qed.

Lemma search_head {A} (m : string → option A) s x :
  m s = Some x → search m s = Some x.
Proof. intros H. destruct s; cbn [search]; by rewrite H. Qed.

(** A store path, searched, gives itself and its name. *)
Lemma search_well_formed_store_path root h name :
  root ∈ store_roots → String.length h = 32 →
  string_forall lower_alnum h = true →
  name ≠ EmptyString → string_forall not_sep name = true →
  search match_store_path (root +:+ h +:+ "-" +:+ name)
  = Some (root +:+ h +:+ "-" +:+ name)
  ∧ search match_package (root +:+ h +:+ "-" +:+ name) = Some name.
Proof.
  intros Hroot Hl Hh Hne Hname.
  assert (match_store_path (root +:+ h +:+ "-" +:+ name)
          = Some (root +:+ h +:+ "-" +:+ name)
          ∧ match_package (root +:+ h +:+ "-" +:+ name) = Some name) as [H1 H2].
  { unfold match_store_path, match_package.
    rewrite match_store_prefix_complete by done.
    rewrite (span_all not_sep name Hname).
    apply truthy_ne in Hne. rewrite Hne.
    by rewrite <- !string_app_assoc. }
  split; by apply search_head.
Qed.

(** What [re.search] finds with the first pattern, it finds with the
    second. *)
Lemma search_store_path_package path store_path :
  search match_store_path path = Some store_path →
  ∃ root h name,
    root ∈ store_roots ∧ String.length h = 32
    ∧ string_forall lower_alnum h = true
    ∧ name ≠ EmptyString ∧ string_forall not_sep name = true
    ∧ store_path = root +:+ h +:+ "-" +:+ name
    ∧ search match_package path = Some name.
Proof.
  induction path as [|c path IH].
  - cbn [search]. pose proof (match_store_path_package EmptyString) as Hm.
    destruct (match_store_path EmptyString) as [sp|] eqn:H1; [|done].
    destruct (match_package EmptyString) as [name|] eqn:H2; [|done].
    intros [= <-]. destruct Hm as (root & h & ?). exists root, h, name. naive_solver.
  - cbn [search]. pose proof (match_store_path_package (String c path)) as Hm.
    destruct (match_store_path (String c path)) as [sp|] eqn:H1.
    + destruct (match_package (String c path)) as [name|] eqn:H2; [|done].
      intros [= <-]. destruct Hm as (root & h & ?). exists root, h, name. naive_solver.
    + destruct (match_package (String c path)) as [name|] eqn:H2; [done|].
      apply IH.
Qed.

End StorePaths.

(** X21. A store path, once extracted, names its package. What the matcher
    extracts from a path as its store path is a store root, a hash of
    thirty-two characters of [[a-z0-9]], a dash and a name that is not
    empty and has no separator. The analyser's pattern then finds that
    name in it, the same name it would find in the path itself, and
    extracting the store path again gives it back. *)
Theorem store_path_names_its_package :
  ∀ (path store_path : string),
    Re.search Re.match_store_path path = Some store_path →
    ∃ root h name,
      root ∈ Re.store_roots ∧ String.length h = 32
      ∧ string_forall Re.lower_alnum h = true
      ∧ name ≠ EmptyString ∧ string_forall PyStr.not_sep name = true
      ∧ store_path = root +:+ h +:+ "-" +:+ name
      ∧ Re.search Re.match_package store_path = Some name
      ∧ Re.search Re.match_package path = Some name
      ∧ Re.search Re.match_store_path store_path = Some store_path.
Proof.
  intros path store_path Hs.
  apply search_store_path_package in Hs
    as (root & h & name & Hroot & Hl & Hh & Hne & Hname & -> & Hp).
  destruct (search_well_formed_store_path root h name) as [H1 H2]; try done.
  exists root, h, name. repeat split; done.
Qed.

Lemma store_path_names_its_package_witness :
  ∃ root h name,
    root ∈ Re.store_roots ∧ String.length h = 32
    ∧ string_forall Re.lower_alnum h = true
    ∧ name ≠ EmptyString ∧ string_forall PyStr.not_sep name = true
    ∧ "nix/store/" +:+ hash_a +:+ "-pkg" = root +:+ h +:+ "-" +:+ name
    ∧ Re.search Re.match_package ("nix/store/" +:+ hash_a +:+ "-pkg") = Some name
    ∧ Re.search Re.match_package ("etc/nix/store/" +:+ hash_a +:+ "-pkg/bin/x")
      = Some name
    ∧ Re.search Re.match_store_path ("nix/store/" +:+ hash_a +:+ "-pkg")
      = Some ("nix/store/" +:+ hash_a +:+ "-pkg").
Proof.
  apply (store_path_names_its_package ("etc/nix/store/" +:+ hash_a +:+ "-pkg/bin/x")
           ("nix/store/" +:+ hash_a +:+ "-pkg")).
  vm_compute. reflexivity.
Defined.

Section MappingEntries.

Lemma dict_set_new {V} k (v : V) d :
  k ∉ Dict.keys d → Dict.set k v d = d ++ [(k, v)].
Proof.
  induction d as [|[k' v'] d IH]; simpl; [done|].
  intros [Hne Hnin]%not_elem_of_cons.
  rewrite bool_decide_eq_false_2 by done. by rewrite IH.
Qed.

Lemma record_mapping_cases obs (mp : pydict string) :
  record_mapping obs mp = mp
  ∨ ∃ k v, obs = Some (k, v) ∧ (k ∉ Dict.keys mp)
           ∧ record_mapping obs mp = mp ++ [(k, v)].
Proof.
  destruct obs as [[k v]|]; [|by left]. simpl.
  destruct (Dict.contains k mp) eqn:Hc; [by left|]. right.
  assert (k ∉ Dict.keys mp) as Hnin.
  { intros Hin%dict_contains_keys. by rewrite Hin in Hc. }
  exists k, v. by rewrite dict_set_new.
Qed.

Lemma omap_length_all {A B} (f : A → option B) l :
  (∀ x, x ∈ l → is_Some (f x)) → length (omap f l) = length l.
Proof.
  induction l as [|x l IH]; intros Hall; [done|]. simpl.
  destruct (Hall x) as [y ->]; [by left|]. simpl. f_equal.
  apply IH. intros z Hz. apply Hall. by right.
Qed.

End MappingEntries.

(** X22. The store-path mappings the matcher hands on are fit for the
    analyser. Every entry is the pair of store paths of some matched pair,
    no source store path is a key twice, and the analyser finds a package
    name in both store paths of every entry: its test
    [if match1 and match2] never fails on them, so every mapped store path
    counts as an observation. *)
Theorem find_equivalent_symlinks_mappings_entries :
  ∀ (set_order : list string → list string) (state1 state2 : state)
    (batch_size : nat) (res : match_results),
    find_equivalent_symlinks set_order state1 state2 batch_size = Ok res →
    let mp := store_path_mappings (stats res) in
    NoDup (Dict.keys mp)
    ∧ (∀ item, item ∈ mp →
               (∃ m, m ∈ matching_paths res
                     ∧ store_pair (state1_path m) (state2_path m) = Some item)
               ∧ is_Some (package_pair item))
    ∧ length (observations mp) = length mp.
Proof.
  intros set_order state1 state2 batch_size res Hres mp.
  assert (NoDup (Dict.keys mp)
          ∧ ∀ item, item ∈ mp →
                    ∃ m, m ∈ matching_paths res
                         ∧ store_pair (state1_path m) (state2_path m) = Some item)
    as [Hnd Hitems].
  { unfold mp.
    apply (find_equivalent_symlinks_inv set_order state1 state2
             (λ _ acc,
                NoDup (Dict.keys (mappings acc))
                ∧ ∀ item, item ∈ mappings acc →
                          ∃ m, m ∈ matching_paths (results acc)
                               ∧ store_pair (state1_path m) (state2_path m)
                                 = Some item)) in Hres
      as (final & Hinv & ->); [done| |].
    - split; [constructor|]. intros item Hin. by apply elem_of_nil in Hin.
    - intros pre path1 acc acc' [Hnd IH] _ Hstep.
      apply match_symlink_inv in Hstep
        as [[_ ->]|(path2 & rest & l1 & l2 & n1 & n2 & r1 & r2 & c1 & c2
                    & _ & _ & _ & _ & _ & _ & _ & ->)]; [done|].
      cbn [results mappings]. rewrite matching_paths_record_match.
      destruct (record_mapping_cases (store_pair path1 path2) (mappings acc))
        as [->|(k & v & Hobs & Hnin & ->)].
      + split; [done|]. intros item (m & Hm & Hpair)%IH.
        exists m. split; [|done]. apply elem_of_app. by left.
      + split.
        * unfold Dict.keys. rewrite fmap_app. apply NoDup_app.
          split; [done|]. split; [|apply NoDup_singleton].
          by intros x Hx ->%list_elem_of_singleton.
        * intros item [(m & Hm & Hpair)%IH| ->%list_elem_of_singleton]%elem_of_app.
          -- exists m. split; [|done]. apply elem_of_app. by left.
          -- eexists. split; [apply elem_of_app; right; by left|]. done. }
  assert (∀ item, item ∈ mp → is_Some (package_pair item)) as Hpkg.
  { intros [sp1 sp2] (m & _ & Hpair)%Hitems.
    unfold store_pair in Hpair.
    destruct (Re.search Re.match_store_path (state1_path m)) as [s1|] eqn:H1; [|done].
    destruct (Re.search Re.match_store_path (state2_path m)) as [s2|] eqn:H2; [|done].
    injection Hpair as <- <-.
    apply search_store_path_package in H1
      as (root1 & h1 & name1 & ? & ? & ? & ? & ? & -> & _).
    apply search_store_path_package in H2
      as (root2 & h2 & name2 & ? & ? & ? & ? & ? & -> & _).
    unfold package_pair. cbn [fst snd].
    destruct (search_well_formed_store_path root1 h1 name1) as [_ ->]; try done.
    destruct (search_well_formed_store_path root2 h2 name2) as [_ ->]; try done. }
  split; [done|]. split; [by split; [apply Hitems|apply Hpkg]|].
  by apply omap_length_all.
Qed.

Lemma find_equivalent_symlinks_mappings_entries_witness :
  ∃ res,
    find_equivalent_symlinks remove_dups one_package_state two_packages_state
      default_batch_size = Ok res
    ∧ NoDup (Dict.keys (store_path_mappings (stats res)))
    ∧ length (observations (store_path_mappings (stats res)))
      = length (store_path_mappings (stats res)).
Proof.
  eexists. split; [vm_compute; reflexivity|].
  pose proof (find_equivalent_symlinks_mappings_entries remove_dups one_package_state
                two_packages_state default_batch_size _ eq_refl) as H.
  cbv zeta in H. split; apply H.
Defined.

(** X23. A path without a store path is only stripped. When nowhere in
    the path a store root is followed by thirty-two characters of
    [[a-z0-9]] and a dash, [normalize_path] removes the leading separators
    and changes nothing else. *)
Theorem normalize_path_without_store_path :
  ∀ p : string,
    ¬ contains_store_segment p →
    normalize_path p = PyStr.lstrip p.
Proof.
  intros p Hno. unfold normalize_path, Re.sub_normalize.
  apply sub_normalize_fuel_no_match. intros pre t Hp.
  destruct (Re.match_normalize t) as [x|] eqn:Hm; [|done].
  exfalso. apply Hno. destruct (lstrip_suffix p) as [pre0 Hp0].
  exists (pre0 +:+ pre), t. split; [|by apply (match_normalize_segment t x)].
  by rewrite Hp0 at 1; rewrite Hp, string_app_assoc.
Qed.

Lemma normalize_path_without_store_path_witness :
  normalize_path "//etc/nix/store/README" = "etc/nix/store/README".
Proof.
  apply (normalize_path_without_store_path "//etc/nix/store/README").
  intros H%contains_store_segment_search. vm_compute in H. discriminate.
Defined.

(** ** The report *)

Section Report.

Lemma analyze_store_paths_fields symlink_results :
  let mp := store_path_mappings (stats symlink_results) in
  let pm := foldl add_package_mapping [] mp in
  let tables := foldl add_consistency ([], []) pm in
  let analysis := analyze_store_paths symlink_results in
  consistent_package_mappings analysis = tables.1
  ∧ inconsistent_package_mappings analysis = tables.2
  ∧ total_store_paths analysis = length mp
  ∧ unique_packages_state1 analysis = length pm
  ∧ consistent_mappings_count analysis = length tables.1
  ∧ inconsistent_mappings_count analysis = length tables.2.
Proof.
  intros mp pm tables analysis. unfold analysis, analyze_store_paths.
  fold mp. fold pm. unfold tables.
  by destruct (foldl add_consistency ([], []) pm).
Qed.

Lemma analyze_store_paths_sum symlink_results :
  let analysis := analyze_store_paths symlink_results in
  consistent_mappings_count analysis + inconsistent_mappings_count analysis
  = unique_packages_state1 analysis
  ∧ unique_packages_state1 analysis ≤ total_store_paths analysis
  ∧ consistent_mappings_count analysis
    = length (consistent_package_mappings analysis)
  ∧ inconsistent_mappings_count analysis
    = length (inconsistent_package_mappings analysis).
Proof.
  intros analysis. subst analysis.
  destruct (analyze_store_paths_fields symlink_results)
    as (-> & -> & -> & -> & -> & ->).
  set (mp := store_path_mappings (stats symlink_results)).
  set (pm := foldl add_package_mapping [] mp).
  assert (NoDup (Dict.keys pm)) as Hnd by (apply package_mappings_NoDup; constructor).
  pose proof (add_consistency_keys pm [] [] Hnd
                ltac:(intros k _; split; apply not_elem_of_nil)) as Hperm.
  apply Permutation_length in Hperm.
  rewrite length_app, !dict_length_keys in Hperm. simpl in Hperm.
  rewrite dict_length_keys in Hperm.
  pose proof (package_mappings_length mp []) as Hle. fold pm in Hle. simpl in Hle.
  repeat split; try done; lia.
Qed.

End Report.

(** X24. The report is coherent. For a report made from the result of the
    matcher and its analysis: the summary counts the whole lists, while
    the report shows the first hundred identical and different pairs and
    the first fifty of each kind of broken pair, so each list of examples
    has the count of its kind or that limit, whichever is less; the five
    counts add up to the number of matching paths, which is at most the
    number of symlinks of state 1; the two tables of package mappings are
    shown whole, and their sizes add up to the number of unique packages,
    which is at most the number of mapped store paths. *)
Theorem compare_states_report_coherent :
  ∀ (set_order : list string → list string) (now state1_path state2_path : string)
    (state1 state2 : state) (rep : report),
    compare_states set_order now state1_path state2_path state1 state2 = Ok rep →
    let s := report_summary_of rep in
    let examples := report_symlink_analysis rep in
    let broken := summary_broken_links s in
    let packages := summary_store_path_analysis s in
    let tables := report_store_path_analysis rep in
    summary_matching_paths s
    = summary_identical_final_content s + summary_different_final_content s
      + in_both_states broken + only_in_state1 broken + only_in_state2 broken
    ∧ summary_matching_paths s ≤ summary_total_symlinks_state1 s
    ∧ summary_total_symlinks_state1 s = length (symlinks state1)
    ∧ length (examples_identical_final_content examples)
      = summary_identical_final_content s `min` 100
    ∧ length (examples_different_final_content examples)
      = summary_different_final_content s `min` 100
    ∧ length (examples_broken_in_both examples) = in_both_states broken `min` 50
    ∧ length (examples_broken_only_in_state1 examples)
      = only_in_state1 broken `min` 50
    ∧ length (examples_broken_only_in_state2 examples)
      = only_in_state2 broken `min` 50
    ∧ consistent_mappings packages + inconsistent_mappings packages
      = unique_packages packages
    ∧ unique_packages packages ≤ total_mapped_paths packages
    ∧ length (table_consistent_package_mappings tables)
      = consistent_mappings packages
    ∧ length (table_inconsistent_package_mappings tables)
      = inconsistent_mappings packages.
Proof.
  intros set_order now state1_path state2_path state1 state2 rep.
  unfold compare_states.
  destruct (find_equivalent_symlinks set_order state1 state2 default_batch_size)
    as [res|e] eqn:Hres; [|done].
  simpl. intros [= <-].
  destruct (analyze_store_paths_sum res) as (Hsum & Hle & Hc & Hi).
  apply (find_equivalent_symlinks_inv set_order state1 state2
           (λ pre acc,
              let r := results acc in
              total_symlinks_state1 (stats r) = length (symlinks state1)
              ∧ (stat_matching_paths (stats r) = length (matching_paths r)
                 ∧ stat_different_targets (stats r) = length (different_targets r)
                 ∧ stat_identical_final_content (stats r)
                   = length (identical_final_content r)
                 ∧ stat_different_final_content (stats r)
                   = length (different_final_content r)
                 ∧ stat_broken_in_both (stats r) = length (broken_in_both r)
                 ∧ stat_broken_only_in_state1 (stats r)
                   = length (broken_only_in_state1 r)
                 ∧ stat_broken_only_in_state2 (stats r)
                   = length (broken_only_in_state2 r))
              ∧ length (matching_paths r)
                = length (identical_final_content r)
                  + length (different_final_content r)
                  + length (broken_in_both r) + length (broken_only_in_state1 r)
                  + length (broken_only_in_state2 r)
              ∧ length (matching_paths r) ≤ length pre)) in Hres
    as (final & (Htot & Hcnt & Hpart & Hlen) & Heq).
  - destruct Hcnt as (H1 & _ & H3 & H4 & H5 & H6 & H7).
    rewrite dict_length_keys in Hlen.
    cbn [generate_report report_summary_of report_symlink_analysis
         report_store_path_analysis summary_matching_paths
         summary_identical_final_content summary_different_final_content
         summary_broken_links summary_store_path_analysis
         summary_total_symlinks_state1 in_both_states only_in_state1 only_in_state2
         examples_identical_final_content examples_different_final_content
         examples_broken_in_both examples_broken_only_in_state1
         examples_broken_only_in_state2 consistent_mappings inconsistent_mappings
         unique_packages total_mapped_paths table_consistent_package_mappings
         table_inconsistent_package_mappings].
    rewrite !length_take. rewrite <- Hc, <- Hi.
    subst res.
    cbn [with_store_path_mappings stats matching_paths identical_final_content
         different_final_content broken_in_both broken_only_in_state1
         broken_only_in_state2 total_symlinks_state1 stat_matching_paths
         stat_identical_final_content stat_different_final_content
         stat_broken_in_both stat_broken_only_in_state1 stat_broken_only_in_state2]
      in *.
    repeat split; lia.
  - cbn. repeat split; lia.
  - intros pre path1 acc acc' (Htot & Hcnt & Hpart & Hlen) _ Hstep.
    apply match_symlink_inv in Hstep
      as [[_ ->]|(path2 & rest & l1 & l2 & n1 & n2 & r1 & r2 & c1 & c2
                  & _ & _ & _ & _ & _ & _ & _ & ->)].
    + cbn zeta. rewrite length_app. cbn. repeat split; try tauto; lia.
    + cbn [results]. cbn zeta.
      split; [done|]. split; [by apply record_match_counted|].
      split; [by apply record_match_partition|].
      rewrite matching_paths_record_match, !length_app. cbn [length]. lia.
Qed.

Lemma compare_states_report_coherent_witness :
  ∃ rep,
    compare_states remove_dups "2024-01-01T00:00:00" "state1.json" "state2.json"
      two_builds_state two_builds_state = Ok rep
    ∧ summary_matching_paths (report_summary_of rep)
      ≤ summary_total_symlinks_state1 (report_summary_of rep)
    ∧ length (examples_different_final_content (report_symlink_analysis rep))
      = summary_different_final_content (report_summary_of rep) `min` 100.
Proof.
  eexists. split; [vm_compute; reflexivity|].
  pose proof (compare_states_report_coherent remove_dups "2024-01-01T00:00:00"
                "state1.json" "state2.json" two_builds_state two_builds_state
                _ eq_refl) as H.
  cbv zeta in H. split; apply H.
Defined.

(** ** A snapshot matched with itself: the claim *)

(** C4, as the code has it. A snapshot matched with itself, in which no
    two symlinks share a normalised path and every target is a string or
    null. Every symlink is paired with itself, and both sides of the pair
    carry what [resolve_symlink_chain] returns for the path.
    [identical_final_content] holds the pairs whose chain is not broken,
    which are those of status [file], and [broken_in_both] holds the
    pairs whose chain is broken; [different_final_content] and the two
    one-sided broken lists stay empty. *)
Theorem find_equivalent_symlinks_same_state :
  ∀ (set_order : list string → list string) (st : state) (batch_size : nat),
    set_order_ok set_order →
    batch_size ≠ 0 →
    targets_well_typed (symlinks st) →
    (∀ p q, p ∈ Dict.keys (symlinks st) → q ∈ Dict.keys (symlinks st) →
            normalize_path p = normalize_path q → p = q) →
    ∃ res,
      find_equivalent_symlinks set_order st st batch_size = Ok res
      ∧ different_final_content res = []
      ∧ broken_only_in_state1 res = []
      ∧ broken_only_in_state2 res = []
      ∧ state1_path <$> matching_paths res = Dict.keys (symlinks st)
      ∧ identical_final_content res
        = filter (λ m, state1_broken m = false) (matching_paths res)
      ∧ broken_in_both res
        = filter (λ m, state1_broken m = true) (matching_paths res)
      ∧ ∀ m, m ∈ matching_paths res →
             state2_path m = state1_path m
             ∧ resolution2 m = resolution1 m
             ∧ resolve_symlink_chain (state1_path m) (symlinks st) (files st) ∅
                 default_max_depth
               = Returned (resolution1 m) (<[state1_path m := resolution1 m]> ∅)
             ∧ (state1_broken m = false ↔ state1_status m = File)
             ∧ (m ∈ identical_final_content res ↔ state1_broken m = false)
             ∧ (m ∈ broken_in_both res ↔ state1_broken m = true).
Proof.
  intros set_order st batch_size Hok Hbs Hwt Hinj.
  assert (∃ res, find_equivalent_symlinks set_order st st batch_size = Ok res)
    as [res Hres].
  { rewrite find_equivalent_symlinks_flat by done. unfold match_all.
    destruct (py_fold_ok (λ _, True)
                (match_symlink (symlinks st) (symlinks st) (files st) (files st)
                   (build_normalized_path_index
                      (set_order (Dict.keys (symlinks st) ++ Dict.keys (files st)))))
                {| results := empty_results (symlinks st) (symlinks st);
                   mappings := [];
                   resolve_cache1 := ∅;
                   resolve_cache2 := ∅ |}
                (Dict.keys (symlinks st)) I) as [final ->]; [|simpl; eauto].
    intros x acc _ Hx.
    destruct (match_symlink_self_ok set_order st Hok Hinj acc x Hwt Hx) as [acc' ->].
    eauto. }
  exists res. split; [done|].
  apply (find_equivalent_symlinks_inv set_order st st
           (λ pre acc,
              let r := results acc in
              resolve_cache1 acc = resolve_cache2 acc
              ∧ cache_sound (symlinks st) (files st) default_max_depth
                  (resolve_cache1 acc)
              ∧ different_final_content r = []
              ∧ broken_only_in_state1 r = []
              ∧ broken_only_in_state2 r = []
              ∧ state1_path <$> matching_paths r = pre
              ∧ identical_final_content r
                = filter (λ m, state1_broken m = false) (matching_paths r)
              ∧ broken_in_both r
                = filter (λ m, state1_broken m = true) (matching_paths r)
              ∧ ∀ m, m ∈ matching_paths r →
                     state2_path m = state1_path m
                     ∧ resolution2 m = resolution1 m
                     ∧ resolve_symlink_chain (state1_path m) (symlinks st) (files st)
                         ∅ default_max_depth
                       = Returned (resolution1 m)
                                  (<[state1_path m := resolution1 m]> ∅))) in Hres
    as (final & (_ & _ & Hd & Hb1 & Hb2 & Hpaths & Hid & Hbr & Hm) & ->).
  - cbn [with_store_path_mappings different_final_content broken_only_in_state1
         broken_only_in_state2 matching_paths identical_final_content broken_in_both].
    do 6 (split; [done|]).
    intros m Hin. destruct (Hm m Hin) as (Hsame & Hres2 & Hfresh).
    do 3 (split; [done|]).
    split.
    { destruct (fresh_resolution_consistent _ _ _ _ _ _ Hfresh) as [Hbroken _].
      cbn [resolution1 broken_of status_of fst snd] in Hbroken. rewrite Hbroken.
      rewrite negb_false_iff, bool_decide_eq_true. done. }
    rewrite Hid, Hbr, !list_elem_of_filter. tauto.
  - cbn. split; [done|]. split; [intros p r H; by rewrite lookup_empty in H|].
    do 6 (split; [done|]). intros m Hin. by apply elem_of_nil in Hin.
  - intros pre path1 acc acc' (Hc & Hs & Hd & Hb1 & Hb2 & Hpre & Hid & Hbr & Hm)
           Hin Hstep.
    apply match_symlink_inv in Hstep
      as [[Hcand _]|(path2 & rest & l1 & l2 & n1 & n2 & r1 & r2 & c1 & c2
                     & Hcand & Hl1 & Hl2 & _ & _ & Hr1 & Hr2 & ->)];
      rewrite (candidates_self set_order st Hok Hinj path1 Hin) in Hcand; [done|].
    injection Hcand as <- <-.
    rewrite <- Hc, Hr1 in Hr2. injection Hr2 as <- <-.
    apply (resolve_symlink_chain_sound_cache _ _ _ _ _ _ _ Hs) in Hr1
      as [Hfresh Hs'].
    cbn [results resolve_cache1 resolve_cache2]. cbn zeta.
    rewrite classify_same. unfold record_match.
    cbn [matching_paths different_final_content broken_only_in_state1
         broken_only_in_state2 identical_final_content broken_in_both].
    rewrite Hd, Hb1, Hb2, fmap_app, Hpre.
    split; [done|]. split; [done|].
    split; [by destruct (broken_of r1); case_bool_decide|].
    split; [by destruct (broken_of r1); case_bool_decide|].
    split; [by destruct (broken_of r1); case_bool_decide|].
    split; [done|].
    split; [|split].
    + apply put_filter; [done|]. rewrite bool_decide_eq_true.
      cbn [make_match state1_broken]. by destruct (broken_of r1).
    + apply put_filter; [done|]. rewrite bool_decide_eq_true.
      cbn [make_match state1_broken]. by destruct (broken_of r1).
    + intros m [Hold| ->%list_elem_of_singleton]%elem_of_app; [by apply Hm|].
      rewrite resolution1_make_match, resolution2_make_match.
      cbn [make_match state1_path state2_path]. done.
Qed.

Lemma find_equivalent_symlinks_same_state_witness :
  (set_order_ok remove_dups
   ∧ default_batch_size ≠ 0
   ∧ targets_well_typed (symlinks plain_state)
   ∧ ∀ p q, p ∈ Dict.keys (symlinks plain_state) →
            q ∈ Dict.keys (symlinks plain_state) →
            normalize_path p = normalize_path q → p = q)
  ∧ ∃ res,
      find_equivalent_symlinks remove_dups plain_state plain_state default_batch_size
      = Ok res
      ∧ different_final_content res = []
      ∧ broken_only_in_state1 res = []
      ∧ broken_only_in_state2 res = []
      ∧ state1_path <$> matching_paths res = Dict.keys (symlinks plain_state)
      ∧ identical_final_content res
        = filter (λ m, state1_broken m = false) (matching_paths res)
      ∧ broken_in_both res
        = filter (λ m, state1_broken m = true) (matching_paths res)
      ∧ ∀ m, m ∈ matching_paths res →
             state2_path m = state1_path m
             ∧ resolution2 m = resolution1 m
             ∧ resolve_symlink_chain (state1_path m) (symlinks plain_state)
                 (files plain_state) ∅ default_max_depth
               = Returned (resolution1 m) (<[state1_path m := resolution1 m]> ∅)
             ∧ (state1_broken m = false ↔ state1_status m = File)
             ∧ (m ∈ identical_final_content res ↔ state1_broken m = false)
             ∧ (m ∈ broken_in_both res ↔ state1_broken m = true).
Proof.
  assert (targets_well_typed (symlinks plain_state)) as Hwt.
  { intros p r Hget Ht. unfold plain_state in Hget. simpl in Hget.
    repeat case_bool_decide; simplify_eq/=; eauto. }
  assert (∀ p q, p ∈ Dict.keys (symlinks plain_state) →
                 q ∈ Dict.keys (symlinks plain_state) →
                 normalize_path p = normalize_path q → p = q) as Hinj.
  { intros p q Hp Hq. simpl in Hp, Hq.
    rewrite !elem_of_cons, elem_of_nil in Hp, Hq.
    destruct Hp as [->|[->|[]]], Hq as [->|[->|[]]]; vm_compute; congruence. }
  assert (default_batch_size ≠ 0) as Hbs by done.
  split; [by repeat split; try apply remove_dups_ok|].
  exact (find_equivalent_symlinks_same_state remove_dups plain_state default_batch_size
           remove_dups_ok Hbs Hwt Hinj).
Defined.
